(** * go-mysql-server: grouping, generator lifting, replication stubs and
      the process list

    A shallow embedding of
      - [sql/plan/group_by.go]      (GroupBy node and its two row iterators),
      - the replication plan nodes  (ChangeReplicationSource, StartReplica,
                                     StopReplica),
      - [sql/analyzer/resolve_generators.go] (lifting EXPLODE into Generate),
      - [processlist.go]            (the process list),
      - [sql/plan/jointype_string.go] and
        [sql/expression/function/date.go] (the text of a join type; DATE_ADD,
                                     DATE_SUB and UNIX_TIMESTAMP),
    together with the properties of these pieces.

    Conventions.  A Go function returning [(T, error)] becomes a function
    into [result T]; a Go runtime panic (nil map write, index out of range,
    call of a nil func) is the distinguished error [RuntimePanic].  The end of
    an iterator ([io.EOF]) is kept apart from errors: [Next] returns a
    [NextResult].  Maps are stdpp [gmap]s; Go maps shared by reference live
    in an explicit store. *)

From Stdlib Require Import ZArith String Ascii List Bool Lia DecimalString.
From stdpp Require Import base option list gmap strings fin_maps pretty.

Local Open Scope Z_scope.
Local Open Scope string_scope.
Local Open Scope list_scope.

(** ** Errors and results *)

Inductive error : Type :=
| ErrInvalidChildrenNumber (got expected : nat) (* sql.ErrInvalidChildrenNumber.New(n, got, expected) *)
| ErrKeyNotFound (key : Z)                      (* sql.ErrKeyNotFound.New(key) *)
| ErrPidAlreadyUsed (pid : N)                   (* sql.ErrPidAlreadyUsed.New(pid) *)
| errMultipleGenerators                         (* "there can't be more than 1 instance of EXPLODE in a SELECT" *)
| errExplodeNotArray (typ : string)             (* "argument of type %q given to EXPLODE, expecting array" *)
| ErrorString (msg : string)                    (* errors.New(msg), fmt.Errorf(msg) *)
| RuntimePanic (msg : string).                  (* a Go runtime panic *)

Inductive result (A : Type) : Type :=
| Ok (a : A)
| Fail (e : error).
Arguments Ok {A} a.
Arguments Fail {A} e.

Definition rbind {A B} (r : result A) (k : A -> result B) : result B :=
  match r with
  | Ok a => k a
  | Fail e => Fail e
  end.

#[global] Instance result_ret : MRet result := fun A a => Ok a.
#[global] Instance result_bind : MBind result := fun A B k r => rbind r k.

(** [mapR f l]: apply [f] from left to right, stop at the first failure. *)
Fixpoint mapR {A B} (f : A -> result B) (l : list A) : result (list B) :=
  match l with
  | [] => Ok []
  | x :: l' => y ← f x; ys ← mapR f l'; Ok (y :: ys)
  end.

(** ** hash/crc64 (Go standard library) *)

Module crc64.

(** [crc64.ISO]: the ISO polynomial, in reversed notation. *)
Definition ISO : Z := 0xD800000000000000.

Definition mask64 : Z := 0xFFFFFFFFFFFFFFFF.

(** Bitwise complement of a uint64 ([^crc]). *)
Definition not64 (crc : Z) : Z := Z.lxor crc mask64.

(** The inner loop of [makeTable]: eight shift-and-xor rounds. *)
Fixpoint tableRounds (j : nat) (poly crc : Z) : Z :=
  match j with
  | O => crc
  | S j' =>
      tableRounds j' poly
        (if Z.testbit crc 0
         then Z.lxor (Z.shiftr crc 1) poly
         else Z.shiftr crc 1)
  end.

(** [MakeTable poly]: the 256-entry table, as a function of the index. *)
Definition MakeTable (poly : Z) : Z -> Z :=
  fun i => tableRounds 8 poly i.

(** [update crc tab p]: [crc = tab[byte(crc)^v] ^ (crc >> 8)] per byte,
    between two complements. *)
Definition update (crc : Z) (tab : Z -> Z) (p : list Z) : Z :=
  not64
    (fold_left
       (fun c v => Z.lxor (tab (Z.lxor (Z.land c 255) v)) (Z.shiftr c 8))
       p (not64 crc)).

Definition Checksum (data : list Z) (tab : Z -> Z) : Z := update 0 tab data.

End crc64.

(** [[]byte(s)] for a string [s]. *)
Definition bytesOf (s : string) : list Z :=
  map (fun c => Z.of_N (N_of_ascii c)) (list_ascii_of_string s).

(** [strings.Join(vals, sep)]. *)
Definition stringsJoin (vals : list string) (sep : string) : string :=
  String.concat sep vals.

(** ** Values

    A row holds Go [interface{}] values.  The grouping code needs two things
    of them: the nil value and their [%#v] rendering by the [fmt] package. *)

Class GoValue (Value : Type) := {
  nilValue : Value;                 (* the nil interface value (SQL NULL) *)
  SprintfSharpV : Value -> string;  (* fmt.Sprintf("%#v", v) *)
}.

(** ** Package [plan]: group_by.go *)

Module plan.

Section GroupBy.
Context `{GoValue Value}.

(** [sql.Row] is [[]interface{}]; the nil row is the empty list. *)
Definition Row : Type := list Value.

(** The interface [sql.Aggregation] (declared in package sql), taken as a
    parameter: any three functions.  [Update] mutates the buffer it is
    given: the model returns the buffer's new contents with the error. *)
Record Aggregation : Type := {
  NewBuffer : Row;
  Update : Row -> Row -> Row * option error; (* Update(ctx, buffer, row) *)
  AggEval : Row -> result Value;             (* Eval(ctx, buffer) *)
}.

(** The interface [sql.Expression], as the type switches of group_by.go
    see it: an aggregation, an alias, or any other expression (given by
    its [Eval]).  Errors of [Eval] and [Update] are values of [error]:
    [io.EOF] is what iterators return at their end, and expressions are
    taken not to return it. *)
Inductive Expression : Type :=
| ExprAggregation (n : Aggregation)
| ExprAlias (name : string) (Child : Expression)
| ExprOther (eval : Row -> result Value).

(** [expr.Eval(ctx, row)].  Modelled from the spec: [Alias.Eval] (package
    expression, not in this file) is the [Eval] of the aliased child. *)
Fixpoint Eval (e : Expression) (row : Row) : result Value :=
  match e with
  | ExprAggregation n => AggEval n row
  | ExprAlias _ c => Eval c row
  | ExprOther f => f row
  end.

Fixpoint fillBuffer (expr : Expression) : Row :=
  match expr with
  | ExprAggregation n => NewBuffer n
  | ExprAlias _ c => fillBuffer c
  | ExprOther _ => []
  end.

Definition indexOutOfRange : error := RuntimePanic "index out of range".

(** [updateBuffer]: the buffers after the call and the error returned. *)
Fixpoint updateBuffer (buffers : list Row) (idx : nat) (expr : Expression)
    (row : Row) : list Row * option error :=
  match expr with
  | ExprAggregation n =>
      match buffers !! idx with
      | Some b =>
          let '(b', err) := Update n b row in (<[idx := b']> buffers, err)
      | None => (buffers, Some indexOutOfRange)
      end
  | ExprAlias _ c => updateBuffer buffers idx c row
  | ExprOther f =>
      match f row with
      | Fail e => (buffers, Some e)
      | Ok val =>
          if decide (idx < length buffers)%nat
          then (<[idx := [val]]> buffers, None)
          else (buffers, Some indexOutOfRange)
      end
  end.

(** [for i, a := range aggregates], from index [i] on. *)
Fixpoint updateBuffersFrom (i : nat) (buffers : list Row)
    (aggregates : list Expression) (row : Row) : list Row * option error :=
  match aggregates with
  | [] => (buffers, None)
  | a :: rest =>
      match updateBuffer buffers i a row with
      | (buffers', Some e) => (buffers', Some e)
      | (buffers', None) => updateBuffersFrom (S i) buffers' rest row
      end
  end.

Definition updateBuffers (buffers : list Row) (aggregates : list Expression)
    (row : Row) : list Row * option error :=
  updateBuffersFrom 0 buffers aggregates row.

Fixpoint evalBuffer (aggregation : Expression) (buffer : Row) : result Value :=
  match aggregation with
  | ExprAggregation n => AggEval n buffer
  | ExprAlias _ c => evalBuffer c buffer
  | ExprOther _ =>
      match buffer with
      | v :: _ => Ok v
      | [] => Ok nilValue
      end
  end.

Fixpoint evalBuffersFrom (i : nat) (buffers : list Row)
    (aggregates : list Expression) : result Row :=
  match aggregates with
  | [] => Ok []
  | agg :: rest =>
      match buffers !! i with
      | None => Fail indexOutOfRange
      | Some b =>
          val ← evalBuffer agg b;
          row ← evalBuffersFrom (S i) buffers rest;
          Ok (val :: row)
      end
  end.

Definition evalBuffers (buffers : list Row) (aggregates : list Expression)
    : result Row :=
  evalBuffersFrom 0 buffers aggregates.

(** [var table = crc64.MakeTable(crc64.ISO)] *)
Definition table : Z -> Z := crc64.MakeTable crc64.ISO.

(** The loop of [groupingKey]: the printed values, in order. *)
Fixpoint groupingVals (exprs : list Expression) (row : Row)
    : result (list string) :=
  match exprs with
  | [] => Ok []
  | expr :: rest =>
      v ← Eval expr row;
      vals ← groupingVals rest row;
      Ok (SprintfSharpV v :: vals)
  end.

Definition groupingKey (exprs : list Expression) (row : Row) : result Z :=
  vals ← groupingVals exprs row;
  Ok (crc64.Checksum (bytesOf (stringsJoin vals ",")) table).

(** *** Iterators *)

(** What [Next] returns: a row, [io.EOF], or another error. *)
Inductive NextResult : Type :=
| NextRow (row : Row)
| NextEOF
| NextErr (e : error).

(** The child iterator: the results its successive [Next] calls give;
    once they are used up it returns [io.EOF]. *)
Definition childIter : Type := list NextResult.

Definition childNext (c : childIter) : NextResult * childIter :=
  match c with
  | [] => (NextEOF, [])
  | r :: c' => (r, c')
  end.

Record groupByIter : Type := {
  iter_selectedExprs : list Expression;
  iter_child : childIter;
  iter_buf : list Row;
  iter_done : bool;
}.

Definition newGroupByIter (selectedExprs : list Expression)
    (child : childIter) : groupByIter :=
  {| iter_selectedExprs := selectedExprs;
     iter_child := child;
     iter_buf := replicate (length selectedExprs) [];
     iter_done := false |}.

(** [for j, a := range exprs { buf[j] = fillBuffer(a) }], from [j] on. *)
Fixpoint fillBuffersFrom (j : nat) (buf : list Row)
    (exprs : list Expression) : result (list Row) :=
  match exprs with
  | [] => Ok buf
  | a :: rest =>
      if decide (j < length buf)%nat
      then fillBuffersFrom (S j) (<[j := fillBuffer a]> buf) rest
      else Fail indexOutOfRange
  end.

(** The [for] loop of [groupByIter.Next] over the child: the error it
    stops with (none at EOF), the buffers and the child afterwards. *)
Fixpoint groupByIter_loop (selectedExprs : list Expression)
    (buf : list Row) (child : childIter)
    : option error * list Row * childIter :=
  match child with
  | [] => (None, buf, [])
  | NextEOF :: rest => (None, buf, rest)
  | NextErr e :: rest => (Some e, buf, rest)
  | NextRow row :: rest =>
      match updateBuffers buf selectedExprs row with
      | (buf', Some e) => (Some e, buf', rest)
      | (buf', None) => groupByIter_loop selectedExprs buf' rest
      end
  end.

Definition groupByIter_Next (i : groupByIter) : NextResult * groupByIter :=
  if iter_done i then (NextEOF, i)
  else
    let sel := iter_selectedExprs i in
    match fillBuffersFrom 0 (iter_buf i) sel with
    | Fail e =>
        (NextErr e,
         {| iter_selectedExprs := sel; iter_child := iter_child i;
            iter_buf := iter_buf i; iter_done := true |})
    | Ok buf0 =>
        let '(err, buf1, child1) := groupByIter_loop sel buf0 (iter_child i) in
        let i' := {| iter_selectedExprs := sel; iter_child := child1;
                     iter_buf := buf1; iter_done := true |} in
        match err with
        | Some e => (NextErr e, i')
        | None =>
            match evalBuffers buf1 sel with
            | Ok row => (NextRow row, i')
            | Fail e => (NextErr e, i')
            end
        end
    end.

Definition groupByIter_Close (i : groupByIter) : groupByIter :=
  {| iter_selectedExprs := iter_selectedExprs i; iter_child := iter_child i;
     iter_buf := []; iter_done := iter_done i |}.

(** Modelled from the spec: [sql.KeyValueCache] as made by
    [ctx.Memory.NewHistoryCache()] (package sql, not in this file): "a
    history cache (put, get, dispose-on-close) maps a grouping-key hash to
    a buffer vector".  [Get] of a key never put fails; [Put] stores and
    does not fail. *)
Definition cacheGet (c : gmap Z (list Row)) (k : Z) : result (list Row) :=
  match c !! k with
  | Some v => Ok v
  | None => Fail (ErrKeyNotFound k)
  end.

Definition cachePut (c : gmap Z (list Row)) (k : Z) (v : list Row)
    : result (gmap Z (list Row)) :=
  Ok (<[k := v]> c).

Record groupByGroupingIter : Type := {
  giter_selectedExprs : list Expression;
  giter_groupByExprs : list Expression;
  giter_aggregations : option (gmap Z (list Row)); (* nil until computed *)
  giter_keys : list Z;
  giter_pos : nat;
  giter_child : childIter;
}.

Definition newGroupByGroupingIter (selectedExprs groupByExprs : list Expression)
    (child : childIter) : groupByGroupingIter :=
  {| giter_selectedExprs := selectedExprs;
     giter_groupByExprs := groupByExprs;
     giter_aggregations := None;
     giter_keys := [];
     giter_pos := 0%nat;
     giter_child := child |}.

(** The part of [compute]'s loop body that registers a key seen for the
    first time: a fresh buffer vector is put in the cache and the key is
    appended to [keys]. *)
Definition registerKey (selectedExprs : list Expression)
    (aggregations : gmap Z (list Row)) (keys : list Z) (key : Z)
    : result (gmap Z (list Row) * list Z) :=
  match cacheGet aggregations key with
  | Ok _ => Ok (aggregations, keys)
  | Fail _ =>
      buf ← fillBuffersFrom 0 (replicate (length selectedExprs) []) selectedExprs;
      aggregations' ← cachePut aggregations key buf;
      Ok (aggregations', keys ++ [key])
  end.

(** [compute]: its error (none when the child reached EOF), and the
    cache, keys and child it leaves.  The buffers got from the cache are
    the cached slice itself, so their update is seen in the cache. *)
Fixpoint compute (selectedExprs groupByExprs : list Expression)
    (aggregations : gmap Z (list Row)) (keys : list Z) (child : childIter)
    : option error * gmap Z (list Row) * list Z * childIter :=
  match child with
  | [] => (None, aggregations, keys, [])
  | NextEOF :: rest => (None, aggregations, keys, rest)
  | NextErr e :: rest => (Some e, aggregations, keys, rest)
  | NextRow row :: rest =>
      match groupingKey groupByExprs row with
      | Fail e => (Some e, aggregations, keys, rest)
      | Ok key =>
          match registerKey selectedExprs aggregations keys key with
          | Fail e => (Some e, aggregations, keys, rest)
          | Ok (aggregations1, keys1) =>
              match cacheGet aggregations1 key with
              | Fail e => (Some e, aggregations1, keys1, rest)
              | Ok b =>
                  match updateBuffers b selectedExprs row with
                  | (b', Some e) =>
                      (Some e, <[key := b']> aggregations1, keys1, rest)
                  | (b', None) =>
                      compute selectedExprs groupByExprs
                        (<[key := b']> aggregations1) keys1 rest
                  end
              end
          end
      end
  end.

(** The second half of [groupByGroupingIter.Next], once the cache exists. *)
Definition emit (i : groupByGroupingIter) (aggregations : gmap Z (list Row))
    : NextResult * groupByGroupingIter :=
  if decide (length (giter_keys i) ≤ giter_pos i)%nat then (NextEOF, i)
  else
    match giter_keys i !! giter_pos i with
    | None => (NextErr indexOutOfRange, i)
    | Some key =>
        match cacheGet aggregations key with
        | Fail e => (NextErr e, i)
        | Ok buffers =>
            let i' := {| giter_selectedExprs := giter_selectedExprs i;
                         giter_groupByExprs := giter_groupByExprs i;
                         giter_aggregations := giter_aggregations i;
                         giter_keys := giter_keys i;
                         giter_pos := S (giter_pos i);
                         giter_child := giter_child i |} in
            match evalBuffers buffers (giter_selectedExprs i) with
            | Ok row => (NextRow row, i')
            | Fail e => (NextErr e, i')
            end
        end
    end.

Definition groupByGroupingIter_Next (i : groupByGroupingIter)
    : NextResult * groupByGroupingIter :=
  match giter_aggregations i with
  | Some aggregations => emit i aggregations
  | None =>
      let '(err, aggregations, keys, child) :=
        compute (giter_selectedExprs i) (giter_groupByExprs i) ∅
                (giter_keys i) (giter_child i) in
      let i' := {| giter_selectedExprs := giter_selectedExprs i;
                   giter_groupByExprs := giter_groupByExprs i;
                   giter_aggregations := Some aggregations;
                   giter_keys := keys;
                   giter_pos := giter_pos i;
                   giter_child := child |} in
      match err with
      | Some e => (NextErr e, i')
      | None => emit i' aggregations
      end
  end.

Definition groupByGroupingIter_Close (i : groupByGroupingIter)
    : groupByGroupingIter :=
  {| giter_selectedExprs := giter_selectedExprs i;
     giter_groupByExprs := giter_groupByExprs i;
     giter_aggregations := None;
     giter_keys := giter_keys i;
     giter_pos := giter_pos i;
     giter_child := giter_child i |}.

(** The interface [sql.RowIter], for the two iterators of this file. *)
Inductive RowIter : Type :=
| IterGroupBy (i : groupByIter)
| IterGrouping (i : groupByGroupingIter).

Definition Next (it : RowIter) : NextResult * RowIter :=
  match it with
  | IterGroupBy i => let '(r, i') := groupByIter_Next i in (r, IterGroupBy i')
  | IterGrouping i =>
      let '(r, i') := groupByGroupingIter_Next i in (r, IterGrouping i')
  end.

(** The results of the first [n] calls of [Next]. *)
Fixpoint nextN (n : nat) (it : RowIter) : list NextResult :=
  match n with
  | O => []
  | S n' => let '(r, it') := Next it in r :: nextN n' it'
  end.

(** *** The node *)

(** The child is any [sql.Node]; of it the node needs its [RowIter]. *)
Context {Node : Type} (Node_RowIter : Node -> result childIter).

Record GroupBy : Type := {
  Child : Node;                      (* UnaryNode.Child *)
  SelectedExprs : list Expression;
  GroupByExprs : list Expression;
}.

Definition NewGroupBy (selectedExprs groupByExprs : list Expression)
    (child : Node) : GroupBy :=
  {| Child := child; SelectedExprs := selectedExprs;
     GroupByExprs := groupByExprs |}.

(** [GroupBy.RowIter].  The tracing span and [sql.NewSpanIter], which
    forwards [Next] to the iterator it wraps, are left out. *)
Definition GroupBy_RowIter (p : GroupBy) : result RowIter :=
  i ← Node_RowIter (Child p);
  if decide (length (GroupByExprs p) = 0%nat)
  then Ok (IterGroupBy (newGroupByIter (SelectedExprs p) i))
  else Ok (IterGrouping
             (newGroupByGroupingIter (SelectedExprs p) (GroupByExprs p) i)).

(** Modelled from the spec: [UnaryNode.Children] (package plan, not in
    this file): the children of a unary node are its one child. *)
Definition GroupBy_Children (p : GroupBy) : list Node := [Child p].

Definition GroupBy_WithChildren (p : GroupBy) (children : list Node)
    : result GroupBy :=
  if decide (length children ≠ 1%nat)
  then Fail (ErrInvalidChildrenNumber (length children) 1)
  else
    match children !! 0%nat with
    | Some c => Ok (NewGroupBy (SelectedExprs p) (GroupByExprs p) c)
    | None => Fail indexOutOfRange
    end.

Definition GroupBy_Expressions (p : GroupBy) : list Expression :=
  SelectedExprs p ++ GroupByExprs p.

(** [dst[i] = exprs[i+offset]] for [i < n], as a list. *)
Fixpoint copyExprs (exprs : list Expression) (offset n : nat) (i : nat)
    : result (list Expression) :=
  match n with
  | O => Ok []
  | S n' =>
      match exprs !! (i + offset)%nat with
      | None => Fail indexOutOfRange
      | Some e => es ← copyExprs exprs offset n' (S i); Ok (e :: es)
      end
  end.

Definition GroupBy_WithExpressions (p : GroupBy) (exprs : list Expression)
    : result GroupBy :=
  let expected := (length (SelectedExprs p) + length (GroupByExprs p))%nat in
  if decide (length exprs ≠ expected)
  then Fail (ErrInvalidChildrenNumber (length exprs) expected)
  else
    agg ← copyExprs exprs 0 (length (SelectedExprs p)) 0;
    grouping ← copyExprs exprs (length (SelectedExprs p))
                 (length (GroupByExprs p)) 0;
    Ok (NewGroupBy agg grouping (Child p)).

End GroupBy.

(** *** The replication statements (package plan) *)

Section Replication.

Record ReplicationOption : Type := {
  Name : string;
  Value : string;
}.

Definition NewReplicationOption (name value : string) : ReplicationOption :=
  {| Name := name; Value := value |}.

Record ChangeReplicationSource : Type := {
  Options : list ReplicationOption;
}.

Definition NewChangeReplicationSource (options : list ReplicationOption)
    : ChangeReplicationSource :=
  {| Options := options |}.

(** [type StartReplica struct{}] and [type StopReplica struct{}]. *)
Inductive StartReplica : Type := NewStartReplica.
Inductive StopReplica : Type := NewStopReplica.

(** The statements take any context, any row, and children of any node
    type; their [RowIter] is declared to return a [sql.RowIter]. *)
Context {Node Context_ Row RowIter : Type}.

Definition replicationNotSupported : error :=
  ErrorString "replication statements not supported".

Definition ChangeReplicationSource_Resolved (c : ChangeReplicationSource) : bool :=
  true.

Definition ChangeReplicationSource_Children (c : ChangeReplicationSource)
    : list Node := [].

Definition ChangeReplicationSource_RowIter (c : ChangeReplicationSource)
    (_ : Context_) (_ : Row) : result RowIter :=
  Fail replicationNotSupported.

Definition ChangeReplicationSource_WithChildren (c : ChangeReplicationSource)
    (children : list Node) : result ChangeReplicationSource :=
  if decide (length children ≠ 0%nat)
  then Fail (ErrInvalidChildrenNumber (length children) 0)
  else let newNode := c in Ok newNode.

Definition StartReplica_Resolved (s : StartReplica) : bool := true.

Definition StartReplica_Children (s : StartReplica) : list Node := [].

Definition StartReplica_RowIter (s : StartReplica)
    (_ : Context_) (_ : Row) : result RowIter :=
  Fail replicationNotSupported.

Definition StartReplica_WithChildren (s : StartReplica)
    (children : list Node) : result StartReplica :=
  if decide (length children ≠ 0%nat)
  then Fail (ErrInvalidChildrenNumber (length children) 0)
  else let newNode := s in Ok newNode.

Definition StopReplica_Resolved (s : StopReplica) : bool := true.

Definition StopReplica_Children (s : StopReplica) : list Node := [].

Definition StopReplica_RowIter (s : StopReplica)
    (_ : Context_) (_ : Row) : result RowIter :=
  Fail replicationNotSupported.

Definition StopReplica_WithChildren (s : StopReplica)
    (children : list Node) : result StopReplica :=
  if decide (length children ≠ 0%nat)
  then Fail (ErrInvalidChildrenNumber (length children) 0)
  else let newNode := s in Ok newNode.

End Replication.

(** *** [GroupBy.Schema] *)

Section GroupBySchema.

(** The other methods of [sql.Expression] that [Schema] calls, taken as
    parameters: [e.(sql.Nameable)] with its [Name()], [e.String()],
    [e.(sql.Tableable)] with its [Table()], [e.Type()], [e.IsNullable()]. *)
Context {Value Node SqlType : Type}
        (exprName : Expression (Value:=Value) -> option string)
        (exprString : Expression (Value:=Value) -> string)
        (exprTable : Expression (Value:=Value) -> option string)
        (exprType : Expression (Value:=Value) -> SqlType)
        (exprIsNullable : Expression (Value:=Value) -> bool).

(** The fields of [sql.Column] that [Schema] sets. *)
Record Column : Type := {
  Column_Name : string;
  Column_Type : SqlType;
  Column_Nullable : bool;
  Column_Source : string;
}.

(** [s[i] = &sql.Column{...}] for each selected expression, in order. *)
Definition GroupBy_Schema (p : GroupBy (Value:=Value) (Node:=Node))
    : list Column :=
  map (fun e =>
         let name := match exprName e with
                     | Some n => n
                     | None => exprString e
                     end in
         let table := match exprTable e with
                      | Some t => t
                      | None => ""
                      end in
         {| Column_Name := name; Column_Type := exprType e;
            Column_Nullable := exprIsNullable e; Column_Source := table |})
      (SelectedExprs p).

End GroupBySchema.

(** *** [ChangeReplicationSource.String] *)

(** The [for] loop over the options, writing to the [strings.Builder]
    whose contents are [sb]; [i] is the index of the first option left. *)
Fixpoint writeOptions (i : nat) (sb : string) (options : list ReplicationOption)
    : string :=
  match options with
  | [] => sb
  | opt :: rest =>
      let sb1 := if decide (0 < i)%nat then String.append sb ", " else sb in
      let sb2 := String.append sb1 (Name opt) in
      let sb3 := String.append sb2 " = " in
      let sb4 := String.append sb3 (Value opt) in
      writeOptions (S i) sb4 rest
  end.

Definition ChangeReplicationSource_String (c : ChangeReplicationSource) : string :=
  writeOptions 0 "CHANGE REPLICATION SOURCE TO " (Options c).

Definition StartReplica_String (s : StartReplica) : string := "START REPLICA".

Definition StopReplica_String (s : StopReplica) : string := "STOP REPLICA".

(** *** jointype_string.go *)







End plan.

(** ** Package [analyzer]: resolve_generators.go *)

Module analyzer.

Section Generators.

(** [sql.Type] (package sql, not in this file) with the three things the
    rule asks of it: [sql.IsArray], [sql.UnderlyingType], and its
    rendering in an error message. *)
Context {SqlType : Type}
        (IsArray : SqlType -> bool)
        (UnderlyingType : SqlType -> SqlType)
        (typeString : SqlType -> string).

(** The expressions the rule tells apart or builds; [OtherExpr] is any
    other [sql.Expression], given by its type, its [String()] and its
    nullability. *)
Inductive Expression : Type :=
| Explode (Child : Expression)                 (* *function.Explode *)
| Generate (Child : Expression)                (* *function.Generate *)
| Alias (name : string) (Child : Expression)   (* *expression.Alias *)
| GetField (fieldIndex : Z) (fieldType : SqlType) (name : string)
           (nullable : bool)                   (* *expression.GetField *)
| OtherExpr (typ : SqlType) (str : string) (nullable : bool).

(** Modelled from the spec: the methods [Type], [String], [IsNullable]
    and [Name] of these expressions (packages expression and function,
    not in this file).  A Generate has the type of its argument (the
    error of [findGenerator] reports it as the "argument of type ...
    given to EXPLODE"); an Explode has the element type ("a synthetic
    column of the element type"); an alias has the type of what it
    names. *)
Fixpoint Type_ (e : Expression) : SqlType :=
  match e with
  | Explode c => UnderlyingType (Type_ c)
  | Generate c => Type_ c
  | Alias _ c => Type_ c
  | GetField _ t _ _ => t
  | OtherExpr t _ _ => t
  end.

Fixpoint String_ (e : Expression) : string :=
  match e with
  | Explode c => String.append "EXPLODE(" (String.append (String_ c) ")")
  | Generate c => String.append "EXPLODE(" (String.append (String_ c) ")")
  | Alias name c => String.append (String_ c) (String.append " as " name)
  | GetField _ _ name _ => name
  | OtherExpr _ s _ => s
  end.

Fixpoint IsNullable (e : Expression) : bool :=
  match e with
  | Explode c => IsNullable c
  | Generate c => IsNullable c
  | Alias _ c => IsNullable c
  | GetField _ _ _ nullable => nullable
  | OtherExpr _ _ nullable => nullable
  end.

(** [e.(sql.Nameable)]: aliases and field references have a name. *)
Definition asNameable (e : Expression) : option string :=
  match e with
  | Alias name _ => Some name
  | GetField _ _ name _ => Some name
  | _ => None
  end.

(** The plan nodes the rule meets: projections, the Generate node it
    builds, and any other node (unary or leaf). *)
Inductive Node : Type :=
| Project (Projections : list Expression) (Child : Node)   (* *plan.Project *)
| NodeGenerate (Child : Node) (Column : Expression)        (* *plan.Generate *)
| NodeUnary (name : string) (Child : Node)
| NodeLeaf (name : string).

Record generator : Type := {
  idx : Z;
  expr : option Expression;   (* nil until a generator is found *)
}.

(** The [switch] of [findGenerator]: whether [e] is an EXPLODE, alone or
    directly under an alias, and the expression that replaces it. *)
Definition generatorOf (e : Expression) : option Expression :=
  match e with
  | Explode c => Some (Generate c)
  | Alias name (Explode c) => Some (Alias name (Generate c))
  | _ => None
  end.

(** [for i, e := range exprs], from index [i] on. *)
Fixpoint findGeneratorFrom (i : nat) (g : generator)
    (exprs : list Expression) : result generator :=
  match exprs with
  | [] => Ok g
  | e :: rest =>
      match generatorOf e with
      | Some ge =>
          (* found: g.expr has been assigned *)
          if decide (0 ≤ idx g)%Z then Fail errMultipleGenerators
          else if negb (IsArray (Type_ ge))
          then Fail (errExplodeNotArray (typeString (Type_ ge)))
          else findGeneratorFrom (S i)
                 {| idx := Z.of_nat i; expr := Some ge |} rest
      | None => findGeneratorFrom (S i) g rest
      end
  end.

Definition findGenerator (exprs : list Expression)
    : result (option generator) :=
  g ← findGeneratorFrom 0 {| idx := -1; expr := None |} exprs;
  match expr g with
  | None => Ok None
  | Some _ => Ok (Some g)
  end.

(** The function [resolveGenerators] hands to [plan.TransformUp].
    [projection[g.idx] = g.expr] writes into the slice of the node it was
    given; the result holds the updated slice. *)
Definition resolveGeneratorsNode (n : Node) : result Node :=
  match n with
  | Project projection child =>
      g ← findGenerator projection;
      match g with
      | None => Ok n
      | Some g =>
          match expr g with
          | None => Fail (RuntimePanic "nil pointer dereference")
          | Some gexpr =>
              if decide (Z.to_nat (idx g) < length projection)%nat then
                let projection' := <[Z.to_nat (idx g) := gexpr]> projection in
                let name :=
                  match asNameable gexpr with
                  | Some n => n
                  | None => String_ gexpr
                  end in
                Ok (NodeGenerate
                      (Project projection' child)
                      (GetField (idx g) (Type_ gexpr) name (IsNullable gexpr)))
              else Fail (RuntimePanic "index out of range")
          end
      end
  | _ => Ok n
  end.

(** Modelled from the spec: [plan.TransformUp] (package plan, not in this
    file), the "transform-up" traversal: the children are rewritten first,
    then the node built from them. *)
Fixpoint TransformUp (n : Node) (f : Node -> result Node) : result Node :=
  match n with
  | Project ps c => c' ← TransformUp c f; f (Project ps c')
  | NodeGenerate c col => c' ← TransformUp c f; f (NodeGenerate c' col)
  | NodeUnary name c => c' ← TransformUp c f; f (NodeUnary name c')
  | NodeLeaf _ => f n
  end.

Definition resolveGenerators (n : Node) : result Node :=
  TransformUp n resolveGeneratorsNode.

End Generators.

End analyzer.

(** ** Package [function]: date.go *)

Module function.

Section Date.

(** A Go [interface{}] value is nil ([None]) or a value of [V].  The
    types and functions of packages sql, expression and time that date.go
    uses are parameters: [sql.Datetime.Convert] (of a non-nil value, to a
    [time.Time]), [sql.ValidateTime], [sql.Float64.Convert],
    [time.Time.Unix], the [Add] and [Sub] of a time delta, the
    [EvalDelta] and [Eval] of [*expression.Interval], the clock functions
    with [defaultClock], and the error kind [sql.ErrInvalidArgumentNumber]. *)
Context {V Time Delta Interval Clock Row : Type}
        (DatetimeConvert : V -> result Time)
        (ValidateTime : Time -> option V)
        (Float64Convert : Z -> result (option V))
        (Unix : Time -> Z)
        (deltaAdd deltaSub : Delta -> Time -> Time)
        (EvalDelta : Interval -> Row -> result (option Delta))
        (IntervalEval : Interval -> Row -> result (option V))
        (runClock : Clock -> Time)
        (defaultClock : Clock)
        (ErrInvalidArgumentNumber : string -> nat -> nat -> error).

(** The expressions of this file, intervals, and any other expression
    (given by its [Eval]). *)
Inductive Expression : Type :=
| ExprInterval (i : Interval)                          (* *expression.Interval *)
| DateAdd (Date : Expression) (Interval_ : Interval)
| DateSub (Date : Expression) (Interval_ : Interval)
| UnixTimestamp (clock : Clock) (Date : option Expression)
| ExprOther (eval : Row -> result (option V)).

Definition NewDateAdd (args : list Expression) : result Expression :=
  if decide (length args ≠ 2%nat)
  then Fail (ErrInvalidArgumentNumber "DATE_ADD" 2 (length args))
  else
    match args !! 1%nat, args !! 0%nat with
    | Some (ExprInterval i), Some date => Ok (DateAdd date i)
    | Some _, Some _ =>
        Fail (ErrorString "DATE_ADD expects an interval as second parameter")
    | _, _ => Fail (RuntimePanic "index out of range")
    end.

Definition NewDateSub (args : list Expression) : result Expression :=
  if decide (length args ≠ 2%nat)
  then Fail (ErrInvalidArgumentNumber "DATE_SUB" 2 (length args))
  else
    match args !! 1%nat, args !! 0%nat with
    | Some (ExprInterval i), Some date => Ok (DateSub date i)
    | Some _, Some _ =>
        Fail (ErrorString "DATE_SUB expects an interval as second parameter")
    | _, _ => Fail (RuntimePanic "index out of range")
    end.

Definition NewUnixTimestamp (args : list Expression) : result Expression :=
  if decide (1 < length args)%nat
  then Fail (ErrInvalidArgumentNumber "UNIX_TIMESTAMP" 1 (length args))
  else if decide (length args = 0%nat)
  then Ok (UnixTimestamp defaultClock None)
  else
    match args !! 0%nat with
    | Some date => Ok (UnixTimestamp defaultClock (Some date))
    | None => Fail (RuntimePanic "index out of range")
    end.

(** [Children], for the three functions of this file. *)
Definition DateAdd_Children (date : Expression) (interval : Interval)
    : list Expression :=
  [date; ExprInterval interval].

Definition DateSub_Children (date : Expression) (interval : Interval)
    : list Expression :=
  [date; ExprInterval interval].

Definition UnixTimestamp_Children (date : option Expression)
    : list Expression :=
  match date with
  | Some d => [d]
  | None => []
  end.

(** [WithChildren]: each calls its constructor. *)
Definition DateAdd_WithChildren (date : Expression) (interval : Interval)
    (children : list Expression) : result Expression :=
  NewDateAdd children.

Definition DateSub_WithChildren (date : Expression) (interval : Interval)
    (children : list Expression) : result Expression :=
  NewDateSub children.

Definition UnixTimestamp_WithChildren (clock : Clock) (date : option Expression)
    (children : list Expression) : result Expression :=
  NewUnixTimestamp children.

(** The body shared by [DateAdd.Eval] and [DateSub.Eval], from the
    evaluated date on; [apply] is [delta.Add] or [delta.Sub]. *)
Definition evalDateArith (apply : Delta -> Time -> Time)
    (date : result (option V)) (interval : Interval) (row : Row)
    : result (option V) :=
  match date with
  | Fail err => Fail err
  | Ok None => Ok None
  | Ok (Some dv) =>
      match DatetimeConvert dv with
      | Fail err => Fail err
      | Ok t =>
          match EvalDelta interval row with
          | Fail err => Fail err
          | Ok None => Ok None
          | Ok (Some delta) => Ok (ValidateTime (apply delta t))
          end
      end
  end.

Fixpoint Eval (e : Expression) (row : Row) : result (option V) :=
  match e with
  | ExprInterval i => IntervalEval i row
  | DateAdd date interval => evalDateArith deltaAdd (Eval date row) interval row
  | DateSub date interval => evalDateArith deltaSub (Eval date row) interval row
  | UnixTimestamp clock None => Float64Convert (Unix (runClock clock))
  | UnixTimestamp clock (Some date) =>
      match Eval date row with
      | Fail err => Fail err
      | Ok None => Ok None
      | Ok (Some dv) =>
          match DatetimeConvert dv with
          | Fail err => Fail err
          | Ok t => Float64Convert (Unix t)
          end
      end
  | ExprOther f => f row
  end.

(** [IsNullable] of the three functions. *)
Definition DateAdd_IsNullable (date : Expression) (interval : Interval) : bool :=
  true.

Definition DateSub_IsNullable (date : Expression) (interval : Interval) : bool :=
  true.

Definition UnixTimestamp_IsNullable (clock : Clock) (date : option Expression)
    : bool :=
  true.

End Date.

End function.

(** ** Package [sqle]: processlist.go *)

Module sqle.

(** *** The types of package sql the process list works on

    A Go map is a reference: a field of map type holds [None] (the nil
    map) or the address of a map object in the store. *)

(** Modelled from the spec: [sql.ProcessCommand] (package sql, not in this
    file): "command ∈ {connect, sleep, query}". *)
Inductive ProcessCommand : Type :=
| ProcessCommandConnect
| ProcessCommandSleep
| ProcessCommandQuery.

#[global] Instance ProcessCommand_eq_dec : EqDecision ProcessCommand.
Proof. solve_decision. Defined.

(** Modelled from the spec: [sql.Progress], [sql.PartitionProgress] and
    [sql.TableProgress] (package sql, not in this file), with the fields
    processlist.go and the tests of this repository use: "Progress per
    table: {done, total-partitions, per-partition {done, total-rows}}". *)
Record Progress : Type := {
  Name : string;
  Done : Z;    (* int64 *)
  Total : Z;   (* int64 *)
}.

Record PartitionProgress : Type := {
  PartitionProgress_Progress : Progress;
}.

Record TableProgress : Type := {
  TableProgress_Progress : Progress;
  PartitionsProgress : option positive;  (* map[string]PartitionProgress *)
}.

(** Modelled from the spec: [sql.Process] (package sql, not in this
    file): "{connection id, query pid, command, query text, started-at,
    kill-callback, progress map}", with the host and user fields that
    processlist.go sets. *)
Record Process : Type := {
  Connection : N;                      (* uint32 *)
  Host : string;
  User : string;
  Command : ProcessCommand;
  Query : string;
  QueryPid : N;                        (* uint64 *)
  StartedAt : Z;                       (* time.Time *)
  Kill : option positive;              (* context.CancelFunc, nil = None *)
  Process_Progress : option positive;  (* map[string]TableProgress *)
}.

(** The client of a session and the part of [sql.Context] used here. *)
Record Session : Type := {
  ID : N;
  Address : string;      (* sess.Client().Address *)
  ClientUser : string;   (* sess.Client().User *)
}.

Record Context : Type := {
  ctx_Session : Session;
  Pid : N;
  cancelScopes : list positive;  (* the cancel funcs this context is under *)
}.

(** The process list ([procs], [byQueryPid]) and the part of the Go heap
    it shares with its callers: the progress maps, by address, and the
    cancel funcs already called.  [procs] holds [*sql.Process]; no other
    pointer to these structs exists, so they are kept by value. *)
Record World : Type := {
  procs : gmap N Process;
  byQueryPid : gmap N N;
  tableMaps : gmap positive (gmap string TableProgress);
  partitionMaps : gmap positive (gmap string PartitionProgress);
  cancelled : gset positive;
  nextRef : positive;
}.

Definition NewProcessList : World :=
  {| procs := ∅; byQueryPid := ∅; tableMaps := ∅; partitionMaps := ∅;
     cancelled := ∅; nextRef := 1%positive |}.

Definition setProcs (w : World) (ps : gmap N Process) : World :=
  {| procs := ps; byQueryPid := byQueryPid w; tableMaps := tableMaps w;
     partitionMaps := partitionMaps w; cancelled := cancelled w;
     nextRef := nextRef w |}.

Definition setByQueryPid (w : World) (m : gmap N N) : World :=
  {| procs := procs w; byQueryPid := m; tableMaps := tableMaps w;
     partitionMaps := partitionMaps w; cancelled := cancelled w;
     nextRef := nextRef w |}.

(** [make(map[string]sql.TableProgress)] *)
Definition makeTableMap (w : World) : positive * World :=
  (nextRef w,
   {| procs := procs w; byQueryPid := byQueryPid w;
      tableMaps := <[nextRef w := ∅]> (tableMaps w);
      partitionMaps := partitionMaps w; cancelled := cancelled w;
      nextRef := Pos.succ (nextRef w) |}).

(** [make(map[string]sql.PartitionProgress)] *)
Definition makePartitionMap (w : World) : positive * World :=
  (nextRef w,
   {| procs := procs w; byQueryPid := byQueryPid w;
      tableMaps := tableMaps w;
      partitionMaps := <[nextRef w := ∅]> (partitionMaps w);
      cancelled := cancelled w;
      nextRef := Pos.succ (nextRef w) |}).

(** [context.WithCancel]: a new cancel func. *)
Definition withCancel (w : World) : positive * World :=
  (nextRef w,
   {| procs := procs w; byQueryPid := byQueryPid w;
      tableMaps := tableMaps w; partitionMaps := partitionMaps w;
      cancelled := cancelled w; nextRef := Pos.succ (nextRef w) |}).

(** Calling a cancel func. *)
Definition cancel (w : World) (k : positive) : World :=
  {| procs := procs w; byQueryPid := byQueryPid w;
     tableMaps := tableMaps w; partitionMaps := partitionMaps w;
     cancelled := {[k]} ∪ cancelled w; nextRef := nextRef w |}.

(** Reading a map: the nil map reads as the empty map. *)
Definition tableMapOf (w : World) (m : option positive)
    : gmap string TableProgress :=
  match m with
  | None => ∅
  | Some r => default ∅ (tableMaps w !! r)
  end.

Definition partitionMapOf (w : World) (m : option positive)
    : gmap string PartitionProgress :=
  match m with
  | None => ∅
  | Some r => default ∅ (partitionMaps w !! r)
  end.

Definition nilMapWrite : error := RuntimePanic "assignment to entry in nil map".

(** [m[name] = v]: panics on the nil map. *)
Definition tableMapStore (w : World) (m : option positive) (name : string)
    (v : TableProgress) : result World :=
  match m with
  | None => Fail nilMapWrite
  | Some r =>
      Ok {| procs := procs w; byQueryPid := byQueryPid w;
            tableMaps := <[r := <[name := v]> (tableMapOf w m)]> (tableMaps w);
            partitionMaps := partitionMaps w; cancelled := cancelled w;
            nextRef := nextRef w |}
  end.

Definition partitionMapStore (w : World) (m : option positive) (name : string)
    (v : PartitionProgress) : result World :=
  match m with
  | None => Fail nilMapWrite
  | Some r =>
      Ok {| procs := procs w; byQueryPid := byQueryPid w;
            tableMaps := tableMaps w;
            partitionMaps :=
              <[r := <[name := v]> (partitionMapOf w m)]> (partitionMaps w);
            cancelled := cancelled w; nextRef := nextRef w |}
  end.

(** [delete(m, name)]: nothing on the nil map. *)
Definition tableMapDelete (w : World) (m : option positive) (name : string)
    : World :=
  match m with
  | None => w
  | Some r =>
      {| procs := procs w; byQueryPid := byQueryPid w;
         tableMaps := <[r := delete name (tableMapOf w m)]> (tableMaps w);
         partitionMaps := partitionMaps w; cancelled := cancelled w;
         nextRef := nextRef w |}
  end.

Definition partitionMapDelete (w : World) (m : option positive)
    (name : string) : World :=
  match m with
  | None => w
  | Some r =>
      {| procs := procs w; byQueryPid := byQueryPid w;
         tableMaps := tableMaps w;
         partitionMaps :=
           <[r := delete name (partitionMapOf w m)]> (partitionMaps w);
         cancelled := cancelled w; nextRef := nextRef w |}
  end.

(** int64 addition wraps around. *)
Definition wrapInt64 (z : Z) : Z := (z + 2 ^ 63) mod 2 ^ 64 - 2 ^ 63.

Definition addDone (p : Progress) (delta : Z) : Progress :=
  {| Name := Name p; Done := wrapInt64 (Done p + delta); Total := Total p |}.

Definition setTotal (p : Progress) (total : Z) : Progress :=
  {| Name := Name p; Done := Done p; Total := total |}.

(** Modelled from the spec: [sql.NewTableProgress(name, total)] (package
    sql, not in this file).  The tests of this repository expect of it
    [Done: 0] and an empty, non-nil [PartitionsProgress]. *)
Definition NewTableProgress (w : World) (name : string) (total : Z)
    : TableProgress * World :=
  let '(r, w') := makePartitionMap w in
  ({| TableProgress_Progress := {| Name := name; Done := 0; Total := total |};
      PartitionsProgress := Some r |}, w').

(** *** The operations.  The mutex is held during each of them: they are
    atomic steps on the world.  [now] is what [time.Now()] returns. *)

(** [Processes]: each process struct is copied ([p := *proc]); a new map
    [progress] receives the entries of [p.Progress], and [p] is appended
    as it was copied.  Go ranges over a map in no fixed order; the model
    lists the processes by connection id. *)
Definition Processes (w : World) : list Process :=
  map (fun entry : N * Process =>
         let p := snd entry in
         let progress : gmap string TableProgress :=
           tableMapOf w (Process_Progress p) in
         p)
      (map_to_list (procs w)).

Definition AddConnection (w : World) (id : N) (addr : string) (now : Z)
    : World :=
  setProcs w
    (<[id := {| Connection := id; Host := addr;
                User := "unauthenticated user";
                Command := ProcessCommandConnect;
                Query := ""; QueryPid := 0%N; StartedAt := now;
                Kill := None; Process_Progress := None |}]> (procs w)).

Definition ConnectionReady (w : World) (sess : Session) (now : Z) : World :=
  setProcs w
    (<[ID sess := {| Connection := ID sess; Host := Address sess;
                     User := ClientUser sess;
                     Command := ProcessCommandSleep;
                     Query := ""; QueryPid := 0%N; StartedAt := now;
                     Kill := None; Process_Progress := None |}]> (procs w)).

Definition RemoveConnection (w : World) (connID : N) : World :=
  match procs w !! connID with
  | None => w
  | Some p =>
      let w1 := match Kill p with
                | Some k => cancel w k
                | None => w
                end in
      let w2 := setByQueryPid w1 (delete (QueryPid p) (byQueryPid w1)) in
      setProcs w2 (delete connID (procs w2))
  end.

(** [BeginQuery]: on success the new context and the world; an error
    leaves the world as it was. *)
Definition BeginQuery (w : World) (ctx : Context) (query : string) (now : Z)
    : result (Context * World) :=
  let id := ID (ctx_Session ctx) in
  let pid := Pid ctx in
  match procs w !! id with
  | None =>
      Fail (ErrorString
              "internal error: connection not registered with process list")
  | Some p =>
      match byQueryPid w !! pid with
      | Some _ => Fail (ErrPidAlreadyUsed pid)
      | None =>
          let '(k, w1) := withCancel w in
          let ctx' := {| ctx_Session := ctx_Session ctx; Pid := Pid ctx;
                         cancelScopes := k :: cancelScopes ctx |} in
          let '(m, w2) := makeTableMap w1 in
          let p' := {| Connection := Connection p; Host := Host p;
                       User := User p;
                       Command := ProcessCommandQuery;
                       Query := query; QueryPid := pid; StartedAt := now;
                       Kill := Some k; Process_Progress := Some m |} in
          let w3 := setProcs w2 (<[id := p']> (procs w2)) in
          Ok (ctx',
              setByQueryPid w3
                (<[Pid ctx' := ID (ctx_Session ctx')]> (byQueryPid w3)))
      end
  end.

(** [EndQuery]: calling a nil [p.Kill] panics. *)
Definition EndQuery (w : World) (ctx : Context) (now : Z) : result World :=
  let id := ID (ctx_Session ctx) in
  let pid := Pid ctx in
  let w1 := setByQueryPid w (delete pid (byQueryPid w)) in
  match procs w1 !! id with
  | None => Ok w1
  | Some p =>
      if decide (QueryPid p = pid) then
        match Kill p with
        | None => Fail (RuntimePanic "call of nil func")
        | Some k =>
            let w2 := cancel w1 k in
            Ok (setProcs w2
                  (<[id := {| Connection := Connection p; Host := Host p;
                              User := User p;
                              Command := ProcessCommandSleep;
                              Query := ""; QueryPid := 0%N; StartedAt := now;
                              Kill := None; Process_Progress := None |}]>
                     (procs w2)))
        end
      else Ok w1
  end.

(** The two lookups every progress operation starts with. *)
Definition processOfPid (w : World) (pid : N) : option Process :=
  match byQueryPid w !! pid with
  | None => None
  | Some id => procs w !! id
  end.

Definition UpdateTableProgress (w : World) (pid : N) (name : string)
    (delta : Z) : result World :=
  match processOfPid w pid with
  | None => Ok w
  | Some p =>
      let '(progress, w1) :=
        match tableMapOf w (Process_Progress p) !! name with
        | Some progress => (progress, w)
        | None => NewTableProgress w name (-1)
        end in
      let progress' :=
        {| TableProgress_Progress := addDone (TableProgress_Progress progress) delta;
           PartitionsProgress := PartitionsProgress progress |} in
      tableMapStore w1 (Process_Progress p) name progress'
  end.

Definition UpdatePartitionProgress (w : World) (pid : N)
    (tableName partitionName : string) (delta : Z) : result World :=
  match processOfPid w pid with
  | None => Ok w
  | Some p =>
      match tableMapOf w (Process_Progress p) !! tableName with
      | None => Ok w
      | Some tablePg =>
          let partitionPg :=
            match partitionMapOf w (PartitionsProgress tablePg) !! partitionName with
            | Some pg => pg
            | None =>
                {| PartitionProgress_Progress :=
                     {| Name := partitionName; Done := 0; Total := -1 |} |}
            end in
          partitionMapStore w (PartitionsProgress tablePg) partitionName
            {| PartitionProgress_Progress :=
                 addDone (PartitionProgress_Progress partitionPg) delta |}
      end
  end.

Definition AddTableProgress (w : World) (pid : N) (name : string)
    (total : Z) : result World :=
  match processOfPid w pid with
  | None => Ok w
  | Some p =>
      match tableMapOf w (Process_Progress p) !! name with
      | Some pg =>
          tableMapStore w (Process_Progress p) name
            {| TableProgress_Progress := setTotal (TableProgress_Progress pg) total;
               PartitionsProgress := PartitionsProgress pg |}
      | None =>
          let '(pg, w1) := NewTableProgress w name total in
          tableMapStore w1 (Process_Progress p) name pg
      end
  end.

Definition AddPartitionProgress (w : World) (pid : N)
    (tableName partitionName : string) (total : Z) : result World :=
  match processOfPid w pid with
  | None => Ok w
  | Some p =>
      match tableMapOf w (Process_Progress p) !! tableName with
      | None => Ok w
      | Some tablePg =>
          match partitionMapOf w (PartitionsProgress tablePg) !! partitionName with
          | Some pg =>
              partitionMapStore w (PartitionsProgress tablePg) partitionName
                {| PartitionProgress_Progress :=
                     setTotal (PartitionProgress_Progress pg) total |}
          | None =>
              partitionMapStore w (PartitionsProgress tablePg) partitionName
                {| PartitionProgress_Progress :=
                     {| Name := partitionName; Done := 0; Total := total |} |}
          end
      end
  end.

Definition RemoveTableProgress (w : World) (pid : N) (name : string)
    : result World :=
  match processOfPid w pid with
  | None => Ok w
  | Some p => Ok (tableMapDelete w (Process_Progress p) name)
  end.

Definition RemovePartitionProgress (w : World) (pid : N)
    (tableName partitionName : string) : result World :=
  match processOfPid w pid with
  | None => Ok w
  | Some p =>
      match tableMapOf w (Process_Progress p) !! tableName with
      | None => Ok w
      | Some tablePg =>
          Ok (partitionMapDelete w (PartitionsProgress tablePg) partitionName)
      end
  end.

(** [ProcessList.Kill] (named [Kill_] beside the field [Kill]): the
    process list keeps its entries; the query's context is cancelled (the
    log line is left out). *)
Definition Kill_ (w : World) (connID : N) : World :=
  match procs w !! connID with
  | None => w
  | Some p =>
      match Kill p with
      | Some k => cancel w k
      | None => w
      end
  end.

(** *** What a caller sees through a [sql.Process] value it holds: the
    tables of its progress map with their partitions, read in the
    current store. *)
Record TableProgressView : Type := {
  view_Progress : Progress;
  view_Partitions : gmap string PartitionProgress;
}.

Definition progressOf (w : World) (p : Process)
    : gmap string TableProgressView :=
  (fun tp => {| view_Progress := TableProgress_Progress tp;
                view_Partitions := partitionMapOf w (PartitionsProgress tp) |})
    <$> tableMapOf w (Process_Progress p).

(** The connections whose command is not sleep. *)
Definition nonSleepConnections (w : World) : nat :=
  length (filter (fun p => Command p ≠ ProcessCommandSleep)
                 (snd <$> map_to_list (procs w))).

End sqle.

(** * Specification-level definitions *)

#[global] Instance error_eq_dec : EqDecision error.
Proof. solve_decision. Defined.

#[global] Instance result_eq_dec `{EqDecision A} : EqDecision (result A).
Proof. solve_decision. Defined.

Section GroupingSpec.
Context `{GoValue Value}.

(** The distinct keys of [ks], each at the place of its first appearance. *)
Fixpoint firstAppearance (ks : list Z) : list Z :=
  match ks with
  | [] => []
  | k :: rest => k :: filter (fun k' => k' ≠ k) (firstAppearance rest)
  end.

(** The input rows whose grouping key is [k], in input order. *)
Definition rowsOfKey (groupByExprs : list (plan.Expression (Value:=Value)))
    (k : Z) (rows : list plan.Row) : list plan.Row :=
  filter (fun row => plan.groupingKey groupByExprs row = Ok k) rows.

(** Feeding [rows], in order, to a vector of buffers. *)
Fixpoint accumulate (selectedExprs : list plan.Expression)
    (buffers : list plan.Row) (rows : list plan.Row)
    : result (list (plan.Row (Value:=Value))) :=
  match rows with
  | [] => Ok buffers
  | row :: rest =>
      match plan.updateBuffers buffers selectedExprs row with
      | (buffers', None) => accumulate selectedExprs buffers' rest
      | (_, Some e) => Fail e
      end
  end.

(** The output row of one group: fresh buffers, fed the rows of the
    group, then evaluated. *)
Definition groupResult (selectedExprs : list plan.Expression)
    (rows : list plan.Row) : result (plan.Row (Value:=Value)) :=
  buffers ← accumulate selectedExprs (map plan.fillBuffer selectedExprs) rows;
  plan.evalBuffers buffers selectedExprs.

(** What [Next] gives for the result of an evaluation. *)
Definition nextOf (r : result (plan.Row (Value:=Value))) : plan.NextResult :=
  match r with
  | Ok row => plan.NextRow row
  | Fail e => plan.NextErr e
  end.

(** The value of a selected expression when no row was read: an
    aggregation (also under aliases) is evaluated over its new buffer;
    any other expression was never evaluated, and gives NULL. *)
Fixpoint valueOverNoRows (e : plan.Expression) : result Value :=
  match e with
  | plan.ExprAggregation a => plan.AggEval a (plan.NewBuffer a)
  | plan.ExprAlias _ c => valueOverNoRows c
  | plan.ExprOther _ => Ok nilValue
  end.

(** The selected expressions an iterator works with. *)
Definition selectedOf (it : plan.RowIter (Value:=Value))
    : list plan.Expression :=
  match it with
  | plan.IterGroupBy i => plan.iter_selectedExprs i
  | plan.IterGrouping i => plan.giter_selectedExprs i
  end.

End GroupingSpec.

Section GeneratorSpec.
Context {SqlType : Type}.

(** The argument of an EXPLODE that stands in a projection alone or
    directly under an alias. *)
Definition explodeArgument (e : analyzer.Expression (SqlType:=SqlType))
    : option analyzer.Expression :=
  match e with
  | analyzer.Explode c => Some c
  | analyzer.Alias _ (analyzer.Explode c) => Some c
  | _ => None
  end.

(** The same expression with Generate in the place of that EXPLODE. *)
Definition lifted (e : analyzer.Expression (SqlType:=SqlType))
    : analyzer.Expression :=
  match e with
  | analyzer.Explode c => analyzer.Generate c
  | analyzer.Alias name (analyzer.Explode c) =>
      analyzer.Alias name (analyzer.Generate c)
  | _ => e
  end.

(** The name of the generated column: the alias, or else the text of the
    expression. *)
Definition columnName (e : analyzer.Expression (SqlType:=SqlType)) : string :=
  match analyzer.asNameable e with
  | Some n => n
  | None => analyzer.String_ e
  end.


End GeneratorSpec.

(** [ctx.Err() != nil]: one of the cancel funcs the context is under has
    been called. *)
Definition contextCancelled (w : sqle.World) (ctx : sqle.Context) : Prop :=
  exists k, k ∈ sqle.cancelScopes ctx /\ k ∈ sqle.cancelled w.

(** A pid is bound to a live query when the pid table sends it to a
    process that runs a query, and that query is the one of this pid. *)
Definition boundToLiveQuery (w : sqle.World) (pid : N) : bool :=
  match sqle.processOfPid w pid with
  | Some p =>
      bool_decide (sqle.Command p = sqle.ProcessCommandQuery)
      && bool_decide (sqle.QueryPid p = pid)
  | None => false
  end.

(** The guard of the progress operations: the pid table has no entry for
    the pid, or the connection of the entry has no process. *)
Definition unboundPid (w : sqle.World) (pid : N) : Prop :=
  sqle.byQueryPid w !! pid = None
  \/ exists id, sqle.byQueryPid w !! pid = Some id
                /\ sqle.procs w !! id = None.

(** The pid table sends the pid to a process that has no progress map. *)
Definition idlePid (w : sqle.World) (pid : N) : Prop :=
  exists id p, sqle.byQueryPid w !! pid = Some id
               /\ sqle.procs w !! id = Some p
               /\ sqle.Process_Progress p = None.

(** One call of an operation of the process list that returns normally
    ([Processes] reads only). *)
Inductive plStep (w : sqle.World) : sqle.World -> Prop :=
| step_AddConnection id addr now :
    plStep w (sqle.AddConnection w id addr now)
| step_ConnectionReady sess now :
    plStep w (sqle.ConnectionReady w sess now)
| step_RemoveConnection connID :
    plStep w (sqle.RemoveConnection w connID)
| step_BeginQuery ctx query now ctx' w' :
    sqle.BeginQuery w ctx query now = Ok (ctx', w') -> plStep w w'
| step_EndQuery ctx now w' :
    sqle.EndQuery w ctx now = Ok w' -> plStep w w'
| step_UpdateTableProgress pid name delta w' :
    sqle.UpdateTableProgress w pid name delta = Ok w' -> plStep w w'
| step_UpdatePartitionProgress pid tableName partitionName delta w' :
    sqle.UpdatePartitionProgress w pid tableName partitionName delta = Ok w' ->
    plStep w w'
| step_AddTableProgress pid name total w' :
    sqle.AddTableProgress w pid name total = Ok w' -> plStep w w'
| step_AddPartitionProgress pid tableName partitionName total w' :
    sqle.AddPartitionProgress w pid tableName partitionName total = Ok w' ->
    plStep w w'
| step_RemoveTableProgress pid name w' :
    sqle.RemoveTableProgress w pid name = Ok w' -> plStep w w'
| step_RemovePartitionProgress pid tableName partitionName w' :
    sqle.RemovePartitionProgress w pid tableName partitionName = Ok w' ->
    plStep w w'
| step_Kill connID :
    plStep w (sqle.Kill_ w connID).

(** The states a process list can be in, starting from [NewProcessList]. *)
Inductive reachable : sqle.World -> Prop :=
| reachable_new : reachable sqle.NewProcessList
| reachable_step w w' : reachable w -> plStep w w' -> reachable w'.

(** What the states of a process list have in common. *)
Record consistent (w : sqle.World) : Prop := {
  (* a process is filed under its own connection id *)
  cons_connection : forall id p,
    sqle.procs w !! id = Some p -> sqle.Connection p = id;
  (* the command is query exactly when there is a kill func, and exactly
     then there is a progress map; without a query the query pid is 0 *)
  cons_command : forall id p,
    sqle.procs w !! id = Some p ->
    (sqle.Command p = sqle.ProcessCommandQuery <-> is_Some (sqle.Kill p))
    /\ (is_Some (sqle.Kill p) <-> is_Some (sqle.Process_Progress p))
    /\ (sqle.Kill p = None -> sqle.QueryPid p = 0%N);
  (* the progress maps of the processes exist, one for each process *)
  cons_tables : forall id p r,
    sqle.procs w !! id = Some p -> sqle.Process_Progress p = Some r ->
    is_Some (sqle.tableMaps w !! r);
  cons_separate : forall id1 id2 p1 p2 r,
    sqle.procs w !! id1 = Some p1 -> sqle.procs w !! id2 = Some p2 ->
    sqle.Process_Progress p1 = Some r -> sqle.Process_Progress p2 = Some r ->
    id1 = id2;
  (* every table entry has a partition map, which exists *)
  cons_partitions : forall r m name tp,
    sqle.tableMaps w !! r = Some m -> m !! name = Some tp ->
    exists r', sqle.PartitionsProgress tp = Some r'
               /\ is_Some (sqle.partitionMaps w !! r');
  (* and no two table entries have the same partition map *)
  cons_partitions_separate : forall r1 r2 m1 m2 n1 n2 tp1 tp2 r',
    sqle.tableMaps w !! r1 = Some m1 -> m1 !! n1 = Some tp1 ->
    sqle.tableMaps w !! r2 = Some m2 -> m2 !! n2 = Some tp2 ->
    sqle.PartitionsProgress tp1 = Some r' ->
    sqle.PartitionsProgress tp2 = Some r' ->
    r1 = r2 /\ n1 = n2;
  (* the addresses in use are below the next one to be given out *)
  cons_fresh_tables : forall r,
    is_Some (sqle.tableMaps w !! r) -> (r < sqle.nextRef w)%positive;
  cons_fresh_partitions : forall r,
    is_Some (sqle.partitionMaps w !! r) -> (r < sqle.nextRef w)%positive;
}.

(** What a process value shows for partition [part] of table [name]. *)
Definition shownPartition (w : sqle.World) (p : sqle.Process)
    (name part : string) : option (Z * Z) :=
  match sqle.progressOf w p !! name with
  | None => None
  | Some v =>
      (fun pp => (sqle.Done (sqle.PartitionProgress_Progress pp),
                  sqle.Total (sqle.PartitionProgress_Progress pp)))
        <$> (sqle.view_Partitions v !! part)
  end.

(** * Sample values, expressions and worlds, for the examples *)

(** Rows of NULLs and int64s, printed as [fmt] prints them with [%#v]. *)
Inductive SqlValue : Type :=
| VNull
| VInt64 (n : Z).

#[global] Instance SqlValue_eq_dec : EqDecision SqlValue.
Proof. solve_decision. Defined.

#[global] Instance SqlValue_GoValue : GoValue SqlValue := {|
  nilValue := VNull;
  SprintfSharpV v :=
    match v with
    | VNull => "<nil>"
    | VInt64 n => NilZero.string_of_int (Z.to_int n)
    end;
|}.

(** A column reference. *)
Definition sampleGetField (i : nat) : plan.Expression (Value:=SqlValue) :=
  plan.ExprOther (fun row : list SqlValue =>
    match row !! i with
    | Some v => Ok v
    | None => Fail (ErrorString "index out of bounds")
    end).

(** COUNT( * ): 0 on no row. *)
Definition sampleCount : plan.Aggregation (Value:=SqlValue) := {|
  plan.NewBuffer := [VInt64 0];
  plan.Update buffer row :=
    (match buffer with
     | VInt64 n :: _ => [VInt64 (n + 1)]
     | _ => [VInt64 1]
     end, None);
  plan.AggEval buffer :=
    match buffer with
    | v :: _ => Ok v
    | [] => Ok VNull
    end;
|}.

(** SUM of column [i]: NULL on no row. *)
Definition sampleSum (i : nat) : plan.Aggregation (Value:=SqlValue) := {|
  plan.NewBuffer := [VNull];
  plan.Update buffer row :=
    match row !! i with
    | Some (VInt64 x) =>
        (match buffer with
         | VInt64 s :: _ => [VInt64 (s + x)]
         | _ => [VInt64 x]
         end, None)
    | Some VNull => (buffer, None)
    | None => (buffer, Some (ErrorString "index out of bounds"))
    end;
  plan.AggEval buffer :=
    match buffer with
    | v :: _ => Ok v
    | [] => Ok VNull
    end;
|}.

(** A table as a node: its [RowIter] gives its rows. *)
Definition sampleTableIter (rows : list (list SqlValue))
    : result (plan.childIter (Value:=SqlValue)) :=
  Ok (plan.NextRow <$> rows).

(** [SELECT a, SUM(b) FROM t GROUP BY a] over [t]. *)
Definition sampleGroupBySum (t : list (list SqlValue))
    : plan.GroupBy (Node:=list (list SqlValue)) :=
  plan.NewGroupBy
    [sampleGetField 0; plan.ExprAggregation (sampleSum 1)]
    [sampleGetField 0] t.


(** [SELECT COUNT( * ), SUM(b) FROM t] over [t]. *)
Definition sampleAggregate (t : list (list SqlValue))
    : plan.GroupBy (Node:=list (list SqlValue)) :=
  plan.NewGroupBy
    [plan.ExprAggregation sampleCount; plan.ExprAggregation (sampleSum 1)]
    [] t.

Definition tableS1 : list (list SqlValue) :=
  [[VInt64 1; VInt64 10]; [VInt64 1; VInt64 20]; [VInt64 2; VInt64 30]].


(** A child that fails on its first [Next]. *)
Definition failingChild : plan.childIter (Value:=SqlValue) :=
  [plan.NextErr (ErrorString "read failed")].

(** Two SQL types, for the analyzer. *)
Inductive SampleType : Type :=
| TInt64
| TArray (elem : SampleType).

Definition sampleIsArray (t : SampleType) : bool :=
  match t with
  | TArray _ => true
  | TInt64 => false
  end.

Definition sampleUnderlyingType (t : SampleType) : SampleType :=
  match t with
  | TArray elem => elem
  | TInt64 => TInt64
  end.

Fixpoint sampleTypeString (t : SampleType) : string :=
  match t with
  | TInt64 => "BIGINT"
  | TArray elem => String.append "ARRAY(" (String.append (sampleTypeString elem) ")")
  end.

Definition colInt : analyzer.Expression :=
  analyzer.GetField 0 TInt64 "n" false.

Definition colArray : analyzer.Expression :=
  analyzer.GetField 1 (TArray TInt64) "col" false.

(** A connection, its session, and the context of a query with pid 1. *)
Definition sampleSession : sqle.Session :=
  {| sqle.ID := 1%N; sqle.Address := "127.0.0.1:34567";
     sqle.ClientUser := "foo" |}.

Definition sampleContext : sqle.Context :=
  {| sqle.ctx_Session := sampleSession; sqle.Pid := 1%N;
     sqle.cancelScopes := [] |}.

(** The connection is added and made ready: it sleeps. *)
Definition worldReady : sqle.World :=
  sqle.ConnectionReady
    (sqle.AddConnection sqle.NewProcessList 1%N "127.0.0.1:34567" 0)
    sampleSession 1.

(** Then a query begins and announces table "a" with 5 partitions. *)
Definition worldQuerying : result sqle.World :=
  cw ← sqle.BeginQuery worldReady sampleContext "SELECT foo" 2;
  sqle.AddTableProgress (snd cw) 1%N "a" 5.

(** The query has begun, and the connection is made ready once more: the
    process is replaced, the pid table keeps the entry of pid 1. *)
Definition worldStale : result sqle.World :=
  cw ← sqle.BeginQuery worldReady sampleContext "SELECT foo" 2;
  Ok (sqle.ConnectionReady (snd cw) sampleSession 3).

(** A second query (pid 2) begins on the connection before the first has
    ended, then the connection is removed: the entry of pid 1 is left in
    the pid table, and its connection has no process. *)
Definition worldOrphan : result sqle.World :=
  cw ← sqle.BeginQuery worldReady sampleContext "SELECT foo" 2;
  cw' ← sqle.BeginQuery (snd cw)
          {| sqle.ctx_Session := sampleSession; sqle.Pid := 2%N;
             sqle.cancelScopes := [] |} "SELECT bar" 3;
  Ok (sqle.RemoveConnection (snd cw') 1%N).

(** A second query (pid 2) begins on the connection before the first has
    ended. *)
Definition worldSuperseded : result sqle.World :=
  cw ← sqle.BeginQuery worldReady sampleContext "SELECT foo" 2;
  cw' ← sqle.BeginQuery (snd cw)
          {| sqle.ctx_Session := sampleSession; sqle.Pid := 2%N;
             sqle.cancelScopes := [] |} "SELECT bar" 3;
  Ok (snd cw').

(** A second connection, with a query (pid 2) that announces table "b"
    with 7 partitions, beside the first. *)
Definition sampleSession2 : sqle.Session :=
  {| sqle.ID := 2%N; sqle.Address := "127.0.0.1:34568";
     sqle.ClientUser := "bar" |}.

Definition sampleContext2 : sqle.Context :=
  {| sqle.ctx_Session := sampleSession2; sqle.Pid := 2%N;
     sqle.cancelScopes := [] |}.

Definition worldTwoQueries : result sqle.World :=
  w ← worldQuerying;
  cw ← sqle.BeginQuery
         (sqle.ConnectionReady
            (sqle.AddConnection w 2%N "127.0.0.1:34568" 3) sampleSession2 4)
         sampleContext2 "SELECT bar" 5;
  sqle.AddTableProgress (snd cw) 2%N "b" 7.

(** What a process value shows for table [name]: done and total. *)
Definition shownProgress (w : sqle.World) (p : sqle.Process) (name : string)
    : option (Z * Z) :=
  (fun v => (sqle.Done (sqle.view_Progress v), sqle.Total (sqle.view_Progress v)))
    <$> (sqle.progressOf w p !! name).

(** Dates as seconds since the epoch, intervals as a number of seconds
    (or NULL), for the date functions. *)
Definition sampleInterval : Type := option Z.

Definition sampleEvalDelta (i : sampleInterval) (row : list (option Z))
    : result (option Z) :=
  Ok i.

Definition sampleValidateTime (t : Z) : option Z :=
  if decide (0 <= t < 253402300800) then Some t else None.

Definition sampleArityError (fn : string) (expected got : nat) : error :=
  ErrorString (String.append fn ": wrong number of arguments").

Definition sampleColumn (i : nat) : function.Expression :=
  function.ExprOther (V:=Z) (Interval:=sampleInterval) (Clock:=Z)
    (fun row : list (option Z) =>
       match row !! i with
       | Some v => Ok v
       | None => Fail (ErrorString "index out of bounds")
       end).

Definition sampleDateEval
    : function.Expression -> list (option Z) -> result (option Z) :=
  function.Eval (V:=Z) (Time:=Z) (Delta:=Z) (Interval:=sampleInterval)
    (Clock:=Z) (fun v => Ok v) sampleValidateTime (fun z => Ok (Some z))
    (fun t => t) (fun delta t => t + delta) (fun delta t => t - delta)
    sampleEvalDelta (fun i row => Fail (ErrorString "interval"))
    (fun clock => clock).

(** * Properties *)

Example crc64_iso_a :
  crc64.Checksum (bytesOf "a") (crc64.MakeTable crc64.ISO) = 0x3420000000000000.
Proof. vm_compute. reflexivity. Qed.

Example crc64_iso_abc :
  crc64.Checksum (bytesOf "abc") (crc64.MakeTable crc64.ISO) = 0x3776c42000000000.
Proof. vm_compute. reflexivity. Qed.

(** The check value of CRC-64/GO-ISO. *)
Example crc64_iso_check :
  crc64.Checksum (bytesOf "123456789") (crc64.MakeTable crc64.ISO)
  = 0xb90956c775a41001.
Proof. vm_compute. reflexivity. Qed.

Example scenario_S1 :
  (it ← plan.GroupBy_RowIter sampleTableIter (sampleGroupBySum tableS1);
   Ok (plan.nextN 3 it))
  = Ok [plan.NextRow [VInt64 1; VInt64 30]; plan.NextRow [VInt64 2; VInt64 30];
        plan.NextEOF].
Proof. vm_compute. reflexivity. Qed.

Example empty_aggregate :
  (it ← plan.GroupBy_RowIter sampleTableIter (sampleAggregate []);
   Ok (plan.nextN 2 it))
  = Ok [plan.NextRow [VInt64 0; VNull]; plan.NextEOF].
Proof. vm_compute. reflexivity. Qed.

(** ** The group-by iterators *)

Section GroupByProperties.
Context `{GoValue Value}.

Implicit Types (sel grp : list (plan.Expression (Value:=Value))).
Implicit Types (row : plan.Row (Value:=Value)).
Implicit Types (rows : list (plan.Row (Value:=Value))).
Implicit Types (buf : list (plan.Row (Value:=Value))).
Implicit Types (aggs : gmap Z (list (plan.Row (Value:=Value)))).

(** Filling a buffer vector of the right length never goes out of range:
    slot [j] on receives the fresh buffers of the expressions. *)
Lemma fillBuffersFrom_spec sel : forall j buf,
  length buf = (j + length sel)%nat ->
  plan.fillBuffersFrom j buf sel
  = Ok (take j buf ++ map plan.fillBuffer sel).
Proof.
  induction sel as [|a sel IH]; intros j buf Hlen; simpl in *.
  - rewrite app_nil_r, firstn_all2 by lia. reflexivity.
  - destruct (decide (j < length buf)%nat) as [Hj|Hj]; [|lia].
    rewrite IH by (rewrite length_insert; lia).
    f_equal.
    rewrite (take_S_r _ _ (plan.fillBuffer a))
      by (apply list_lookup_insert_eq; lia).
    rewrite take_insert_ge by lia.
    rewrite <- app_assoc. reflexivity.
Qed.

Lemma fillBuffers_fresh sel :
  plan.fillBuffersFrom 0 (replicate (length sel) []) sel
  = Ok (map plan.fillBuffer sel).
Proof.
  rewrite fillBuffersFrom_spec by (rewrite length_replicate; lia).
  reflexivity.
Qed.

(** The two loops read the child through [child.Next()]. *)
Lemma groupByIter_loop_childNext sel buf (child : plan.childIter) :
  plan.groupByIter_loop sel buf child
  = match plan.childNext child with
    | (plan.NextEOF, rest) => (None, buf, rest)
    | (plan.NextErr e, rest) => (Some e, buf, rest)
    | (plan.NextRow row, rest) =>
        match plan.updateBuffers buf sel row with
        | (buf', Some e) => (Some e, buf', rest)
        | (buf', None) => plan.groupByIter_loop sel buf' rest
        end
    end.
Proof. destruct child as [|[row| |e] rest]; reflexivity. Qed.

Lemma compute_childNext sel grp aggs (keys : list Z) (child : plan.childIter) :
  plan.compute sel grp aggs keys child
  = match plan.childNext child with
    | (plan.NextEOF, rest) => (None, aggs, keys, rest)
    | (plan.NextErr e, rest) => (Some e, aggs, keys, rest)
    | (plan.NextRow row, rest) =>
        match plan.groupingKey grp row with
        | Fail e => (Some e, aggs, keys, rest)
        | Ok key =>
            match plan.registerKey sel aggs keys key with
            | Fail e => (Some e, aggs, keys, rest)
            | Ok (aggs1, keys1) =>
                match plan.cacheGet aggs1 key with
                | Fail e => (Some e, aggs1, keys1, rest)
                | Ok b =>
                    match plan.updateBuffers b sel row with
                    | (b', Some e) => (Some e, <[key := b']> aggs1, keys1, rest)
                    | (b', None) =>
                        plan.compute sel grp (<[key := b']> aggs1) keys1 rest
                    end
                end
            end
        end
    end.
Proof. destruct child as [|[row| |e] rest]; reflexivity. Qed.

(** An iterator that is done, or whose groups are used up, stays so. *)
Lemma groupByIter_done (i : plan.groupByIter) :
  plan.iter_done i = true -> plan.groupByIter_Next i = (plan.NextEOF, i).
Proof. intros Hd. unfold plan.groupByIter_Next. rewrite Hd. reflexivity. Qed.

Lemma groupByIter_Next_done (i i' : plan.groupByIter) r :
  plan.groupByIter_Next i = (r, i') -> plan.iter_done i' = true.
Proof.
  unfold plan.groupByIter_Next.
  destruct (plan.iter_done i) eqn:Hd.
  - intros [= <- <-]. exact Hd.
  - destruct (plan.fillBuffersFrom _ _ _); [|intros [= <- <-]; reflexivity].
    destruct (plan.groupByIter_loop _ _ _) as [[err buf1] child1].
    destruct err; [intros [= <- <-]; reflexivity|].
    destruct (plan.evalBuffers _ _); intros [= <- <-]; reflexivity.
Qed.

Lemma groupByIter_Next_EOF (i i' : plan.groupByIter) :
  plan.groupByIter_Next i = (plan.NextEOF, i') ->
  i' = i /\ plan.iter_done i = true.
Proof.
  unfold plan.groupByIter_Next.
  destruct (plan.iter_done i) eqn:Hd.
  - intros [= <-]. split; reflexivity.
  - destruct (plan.fillBuffersFrom _ _ _); [|intros [=]].
    destruct (plan.groupByIter_loop _ _ _) as [[err buf1] child1].
    destruct err; [intros [=]|].
    destruct (plan.evalBuffers _ _); intros [=].
Qed.

Lemma emit_EOF (i i' : plan.groupByGroupingIter) aggs :
  plan.emit i aggs = (plan.NextEOF, i') ->
  i' = i /\ (length (plan.giter_keys i) <= plan.giter_pos i)%nat.
Proof.
  unfold plan.emit.
  destruct (decide _) as [Hle|Hgt].
  - intros [= <-]. split; [reflexivity|exact Hle].
  - destruct (_ !! _); [|intros [=]].
    destruct (plan.cacheGet _ _); [|intros [=]].
    destruct (plan.evalBuffers _ _); intros [=].
Qed.

Lemma emit_exhausted (i : plan.groupByGroupingIter) aggs :
  (length (plan.giter_keys i) <= plan.giter_pos i)%nat ->
  plan.emit i aggs = (plan.NextEOF, i).
Proof.
  intros Hle. unfold plan.emit.
  destruct (decide _) as [?|Hgt]; [reflexivity|contradiction].
Qed.

Lemma groupingIter_Next_EOF (i i' : plan.groupByGroupingIter) :
  plan.groupByGroupingIter_Next i = (plan.NextEOF, i') ->
  plan.groupByGroupingIter_Next i' = (plan.NextEOF, i').
Proof.
  unfold plan.groupByGroupingIter_Next at 1.
  destruct (plan.giter_aggregations i) as [aggs|] eqn:Ha.
  - intros He. destruct (emit_EOF _ _ _ He) as [-> Hle].
    unfold plan.groupByGroupingIter_Next. rewrite Ha.
    apply emit_exhausted, Hle.
  - destruct (plan.compute _ _ _ _ _) as [[[err aggs] keys] child].
    destruct err; [intros [=]|].
    intros He. destruct (emit_EOF _ _ _ He) as [-> Hle].
    unfold plan.groupByGroupingIter_Next. simpl.
    apply emit_exhausted, Hle.
Qed.

(** Once [Next] has returned EOF it leaves the iterator where it is. *)
Lemma Next_EOF_fixed (it it' : plan.RowIter) :
  plan.Next it = (plan.NextEOF, it') -> plan.Next it' = (plan.NextEOF, it').
Proof.
  destruct it as [i|i]; simpl.
  - destruct (plan.groupByIter_Next i) as [r i1] eqn:Hn.
    intros [= -> <-]. apply groupByIter_Next_EOF in Hn as [-> Hd].
    simpl. rewrite groupByIter_done by exact Hd. reflexivity.
  - destruct (plan.groupByGroupingIter_Next i) as [r i1] eqn:Hn.
    intros [= -> <-]. apply groupingIter_Next_EOF in Hn.
    simpl. rewrite Hn. reflexivity.
Qed.

Lemma nextN_fixed (it : plan.RowIter) r :
  plan.Next it = (r, it) -> forall n, plan.nextN n it = replicate n r.
Proof.
  intros Hn n. induction n as [|n IH]; simpl; [reflexivity|].
  rewrite Hn, IH. reflexivity.
Qed.

(** C4 (as amended).  For both group-by iterators, once a call of [Next]
    has returned end, every later call returns end.  An error is not
    kept: whatever the first call of the iterator without grouping
    returned (a row or an error), all its later calls return end. *)
Theorem Next_after_end :
  (forall it it' : plan.RowIter,
      plan.Next it = (plan.NextEOF, it') ->
      forall n, plan.nextN n it' = replicate n plan.NextEOF)
  /\ (forall (i i' : plan.groupByIter) r,
        plan.groupByIter_Next i = (r, i') ->
        forall n, plan.nextN n (plan.IterGroupBy i') = replicate n plan.NextEOF).
Proof.
  split.
  - intros it it' Hn n. apply nextN_fixed, (Next_EOF_fixed it), Hn.
  - intros i i' r Hn n. apply nextN_fixed. simpl.
    rewrite groupByIter_done by exact (groupByIter_Next_done _ _ _ Hn).
    reflexivity.
Qed.

(** *** The grouping iterator computes the groups of the input *)

Lemma mapR_cons_inv {A B} (f : A -> result B) x l ys :
  mapR f (x :: l) = Ok ys ->
  exists y ys', f x = Ok y /\ mapR f l = Ok ys' /\ ys = y :: ys'.
Proof.
  simpl. unfold mbind, result_bind.
  destruct (f x) as [y|]; simpl; [|discriminate].
  destruct (mapR f l) as [ys'|]; simpl; [|discriminate].
  intros [= <-]. eauto.
Qed.

Lemma rowsOfKey_cons grp k row rows :
  rowsOfKey grp k (row :: rows)
  = if decide (plan.groupingKey grp row = Ok k)
    then row :: rowsOfKey grp k rows
    else rowsOfKey grp k rows.
Proof. unfold rowsOfKey. rewrite filter_cons. reflexivity. Qed.

Lemma rowsOfKey_absent grp k : forall rows ks,
  mapR (plan.groupingKey grp) rows = Ok ks -> k ∉ ks ->
  rowsOfKey grp k rows = [].
Proof.
  induction rows as [|row rows IH]; intros ks Hks Hk; [reflexivity|].
  apply mapR_cons_inv in Hks as (k0 & ks' & Hk0 & Hks' & ->).
  rewrite rowsOfKey_cons.
  apply not_elem_of_cons in Hk as [Hne Hk].
  destruct (decide _) as [Heq|_]; [congruence|].
  eapply IH; eauto.
Qed.

Lemma filter_fresh_seen (keys l : list Z) k0 :
  k0 ∈ keys ->
  filter (fun k => k ∉ keys) (filter (fun k' => k' ≠ k0) l)
  = filter (fun k => k ∉ keys) l.
Proof.
  intros Hin. induction l as [|x l IH]; [reflexivity|].
  rewrite !filter_cons.
  destruct (decide (x ≠ k0)) as [Hne|Heq].
  - rewrite filter_cons, IH. reflexivity.
  - apply dec_stable in Heq as ->.
    destruct (decide (k0 ∉ keys)); [contradiction|]. exact IH.
Qed.

Lemma filter_fresh_new (keys l : list Z) k0 :
  filter (fun k => k ∉ keys ++ [k0]) l
  = filter (fun k => k ∉ keys) (filter (fun k' => k' ≠ k0) l).
Proof.
  induction l as [|x l IH]; [reflexivity|].
  rewrite !filter_cons.
  destruct (decide (x ≠ k0)) as [Hne|Heq].
  - rewrite filter_cons.
    destruct (decide (x ∉ keys ++ [k0])) as [Hn|Hn];
      destruct (decide (x ∉ keys)) as [Hm|Hm].
    + rewrite IH. reflexivity.
    + exfalso. apply Hm. intros Hx. apply Hn, elem_of_app. left. exact Hx.
    + exfalso. apply Hn. intros [Hx|Hx]%elem_of_app; [contradiction|].
      apply list_elem_of_singleton in Hx. contradiction.
    + exact IH.
  - apply dec_stable in Heq as ->.
    destruct (decide (k0 ∉ keys ++ [k0])) as [Hn|_]; [|exact IH].
    exfalso. apply Hn, elem_of_app. right. apply list_elem_of_singleton.
    reflexivity.
Qed.

Lemma accumulate_cons sel buf row rows b :
  accumulate sel buf (row :: rows) = Ok b ->
  exists buf', plan.updateBuffers buf sel row = (buf', None)
               /\ accumulate sel buf' rows = Ok b.
Proof.
  simpl. destruct (plan.updateBuffers buf sel row) as [buf' [e|]];
    [discriminate|]. eauto.
Qed.

(** The invariant of [compute]'s loop.  From a cache [aggs] whose keys
    are [keys], over rows that all have a key: the loop ends without
    error; the keys it appends are the new ones, by first appearance;
    the buffers of a key are those it had (fresh ones if it had none),
    fed the rows of that key. *)
Lemma compute_rows sel grp : forall rows aggs keys ks,
  mapR (plan.groupingKey grp) rows = Ok ks ->
  (forall k, k ∈ keys <-> is_Some (aggs !! k)) ->
  (forall k, exists b,
      accumulate sel (default (map plan.fillBuffer sel) (aggs !! k))
                 (rowsOfKey grp k rows) = Ok b) ->
  exists aggs',
    plan.compute sel grp aggs keys (plan.NextRow <$> rows)
    = (None, aggs', keys ++ filter (fun k => k ∉ keys) (firstAppearance ks), [])
    /\ (forall k, is_Some (aggs !! k) \/ k ∈ ks ->
          exists b, aggs' !! k = Some b /\
            accumulate sel (default (map plan.fillBuffer sel) (aggs !! k))
                       (rowsOfKey grp k rows) = Ok b)
    /\ (forall k, aggs !! k = None -> k ∉ ks -> aggs' !! k = None).
Proof.
  induction rows as [|row rows IH]; intros aggs keys ks Hks Hdom Hacc.
  - injection Hks as <-. exists aggs. simpl. rewrite app_nil_r.
    split; [reflexivity|]. split.
    + intros k [[b Hb]|Hk]; [|by apply elem_of_nil in Hk].
      exists b. rewrite Hb. split; reflexivity.
    + intros k Hk _. exact Hk.
  - apply mapR_cons_inv in Hks as (k0 & ks' & Hk0 & Hks' & ->).
    assert (Hrest : forall k, k ≠ k0 ->
              rowsOfKey grp k (row :: rows) = rowsOfKey grp k rows).
    { intros k Hne. rewrite rowsOfKey_cons.
      destruct (decide _) as [Heq|_]; [congruence|reflexivity]. }
    assert (Hhere : rowsOfKey grp k0 (row :: rows)
                    = row :: rowsOfKey grp k0 rows).
    { rewrite rowsOfKey_cons. destruct (decide _); [reflexivity|contradiction]. }
    destruct (Hacc k0) as [b0 Hb0]. rewrite Hhere in Hb0.
    apply accumulate_cons in Hb0 as (b1 & Hupd & Hb0).
    simpl. rewrite Hk0. unfold plan.registerKey, plan.cacheGet.
    destruct (aggs !! k0) as [bk|] eqn:Hlk; simpl in Hupd.
    + (* the key has been seen *)
      simpl. rewrite Hlk, Hupd.
      destruct (IH (<[k0 := b1]> aggs) keys ks' Hks') as (aggs' & Hc & Hin & Hout).
      * intros k. rewrite Hdom. destruct (decide (k = k0)) as [->|Hne].
        -- rewrite lookup_insert_eq, Hlk. split; eauto.
        -- rewrite lookup_insert_ne by congruence. reflexivity.
      * intros k. destruct (decide (k = k0)) as [->|Hne].
        -- rewrite lookup_insert_eq. simpl. eauto.
        -- rewrite lookup_insert_ne by congruence.
           rewrite <- (Hrest k Hne). apply Hacc.
      * exists aggs'. unfold fmap in Hc. rewrite Hc. split; [|split].
        -- simpl. rewrite filter_cons_False
             by (intros Hn; apply Hn, Hdom; eauto).
           rewrite filter_fresh_seen by (apply Hdom; eauto). reflexivity.
        -- intros k Hk. destruct (decide (k = k0)) as [->|Hne].
           ++ destruct (Hin k0) as (b & Hb & Hab).
              { left. rewrite lookup_insert_eq. eauto. }
              rewrite lookup_insert_eq in Hab. simpl in Hab.
              exists b. split; [exact Hb|].
              rewrite Hlk, Hhere. simpl. rewrite Hupd. exact Hab.
           ++ destruct (Hin k) as (b & Hb & Hab).
              { rewrite lookup_insert_ne by congruence.
                destruct Hk as [Hk|Hk]; [left; exact Hk|].
                apply elem_of_cons in Hk as [?|Hk]; [contradiction|].
                right. exact Hk. }
              rewrite lookup_insert_ne in Hab by congruence.
              exists b. split; [exact Hb|]. rewrite Hrest by exact Hne.
              exact Hab.
        -- intros k Hk Hnk. apply not_elem_of_cons in Hnk as [Hne Hnk].
           apply Hout; [|exact Hnk].
           rewrite lookup_insert_ne by congruence. exact Hk.
    + (* the key is new *)
      rewrite fillBuffers_fresh. simpl. unfold mbind, result_bind. simpl.
      rewrite lookup_insert_eq, Hupd.
      destruct (IH (<[k0 := b1]> (<[k0 := map plan.fillBuffer sel]> aggs))
                   (keys ++ [k0]) ks' Hks') as (aggs' & Hc & Hin & Hout).
      * intros k. rewrite elem_of_app, list_elem_of_singleton, Hdom.
        destruct (decide (k = k0)) as [->|Hne].
        -- rewrite lookup_insert_eq. split; eauto.
        -- rewrite !lookup_insert_ne by congruence.
           split; [intros [?|?]; [assumption|contradiction]|auto].
      * intros k. destruct (decide (k = k0)) as [->|Hne].
        -- rewrite lookup_insert_eq. simpl. eauto.
        -- rewrite !lookup_insert_ne by congruence.
           rewrite <- (Hrest k Hne). apply Hacc.
      * exists aggs'. unfold fmap in Hc. rewrite Hc. split; [|split].
        -- simpl. rewrite filter_cons_True.
           ++ rewrite <- app_assoc. simpl. rewrite filter_fresh_new.
              reflexivity.
           ++ intros Hk. apply Hdom in Hk as [? Hk]. congruence.
        -- intros k Hk. destruct (decide (k = k0)) as [->|Hne].
           ++ destruct (Hin k0) as (b & Hb & Hab).
              { left. rewrite lookup_insert_eq. eauto. }
              rewrite lookup_insert_eq in Hab. simpl in Hab.
              exists b. split; [exact Hb|].
              rewrite Hlk, Hhere. simpl. rewrite Hupd. exact Hab.
           ++ destruct (Hin k) as (b & Hb & Hab).
              { rewrite !lookup_insert_ne by congruence.
                destruct Hk as [Hk|Hk]; [left; exact Hk|].
                apply elem_of_cons in Hk as [?|Hk]; [contradiction|].
                right. exact Hk. }
              rewrite !lookup_insert_ne in Hab by congruence.
              exists b. split; [exact Hb|]. rewrite Hrest by exact Hne.
              exact Hab.
        -- intros k Hk Hnk. apply not_elem_of_cons in Hnk as [Hne Hnk].
           apply Hout; [|exact Hnk].
           rewrite !lookup_insert_ne by congruence. exact Hk.
Qed.

Lemma elem_of_firstAppearance (ks : list Z) k :
  k ∈ firstAppearance ks <-> k ∈ ks.
Proof.
  induction ks as [|k0 ks IH]; simpl; [reflexivity|].
  rewrite !elem_of_cons, list_elem_of_filter, IH.
  destruct (decide (k = k0)); intuition.
Qed.

Lemma NoDup_firstAppearance (ks : list Z) : NoDup (firstAppearance ks).
Proof.
  induction ks as [|k0 ks IH]; simpl; constructor.
  - rewrite list_elem_of_filter. intros [Hne _]. contradiction.
  - apply NoDup_filter, IH.
Qed.

Lemma filter_not_in_nil (l : list Z) :
  filter (fun k => k ∉ ([] : list Z)) l = l.
Proof.
  induction l as [|x l IH]; [reflexivity|].
  rewrite filter_cons_True by apply not_elem_of_nil. f_equal. exact IH.
Qed.

Lemma groupResult_inv sel rows out :
  groupResult sel rows = Ok out ->
  exists b, accumulate sel (map plan.fillBuffer sel) rows = Ok b
            /\ plan.evalBuffers b sel = Ok out.
Proof.
  unfold groupResult, mbind, result_bind.
  destruct (accumulate _ _ _) as [b|]; simpl; [eauto|discriminate].
Qed.

(** With the cache built, [Next] emits the remaining keys one by one,
    each as the evaluation of its cached buffers, then EOF. *)
Lemma emit_groups sel grp aggs child : forall suf outs pre,
  Forall2 (fun k out => exists b, aggs !! k = Some b
                                  /\ plan.evalBuffers b sel = Ok out)
          suf outs ->
  plan.nextN (S (length outs))
    (plan.IterGrouping
       {| plan.giter_selectedExprs := sel; plan.giter_groupByExprs := grp;
          plan.giter_aggregations := Some aggs;
          plan.giter_keys := pre ++ suf; plan.giter_pos := length pre;
          plan.giter_child := child |})
  = (plan.NextRow <$> outs) ++ [plan.NextEOF].
Proof.
  induction suf as [|k suf IH]; intros outs pre Hall.
  - apply Forall2_nil_inv_l in Hall as ->. simpl.
    unfold plan.groupByGroupingIter_Next. simpl.
    rewrite emit_exhausted by (simpl; rewrite app_nil_r; lia).
    reflexivity.
  - apply Forall2_cons_inv_l in Hall as (out & outs' & (b & Hb & He) & Hall & ->).
    specialize (IH outs' (pre ++ [k]) Hall).
    rewrite <- app_assoc, length_app in IH. cbn [length app] in IH.
    rewrite Nat.add_1_r in IH.
    change (plan.nextN (S (length (out :: outs'))) ?it)
      with (let '(r, it') := plan.Next it in
            r :: plan.nextN (S (length outs')) it').
    cbn [plan.Next]. unfold plan.groupByGroupingIter_Next, plan.emit.
    cbn [plan.giter_aggregations plan.giter_keys plan.giter_pos
         plan.giter_selectedExprs plan.giter_groupByExprs plan.giter_child].
    destruct (decide _) as [Hle|_];
      [rewrite length_app in Hle; simpl in Hle; lia|].
    rewrite list_lookup_middle by reflexivity.
    unfold plan.cacheGet. rewrite Hb, He.
    rewrite IH. reflexivity.
Qed.

Context {Node : Type} (Node_RowIter : Node -> result (plan.childIter (Value:=Value))).

(** C1.  A GroupBy with group-by expressions, over a finite input whose
    keys and groups evaluate, emits one row per distinct grouping key, in
    the order in which the keys first appear in the input: the row of a
    key is the result of its group, and end follows the last of them. *)
Theorem groups_in_first_appearance_order
    (p : plan.GroupBy (Node:=Node)) rows ks outs :
  plan.GroupByExprs p <> [] ->
  Node_RowIter (plan.Child p) = Ok (plan.NextRow <$> rows) ->
  mapR (plan.groupingKey (plan.GroupByExprs p)) rows = Ok ks ->
  Forall2 (fun k out =>
             groupResult (plan.SelectedExprs p)
               (rowsOfKey (plan.GroupByExprs p) k rows) = Ok out)
          (firstAppearance ks) outs ->
  exists it,
    plan.GroupBy_RowIter Node_RowIter p = Ok it
    /\ plan.nextN (S (length outs)) it
       = (plan.NextRow <$> outs) ++ [plan.NextEOF]
    /\ length outs = length (firstAppearance ks).
Proof.
  intros Hgrp Hchild Hks Hres.
  destruct p as [c sel grp]. simpl in *.
  unfold plan.GroupBy_RowIter. simpl. rewrite Hchild. simpl.
  destruct (decide (length grp = 0%nat)) as [Hz|_];
    [destruct grp; [contradiction|discriminate]|].
  eexists. split; [reflexivity|].
  split; [|symmetry; eapply Forall2_length; exact Hres].
  destruct (compute_rows sel grp rows ∅ [] ks Hks) as (aggs & Hc & Hin & _).
  { intros k. rewrite lookup_empty. split.
    - intros Hk. by apply elem_of_nil in Hk.
    - intros [? ?]. discriminate. }
  { intros k. rewrite lookup_empty. simpl.
    destruct (decide (k ∈ ks)) as [Hk|Hk].
    - apply elem_of_firstAppearance, list_elem_of_lookup in Hk as [j Hj].
      destruct (Forall2_lookup_l _ _ _ _ _ Hres Hj) as (out & _ & Hout).
      apply groupResult_inv in Hout as (b & Hb & _). eauto.
    - rewrite (rowsOfKey_absent grp k rows ks Hks Hk). simpl. eauto. }
  simpl in Hc. rewrite filter_not_in_nil in Hc.
  assert (Hemit : Forall2
            (fun k out => exists b, aggs !! k = Some b
                                    /\ plan.evalBuffers b sel = Ok out)
            (firstAppearance ks) outs).
  { assert (Hsub : forall k, k ∈ firstAppearance ks -> k ∈ ks)
      by (intros k; apply elem_of_firstAppearance).
    revert Hsub Hres. generalize (firstAppearance ks) as l.
    intros l Hsub Hres.
    induction Hres as [|k out l outs' Hout Hres IH].
    - constructor.
    - constructor.
      + destruct (Hin k) as (b & Hb & Hacc).
        { right. apply Hsub. left. }
        rewrite lookup_empty in Hacc. simpl in Hacc.
        apply groupResult_inv in Hout as (b' & Hacc' & He).
        exists b. split; [exact Hb|]. congruence.
      + apply IH. intros k' Hk'. apply Hsub. right. exact Hk'. }
  pose proof (emit_groups sel grp aggs [] _ _ [] Hemit) as Hn.
  cbn [app length] in Hn.
  change (plan.nextN (S (length outs)) ?it)
    with (let '(r, it') := plan.Next it in r :: plan.nextN (length outs) it').
  change (plan.nextN (S (length outs)) ?it)
    with (let '(r, it') := plan.Next it in r :: plan.nextN (length outs) it')
    in Hn.
  cbn [plan.Next] in *.
  unfold plan.groupByGroupingIter_Next in *.
  cbn [plan.giter_aggregations plan.giter_keys plan.giter_pos
       plan.giter_selectedExprs plan.giter_groupByExprs plan.giter_child
       plan.newGroupByGroupingIter] in *.
  unfold plan.newGroupByGroupingIter.
  cbn [plan.giter_aggregations plan.giter_keys plan.giter_pos
       plan.giter_selectedExprs plan.giter_groupByExprs plan.giter_child].
  unfold fmap in Hc. unfold fmap. rewrite Hc.
  exact Hn.
Qed.

(** Evaluating the fresh buffer of an expression is evaluating the
    expression over no rows, and so for a whole vector of fresh buffers. *)
Lemma evalBuffer_fresh (e : plan.Expression (Value:=Value)) :
  plan.evalBuffer e (plan.fillBuffer e) = valueOverNoRows e.
Proof. induction e as [a|name c IH|f]; simpl; auto. Qed.

Lemma evalBuffersFrom_fresh sel : forall pre,
  plan.evalBuffersFrom (length pre) (pre ++ map plan.fillBuffer sel) sel
  = mapR valueOverNoRows sel.
Proof.
  induction sel as [|e sel IH]; intros pre; simpl; [reflexivity|].
  rewrite lookup_app_r, Nat.sub_diag by lia. simpl.
  rewrite evalBuffer_fresh.
  specialize (IH (pre ++ [plan.fillBuffer e])).
  rewrite length_app, <- app_assoc in IH. simpl in IH.
  rewrite Nat.add_1_r in IH. rewrite IH. reflexivity.
Qed.

Lemma evalBuffers_fresh sel :
  plan.evalBuffers (map plan.fillBuffer sel) sel = mapR valueOverNoRows sel.
Proof. exact (evalBuffersFrom_fresh sel []). Qed.

Lemma mapR_Forall2 {A B} (f : A -> result B) l ys :
  Forall2 (fun x y => f x = Ok y) l ys -> mapR f l = Ok ys.
Proof.
  induction 1 as [|x y l ys Hx _ IH]; simpl; [reflexivity|].
  rewrite Hx. simpl. rewrite IH. reflexivity.
Qed.

(** The iterator without grouping over a child that has no rows. *)
Lemma groupByIter_no_rows sel n :
  plan.nextN (S n) (plan.IterGroupBy (plan.newGroupByIter sel []))
  = nextOf (mapR valueOverNoRows sel) :: replicate n plan.NextEOF.
Proof.
  change (plan.nextN (S n) ?it)
    with (let '(r, it') := plan.Next it in r :: plan.nextN n it').
  simpl. unfold plan.groupByIter_Next. simpl.
  rewrite fillBuffers_fresh. simpl. rewrite evalBuffers_fresh.
  destruct (mapR _ _) as [row|e]; simpl;
    (f_equal; apply nextN_fixed; reflexivity).
Qed.

(** C2.  Over an empty child.  Without group-by expressions the first
    [Next] evaluates every selected expression over no rows, from left to
    right: when each aggregation evaluates its new buffer to a value,
    [Next] gives the row of these values (NULL for an expression that is
    no aggregation), the error of the first failing one otherwise; every
    later call gives end, so that there is exactly one row.  With
    group-by expressions every call gives end. *)
Theorem empty_input (p : plan.GroupBy (Node:=Node)) :
  Node_RowIter (plan.Child p) = Ok [] ->
  (plan.GroupByExprs p = [] ->
     exists it,
       plan.GroupBy_RowIter Node_RowIter p = Ok it
       /\ (forall vals,
             Forall2 (fun e v => valueOverNoRows e = Ok v)
                     (plan.SelectedExprs p) vals ->
             forall n,
               plan.nextN (S n) it
               = plan.NextRow vals :: replicate n plan.NextEOF)
       /\ (forall n,
             plan.nextN (S n) it
             = nextOf (mapR valueOverNoRows (plan.SelectedExprs p))
               :: replicate n plan.NextEOF))
  /\ (plan.GroupByExprs p <> [] ->
        exists it,
          plan.GroupBy_RowIter Node_RowIter p = Ok it
          /\ forall n, plan.nextN n it = replicate n plan.NextEOF).
Proof.
  intros Hchild. destruct p as [c sel grp]. simpl in *.
  unfold plan.GroupBy_RowIter. simpl. rewrite Hchild. simpl. split.
  - intros ->. exists (plan.IterGroupBy (plan.newGroupByIter sel [])).
    split; [reflexivity|]. split; [|apply groupByIter_no_rows].
    intros vals Hvals n.
    etrans; [apply groupByIter_no_rows|].
    rewrite (mapR_Forall2 _ _ _ Hvals). reflexivity.
  - intros Hgrp.
    destruct (decide (length grp = 0%nat)) as [Hz|_];
      [destruct grp; [contradiction|discriminate]|].
    eexists. split; [reflexivity|]. intros [|n]; [reflexivity|].
    change (plan.nextN (S n) ?it)
      with (let '(r, it') := plan.Next it in r :: plan.nextN n it').
    simpl. f_equal. apply nextN_fixed. reflexivity.
Qed.


End GroupByProperties.

(** *** The iterators on sample inputs *)

Lemma groups_in_first_appearance_order_witness :
  exists it,
    plan.GroupBy_RowIter sampleTableIter (sampleGroupBySum tableS1) = Ok it
    /\ plan.nextN 3 it
       = [plan.NextRow [VInt64 1; VInt64 30]; plan.NextRow [VInt64 2; VInt64 30];
          plan.NextEOF].
Proof.
  edestruct (groups_in_first_appearance_order sampleTableIter
               (sampleGroupBySum tableS1) tableS1
               [0x4320000000000000; 0x4320000000000000; 0x41f0000000000000]
               [[VInt64 1; VInt64 30]; [VInt64 2; VInt64 30]])
    as (it & Hit & Hn & _).
  - discriminate.
  - reflexivity.
  - vm_compute. reflexivity.
  - vm_compute firstAppearance. repeat constructor; vm_compute; reflexivity.
  - exists it. split; [exact Hit|exact Hn].
Defined.

Lemma empty_input_witness :
  (exists it,
      plan.GroupBy_RowIter sampleTableIter (sampleAggregate []) = Ok it
      /\ plan.nextN 3 it
         = [plan.NextRow [VInt64 0; VNull]; plan.NextEOF; plan.NextEOF])
  /\ (exists it,
        plan.GroupBy_RowIter sampleTableIter (sampleGroupBySum []) = Ok it
        /\ plan.nextN 3 it = [plan.NextEOF; plan.NextEOF; plan.NextEOF]).
Proof.
  split.
  - destruct (empty_input sampleTableIter (sampleAggregate []) eq_refl)
      as [[it [Hit [Hn _]]] _]; [reflexivity|].
    exists it. split; [exact Hit|].
    apply (Hn [VInt64 0; VNull]). repeat constructor.
  - destruct (empty_input sampleTableIter (sampleGroupBySum []) eq_refl)
      as [_ [it [Hit Hn]]]; [discriminate|].
    exists it. split; [exact Hit|]. rewrite Hn. reflexivity.
Defined.

Lemma Next_after_end_witness :
  plan.nextN 3
    (snd (plan.Next
            (plan.IterGrouping
               (plan.newGroupByGroupingIter
                  [sampleGetField 0] [sampleGetField 0] []))))
  = [plan.NextEOF; plan.NextEOF; plan.NextEOF].
Proof.
  apply (proj1 Next_after_end
           (plan.IterGrouping
              (plan.newGroupByGroupingIter
                 [sampleGetField 0] [sampleGetField 0] []))).
  vm_compute. reflexivity.
Defined.

(** C4, as stated, fails: the iterator without grouping returns the error
    of its child once, and end at the next call. *)
Lemma error_then_end :
  plan.nextN 2
    (plan.IterGroupBy
       (plan.newGroupByIter [plan.ExprAggregation sampleCount] failingChild))
  = [plan.NextErr (ErrorString "read failed"); plan.NextEOF]
  /\ plan.NextEOF (Value:=SqlValue) <> plan.NextErr (ErrorString "read failed").
Proof. split; [vm_compute; reflexivity|discriminate]. Qed.



(** ** The plan nodes: children and expressions *)

Section NodeProperties.
Context {Value Node : Type}.

Implicit Types (p : plan.GroupBy (Value:=Value) (Node:=Node)).
Implicit Types (exprs : list (plan.Expression (Value:=Value))).

Lemma copyExprs_spec exprs offset : forall n i,
  (i + offset + n <= length exprs)%nat ->
  plan.copyExprs exprs offset n i = Ok (take n (drop (i + offset) exprs)).
Proof.
  induction n as [|n IH]; intros i Hlen; simpl.
  - rewrite take_0. reflexivity.
  - destruct (exprs !! (i + offset)%nat) as [e|] eqn:He.
    + rewrite IH by lia. simpl. f_equal.
      rewrite (drop_S _ e _ He). reflexivity.
    + apply lookup_ge_None in He. lia.
Qed.

Lemma GroupBy_WithExpressions_spec p exprs :
  plan.GroupBy_WithExpressions p exprs
  = if decide (length exprs
               = (length (plan.SelectedExprs p) + length (plan.GroupByExprs p))%nat)
    then Ok (plan.NewGroupBy
               (take (length (plan.SelectedExprs p)) exprs)
               (drop (length (plan.SelectedExprs p)) exprs)
               (plan.Child p))
    else Fail (ErrInvalidChildrenNumber (length exprs)
                 (length (plan.SelectedExprs p) + length (plan.GroupByExprs p))).
Proof.
  unfold plan.GroupBy_WithExpressions.
  destruct (decide (length exprs ≠ _)) as [Hne|Heq];
    destruct (decide (length exprs = _)) as [Heq'|Hne']; try contradiction.
  - reflexivity.
  - rewrite !copyExprs_spec by (simpl; lia). simpl.
    f_equal. f_equal. apply firstn_all2. rewrite length_drop. lia.
Qed.

(** C8.  Rebuilding a node from its own children gives the node back, for
    GroupBy and the three replication statements, and so does rebuilding
    a GroupBy from its own expressions (selected, then group-by).  The
    invalid-children-number error is returned exactly when the number of
    arguments is not the number of children (1 for GroupBy, 0 for the
    others), respectively of expressions. *)
Theorem WithChildren_of_Children :
  (forall p,
      plan.GroupBy_WithChildren p (plan.GroupBy_Children p) = Ok p
      /\ plan.GroupBy_WithExpressions p (plan.GroupBy_Expressions p) = Ok p)
  /\ (forall p (children : list Node),
        plan.GroupBy_WithChildren p children
        = match children with
          | [c] => Ok (plan.NewGroupBy (plan.SelectedExprs p)
                                       (plan.GroupByExprs p) c)
          | _ => Fail (ErrInvalidChildrenNumber (length children) 1)
          end)
  /\ (forall p exprs,
        plan.GroupBy_WithExpressions p exprs
        = if decide (length exprs = length (plan.GroupBy_Expressions p))
          then Ok (plan.NewGroupBy
                     (take (length (plan.SelectedExprs p)) exprs)
                     (drop (length (plan.SelectedExprs p)) exprs)
                     (plan.Child p))
          else Fail (ErrInvalidChildrenNumber (length exprs)
                       (length (plan.GroupBy_Expressions p))))
  /\ (forall (c : plan.ChangeReplicationSource) (children : list Node),
        plan.ChangeReplicationSource_WithChildren c
          (plan.ChangeReplicationSource_Children (Node:=Node) c) = Ok c
        /\ plan.ChangeReplicationSource_WithChildren c children
           = match children with
             | [] => Ok c
             | _ => Fail (ErrInvalidChildrenNumber (length children) 0)
             end)
  /\ (forall (s : plan.StartReplica) (children : list Node),
        plan.StartReplica_WithChildren s (plan.StartReplica_Children (Node:=Node) s)
        = Ok s
        /\ plan.StartReplica_WithChildren s children
           = match children with
             | [] => Ok s
             | _ => Fail (ErrInvalidChildrenNumber (length children) 0)
             end)
  /\ (forall (s : plan.StopReplica) (children : list Node),
        plan.StopReplica_WithChildren s (plan.StopReplica_Children (Node:=Node) s)
        = Ok s
        /\ plan.StopReplica_WithChildren s children
           = match children with
             | [] => Ok s
             | _ => Fail (ErrInvalidChildrenNumber (length children) 0)
             end).
Proof.
  repeat split.
  - destruct p; reflexivity.
  - rewrite GroupBy_WithExpressions_spec. unfold plan.GroupBy_Expressions.
    rewrite length_app.
    destruct (decide _) as [_|Hne]; [|contradiction].
    rewrite take_app_length, drop_app_length. destruct p; reflexivity.
  - intros p children. unfold plan.GroupBy_WithChildren.
    destruct children as [|c [|c' children]]; reflexivity.
  - intros p exprs. rewrite GroupBy_WithExpressions_spec.
    unfold plan.GroupBy_Expressions. rewrite length_app. reflexivity.
  - destruct children as [|c' children]; reflexivity.
  - destruct children as [|c' children]; reflexivity.
  - destruct children as [|c' children]; reflexivity.
Qed.

(** C9.  The three replication statements are always resolved, and their
    [RowIter] returns no iterator and the error "replication statements
    not supported", whatever the context and the row. *)
Theorem replication_statements_not_supported {Context_ Row RowIter : Type} :
  (forall (c : plan.ChangeReplicationSource) (ctx : Context_) (row : Row),
      plan.ChangeReplicationSource_Resolved c = true
      /\ plan.ChangeReplicationSource_RowIter (RowIter:=RowIter) c ctx row
         = Fail (ErrorString "replication statements not supported"))
  /\ (forall (s : plan.StartReplica) (ctx : Context_) (row : Row),
        plan.StartReplica_Resolved s = true
        /\ plan.StartReplica_RowIter (RowIter:=RowIter) s ctx row
           = Fail (ErrorString "replication statements not supported"))
  /\ (forall (s : plan.StopReplica) (ctx : Context_) (row : Row),
        plan.StopReplica_Resolved s = true
        /\ plan.StopReplica_RowIter (RowIter:=RowIter) s ctx row
           = Fail (ErrorString "replication statements not supported")).
Proof. repeat split. Qed.

End NodeProperties.

(** ** Lifting EXPLODE out of projections *)

Section GeneratorProperties.
Context {SqlType : Type}
        (IsArray : SqlType -> bool)
        (UnderlyingType : SqlType -> SqlType)
        (typeString : SqlType -> string).

Implicit Types (e ge : analyzer.Expression (SqlType:=SqlType)).
Implicit Types (es pre mid suf : list (analyzer.Expression (SqlType:=SqlType))).

Local Abbreviation Type_ := (analyzer.Type_ UnderlyingType).
Local Abbreviation findGeneratorFrom :=
  (analyzer.findGeneratorFrom IsArray UnderlyingType typeString).
Local Abbreviation resolveGeneratorsNode :=
  (analyzer.resolveGeneratorsNode IsArray UnderlyingType typeString).

Lemma generatorOf_None e :
  explodeArgument e = None -> analyzer.generatorOf e = None.
Proof.
  destruct e as [c|c|name c|? ? ? ?|? ? ?]; simpl; try discriminate;
    try reflexivity.
  destruct c; simpl; try discriminate; reflexivity.
Qed.

Lemma generatorOf_Some e arg :
  explodeArgument e = Some arg ->
  analyzer.generatorOf e = Some (lifted e) /\ Type_ (lifted e) = Type_ arg.
Proof.
  destruct e as [c|c|name c|? ? ? ?|? ? ?]; simpl; try discriminate.
  - intros [= ->]. split; reflexivity.
  - destruct c; simpl; try discriminate.
    intros [= ->]. split; reflexivity.
Qed.

(** Expressions that are no EXPLODE are passed over. *)
Lemma findGeneratorFrom_skip pre : forall i g rest,
  Forall (fun e => explodeArgument e = None) pre ->
  findGeneratorFrom i g (pre ++ rest)
  = findGeneratorFrom (i + length pre) g rest.
Proof.
  induction pre as [|e pre IH]; intros i g rest Hpre; simpl.
  - rewrite Nat.add_0_r. reflexivity.
  - apply Forall_cons in Hpre as [He Hpre].
    rewrite (generatorOf_None e He), IH by exact Hpre.
    f_equal. lia.
Qed.

Lemma findGeneratorFrom_none es i g :
  Forall (fun e => explodeArgument e = None) es ->
  findGeneratorFrom i g es = Ok g.
Proof.
  intros Hes. rewrite <- (app_nil_r es), findGeneratorFrom_skip by exact Hes.
  reflexivity.
Qed.

(** C3 (as amended).  On a Project node the rule
    (i) returns the node as it is when no projection is an EXPLODE;
    (ii) when exactly one is, alone or directly under an alias, and its
    argument has an array type, returns a Generate node over the Project
    in which Generate stands for that EXPLODE, with a column that refers
    to the index the EXPLODE has in the projection;
    (iii) fails with the multiple-generators error when a second EXPLODE
    follows a first one whose argument has an array type;
    (iv) fails with the explode-not-array error when the argument of the
    first EXPLODE has no array type. *)
Theorem resolveGenerators_on_Project (child : analyzer.Node) :
  (forall es,
      Forall (fun e => explodeArgument e = None) es ->
      resolveGeneratorsNode (analyzer.Project es child)
      = Ok (analyzer.Project es child))
  /\ (forall pre e suf arg,
        Forall (fun e => explodeArgument e = None) pre ->
        explodeArgument e = Some arg ->
        IsArray (Type_ arg) = true ->
        Forall (fun e => explodeArgument e = None) suf ->
        resolveGeneratorsNode (analyzer.Project (pre ++ e :: suf) child)
        = Ok (analyzer.NodeGenerate
                (analyzer.Project (pre ++ lifted e :: suf) child)
                (analyzer.GetField (Z.of_nat (length pre)) (Type_ arg)
                   (columnName (lifted e))
                   (analyzer.IsNullable (lifted e)))))
  /\ (forall pre e1 mid e2 suf arg1 arg2,
        Forall (fun e => explodeArgument e = None) pre ->
        explodeArgument e1 = Some arg1 ->
        IsArray (Type_ arg1) = true ->
        Forall (fun e => explodeArgument e = None) mid ->
        explodeArgument e2 = Some arg2 ->
        resolveGeneratorsNode
          (analyzer.Project (pre ++ e1 :: mid ++ e2 :: suf) child)
        = Fail errMultipleGenerators)
  /\ (forall pre e suf arg,
        Forall (fun e => explodeArgument e = None) pre ->
        explodeArgument e = Some arg ->
        IsArray (Type_ arg) = false ->
        resolveGeneratorsNode (analyzer.Project (pre ++ e :: suf) child)
        = Fail (errExplodeNotArray (typeString (Type_ arg)))).
Proof.
  split; [|split; [|split]].
  - intros es Hes. simpl. unfold analyzer.findGenerator.
    rewrite findGeneratorFrom_none by exact Hes. reflexivity.
  - intros pre e suf arg Hpre He Harr Hsuf. simpl.
    unfold analyzer.findGenerator.
    rewrite findGeneratorFrom_skip by exact Hpre. simpl.
    destruct (generatorOf_Some e arg He) as [-> Hty].
    rewrite Hty, Harr. simpl.
    rewrite findGeneratorFrom_none by exact Hsuf. simpl.
    rewrite Nat2Z.id.
    destruct (decide _) as [_|Hge]; [|rewrite length_app in Hge; simpl in Hge; lia].
    rewrite Hty. unfold columnName.
    rewrite insert_app_r_alt, Nat.sub_diag by lia. reflexivity.
  - intros pre e1 mid e2 suf arg1 arg2 Hpre He1 Harr Hmid He2. simpl.
    unfold analyzer.findGenerator.
    rewrite findGeneratorFrom_skip by exact Hpre. simpl.
    destruct (generatorOf_Some e1 arg1 He1) as [-> Hty].
    rewrite Hty, Harr. simpl.
    rewrite findGeneratorFrom_skip by exact Hmid. simpl.
    destruct (generatorOf_Some e2 arg2 He2) as [-> _].
    destruct (decide _) as [_|Hneg]; [reflexivity|]. simpl in Hneg. lia.
  - intros pre e suf arg Hpre He Harr. simpl.
    unfold analyzer.findGenerator.
    rewrite findGeneratorFrom_skip by exact Hpre. simpl.
    destruct (generatorOf_Some e arg He) as [-> Hty].
    rewrite Hty, Harr. reflexivity.
Qed.

End GeneratorProperties.

Lemma resolveGenerators_on_Project_witness :
  analyzer.resolveGenerators sampleIsArray sampleUnderlyingType sampleTypeString
    (analyzer.Project [colInt; analyzer.Alias "x" (analyzer.Explode colArray)]
       (analyzer.NodeLeaf "t"))
  = Ok (analyzer.NodeGenerate
          (analyzer.Project
             [colInt; analyzer.Alias "x" (analyzer.Generate colArray)]
             (analyzer.NodeLeaf "t"))
          (analyzer.GetField 1 (TArray TInt64) "x" false))
  /\ analyzer.resolveGeneratorsNode sampleIsArray sampleUnderlyingType
       sampleTypeString
       (analyzer.Project [colInt; colArray] (analyzer.NodeLeaf "t"))
     = Ok (analyzer.Project [colInt; colArray] (analyzer.NodeLeaf "t"))
  /\ analyzer.resolveGeneratorsNode sampleIsArray sampleUnderlyingType
       sampleTypeString
       (analyzer.Project [analyzer.Explode colArray; analyzer.Explode colArray]
          (analyzer.NodeLeaf "t"))
     = Fail errMultipleGenerators
  /\ analyzer.resolveGeneratorsNode sampleIsArray sampleUnderlyingType
       sampleTypeString
       (analyzer.Project [analyzer.Explode colInt] (analyzer.NodeLeaf "t"))
     = Fail (errExplodeNotArray "BIGINT").
Proof.
  pose proof (resolveGenerators_on_Project sampleIsArray sampleUnderlyingType
                sampleTypeString (analyzer.NodeLeaf "t"))
    as (Hnone & Hone & Hmany & Hnot).
  split; [|split; [|split]].
  - apply (Hone [colInt] (analyzer.Alias "x" (analyzer.Explode colArray)) []
             colArray); repeat constructor.
  - apply Hnone. repeat constructor.
  - apply (Hmany [] (analyzer.Explode colArray) [] (analyzer.Explode colArray) []
             colArray colArray); repeat constructor.
  - apply (Hnot [] (analyzer.Explode colInt) [] colInt); repeat constructor.
Defined.

(** C3, as stated, fails where its cases overlap: with two EXPLODEs of
    which the first has no array argument the error is explode-not-array,
    and with an array EXPLODE followed by one that has no array argument it
    is multiple-generators. *)
Lemma first_generator_decides_error :
  analyzer.resolveGenerators sampleIsArray sampleUnderlyingType sampleTypeString
    (analyzer.Project [analyzer.Explode colInt; analyzer.Explode colArray]
       (analyzer.NodeLeaf "t"))
  = Fail (errExplodeNotArray "BIGINT")
  /\ analyzer.resolveGenerators sampleIsArray sampleUnderlyingType
       sampleTypeString
       (analyzer.Project [analyzer.Explode colArray; analyzer.Explode colInt]
          (analyzer.NodeLeaf "t"))
     = Fail errMultipleGenerators.
Proof. split; vm_compute; reflexivity. Qed.

(** ** The process list *)

Section ProcessListProperties.

Lemma elem_of_Processes (w : sqle.World) id p :
  sqle.procs w !! id = Some p -> p ∈ sqle.Processes w.
Proof.
  intros Hp. unfold sqle.Processes. apply list_elem_of_In, in_map_iff.
  exists (id, p). split; [reflexivity|].
  apply list_elem_of_In, elem_of_map_to_list. exact Hp.
Qed.

(** [EndQuery] reads the connection id and the pid of its context only. *)
Lemma EndQuery_same_ids (w : sqle.World) (ctx ctx' : sqle.Context) now :
  sqle.ID (sqle.ctx_Session ctx') = sqle.ID (sqle.ctx_Session ctx) ->
  sqle.Pid ctx' = sqle.Pid ctx ->
  sqle.EndQuery w ctx' now = sqle.EndQuery w ctx now.
Proof. intros Hid Hpid. unfold sqle.EndQuery. rewrite Hid, Hpid. reflexivity. Qed.

(** C6 (as amended).  [Processes] returns one entry per connection of the
    process list, whatever its command, the sleeping ones among them.
    After a successful [BeginQuery], [EndQuery] with the same context
    (the one given or the one returned) sets the command of the
    connection to sleep, and [Processes] shows the connection, as
    sleeping. *)
Theorem Processes_lists_all_connections :
  (forall w, length (sqle.Processes w) = size (sqle.procs w))
  /\ (forall w ctx query now ctx' w' now',
        sqle.BeginQuery w ctx query now = Ok (ctx', w') ->
        sqle.EndQuery w' ctx now' = sqle.EndQuery w' ctx' now'
        /\ exists w'' p,
             sqle.EndQuery w' ctx' now' = Ok w''
             /\ sqle.procs w'' !! sqle.ID (sqle.ctx_Session ctx) = Some p
             /\ sqle.Command p = sqle.ProcessCommandSleep
             /\ p ∈ sqle.Processes w''
             /\ length (sqle.Processes w'') = length (sqle.Processes w')).
Proof.
  assert (Hlen : forall w, length (sqle.Processes w) = size (sqle.procs w)).
  { intros w. unfold sqle.Processes.
    rewrite length_map, length_map_to_list. reflexivity. }
  split; [exact Hlen|].
  intros w ctx query now ctx' w' now'. unfold sqle.BeginQuery.
  destruct (sqle.procs w !! sqle.ID (sqle.ctx_Session ctx)) as [p0|] eqn:Hp0;
    [|discriminate].
  destruct (sqle.byQueryPid w !! sqle.Pid ctx) as [?|] eqn:Hpid; [discriminate|].
  simpl. intros [= <- <-]. split.
  - symmetry. apply EndQuery_same_ids; reflexivity.
  - unfold sqle.EndQuery. simpl. rewrite lookup_insert_eq. simpl.
    destruct (decide _) as [_|Hne]; [|contradiction].
    eexists. eexists. split; [reflexivity|]. simpl.
    rewrite lookup_insert_eq. split; [reflexivity|]. split; [reflexivity|].
    split.
    + eapply elem_of_Processes. simpl. apply lookup_insert_eq.
    + rewrite !Hlen. simpl. rewrite insert_insert_eq.
      rewrite !map_size_insert_Some by eauto. reflexivity.
Qed.

(** The progress operations leave the store alone when [EndQuery] runs:
    what a process value shows is the same before and after. *)
Lemma EndQuery_keeps_shown_progress (w w' : sqle.World) ctx now p :
  sqle.EndQuery w ctx now = Ok w' ->
  sqle.progressOf w' p = sqle.progressOf w p.
Proof.
  unfold sqle.EndQuery.
  destruct (sqle.procs _ !! _) as [p0|]; [|intros [= <-]; reflexivity].
  destruct (decide _); [|intros [= <-]; reflexivity].
  destruct (sqle.Kill p0); [|discriminate].
  intros [= <-]. reflexivity.
Qed.

(** A process value holds the address of its progress map: whoever holds
    a copy of the process of a running query sees, under that address,
    the table entry that [UpdateTableProgress] writes. *)
Lemma UpdateTableProgress_seen_through_copy (w : sqle.World) pid name delta
    p r m tp :
  sqle.processOfPid w pid = Some p ->
  sqle.Process_Progress p = Some r ->
  sqle.tableMaps w !! r = Some m ->
  m !! name = Some tp ->
  exists w',
    sqle.UpdateTableProgress w pid name delta = Ok w'
    /\ sqle.tableMapOf w' (sqle.Process_Progress p) !! name
       = Some {| sqle.TableProgress_Progress :=
                   sqle.addDone (sqle.TableProgress_Progress tp) delta;
                 sqle.PartitionsProgress := sqle.PartitionsProgress tp |}.
Proof.
  intros Hp Hr Hm Htp. unfold sqle.UpdateTableProgress. rewrite Hp, Hr.
  simpl. rewrite Hm. simpl. rewrite Htp. simpl.
  eexists. split; [reflexivity|]. simpl.
  rewrite lookup_insert_eq. simpl. apply lookup_insert_eq.
Qed.

(** C10 (as amended).  A progress operation called with a pid that the
    pid table does not know, or sends to a connection without a process,
    returns normally and leaves the whole state as it was.  When the pid
    table sends the pid to a process that has no progress map, the
    partition operations and the two remove operations do so as well. *)
Theorem progress_of_unbound_pid (w : sqle.World) (pid : N) :
  unboundPid w pid \/ idlePid w pid ->
  ((forall tableName partitionName delta,
      sqle.UpdatePartitionProgress w pid tableName partitionName delta = Ok w)
   /\ (forall tableName partitionName total,
         sqle.AddPartitionProgress w pid tableName partitionName total = Ok w)
   /\ (forall name, sqle.RemoveTableProgress w pid name = Ok w)
   /\ (forall tableName partitionName,
         sqle.RemovePartitionProgress w pid tableName partitionName = Ok w))
  /\ (unboundPid w pid ->
        (forall name delta, sqle.UpdateTableProgress w pid name delta = Ok w)
        /\ (forall name total, sqle.AddTableProgress w pid name total = Ok w)).
Proof.
  assert (Hnone : unboundPid w pid -> sqle.processOfPid w pid = None).
  { unfold sqle.processOfPid. intros [->|(id & -> & ->)]; reflexivity. }
  intros Hpid. split.
  - unfold sqle.UpdatePartitionProgress, sqle.AddPartitionProgress,
      sqle.RemoveTableProgress, sqle.RemovePartitionProgress.
    destruct Hpid as [Hu|(id & p & Hid & Hp & Hnil)].
    + rewrite (Hnone Hu). repeat split.
    + unfold sqle.processOfPid. rewrite Hid, Hp, Hnil. simpl.
      repeat split; intros; rewrite lookup_empty; reflexivity.
  - intros Hu. unfold sqle.UpdateTableProgress, sqle.AddTableProgress.
    rewrite (Hnone Hu). split; reflexivity.
Qed.

End ProcessListProperties.

Lemma Processes_lists_all_connections_witness :
  exists w'' p,
    (cw ← sqle.BeginQuery worldReady sampleContext "SELECT foo" 2;
     sqle.EndQuery (snd cw) (fst cw) 3) = Ok w''
    /\ sqle.Processes w'' = [p]
    /\ sqle.Command p = sqle.ProcessCommandSleep.
Proof.
  destruct (sqle.BeginQuery worldReady sampleContext "SELECT foo" 2)
    as [[ctx' w']|e] eqn:Hb; [|discriminate Hb].
  destruct (proj2 Processes_lists_all_connections _ _ _ _ _ _ 3 Hb)
    as (_ & w'' & p & He & Hp & Hc & _ & _).
  exists w'', p. simpl. split; [exact He|]. split; [|exact Hc].
  revert He Hp. injection Hb as <- <-. vm_compute.
  intros [= <-] [= <-]. reflexivity.
Defined.

(** C6, as stated, fails: a connection that sleeps is listed. *)
Lemma sleeping_connection_is_listed :
  length (sqle.Processes worldReady) = 1%nat
  /\ sqle.nonSleepConnections worldReady = 0%nat.
Proof. split; vm_compute; reflexivity. Qed.

Lemma progress_of_unbound_pid_witness :
  (exists w,
      worldOrphan = Ok w
      /\ sqle.byQueryPid w !! 1%N = Some 1%N
      /\ sqle.UpdateTableProgress w 1%N "a" 3 = Ok w
      /\ sqle.AddTableProgress w 1%N "a" 5 = Ok w
      /\ sqle.RemovePartitionProgress w 1%N "a" "a-1" = Ok w)
  /\ (exists w,
        worldStale = Ok w
        /\ sqle.UpdatePartitionProgress w 1%N "a" "a-1" 3 = Ok w
        /\ sqle.RemoveTableProgress w 1%N "a" = Ok w).
Proof.
  split.
  - eexists. split; [vm_compute; reflexivity|].
    split; [vm_compute; reflexivity|].
    match goal with
    | |- sqle.UpdateTableProgress ?w _ _ _ = _ /\ _ =>
        destruct (progress_of_unbound_pid w 1%N)
          as ((_ & _ & _ & Hr) & Hu)
    end.
    + left. right. exists 1%N. split; vm_compute; reflexivity.
    + destruct Hu as [Hu Ha].
      * right. exists 1%N. split; vm_compute; reflexivity.
      * split; [apply Hu|]. split; [apply Ha|apply Hr].
  - eexists. split; [vm_compute; reflexivity|].
    match goal with
    | |- sqle.UpdatePartitionProgress ?w _ _ _ _ = _ /\ _ =>
        destruct (progress_of_unbound_pid w 1%N)
          as ((Hu & _ & Hr & _) & _)
    end.
    + right. eexists _, _. split; [vm_compute; reflexivity|].
      split; vm_compute; reflexivity.
    + split; [apply Hu|apply Hr].
Defined.

(** C10, as stated, fails.  Pid 1 is bound to no live query once its
    connection has been made ready anew; the pid table still sends it to
    the new process, whose progress map is nil, and the two operations
    that write a table entry do not return normally.  Nor is it once a
    query with pid 2 has begun on its connection; an update under pid 1
    then returns, and has changed the progress of the query with pid 2. *)
Lemma stale_pid_write_panics :
  (exists w,
      worldStale = Ok w
      /\ boundToLiveQuery w 1%N = false
      /\ sqle.UpdateTableProgress w 1%N "a" 3 = Fail sqle.nilMapWrite
      /\ sqle.AddTableProgress w 1%N "a" 5 = Fail sqle.nilMapWrite)
  /\ (exists w p w',
        worldSuperseded = Ok w
        /\ boundToLiveQuery w 1%N = false
        /\ sqle.Processes w = [p]
        /\ sqle.QueryPid p = 2%N
        /\ sqle.UpdateTableProgress w 1%N "a" 3 = Ok w'
        /\ shownProgress w p "a" = None
        /\ shownProgress w' p "a" = Some (3, -1)).
Proof.
  split.
  - eexists. split; [vm_compute; reflexivity|].
    split; [vm_compute; reflexivity|].
    split; vm_compute; reflexivity.
  - eexists _, _, _. split; [vm_compute; reflexivity|].
    split; [vm_compute; reflexivity|].
    split; [vm_compute; reflexivity|].
    split; [vm_compute; reflexivity|].
    split; [vm_compute; reflexivity|].
    split; vm_compute; reflexivity.
Qed.

(** C7 fails on the code: a process value got from [Processes] keeps the
    progress map of the live process, so a later [UpdateTableProgress]
    shows through it.  Table "a" reads 0 of 5 in the value when
    it is returned, and 3 of 5 in the same value after the update. *)
Theorem Processes_shares_progress_map :
  exists w p w',
    worldQuerying = Ok w
    /\ sqle.Processes w = [p]
    /\ sqle.UpdateTableProgress w 1%N "a" 3 = Ok w'
    /\ shownProgress w p "a" = Some (0, 5)
    /\ shownProgress w' p "a" = Some (3, 5).
Proof.
  eexists _, _, _.
  split; [vm_compute; reflexivity|].
  split; [vm_compute; reflexivity|].
  split; [vm_compute; reflexivity|].
  split; vm_compute; reflexivity.
Qed.

(** * Further properties *)

(** ** The group-by iterators, continued *)

Section GroupByMore.
Context `{GoValue Value}.

Implicit Types (sel grp : list (plan.Expression (Value:=Value))).
Implicit Types (row : plan.Row (Value:=Value)).
Implicit Types (rows : list (plan.Row (Value:=Value))).
Implicit Types (buf : list (plan.Row (Value:=Value))).
Implicit Types (aggs : gmap Z (list (plan.Row (Value:=Value)))).
Implicit Types (rest : plan.childIter (Value:=Value)).

(** The loop of the iterator without grouping feeds the rows to the
    buffers as [accumulate] does, and goes on with what follows them. *)
Lemma groupByIter_loop_rows sel rest : forall rows buf,
  plan.groupByIter_loop sel buf ((plan.NextRow <$> rows) ++ rest)
  = match accumulate sel buf rows with
    | Ok b => plan.groupByIter_loop sel b rest
    | Fail e =>
        (Some e,
         (plan.groupByIter_loop sel buf ((plan.NextRow <$> rows) ++ rest)).1.2,
         (plan.groupByIter_loop sel buf ((plan.NextRow <$> rows) ++ rest)).2)
    end.
Proof.
  induction rows as [|row rows IH]; intros buf; [reflexivity|].
  cbn [fmap list_fmap app accumulate plan.groupByIter_loop].
  destruct (plan.updateBuffers buf sel row) as [buf' [e|]]; [reflexivity|].
  apply IH.
Qed.

Lemma groupByIter_first_Next sel rows :
  plan.groupByIter_Next (plan.newGroupByIter sel (plan.NextRow <$> rows))
  = (nextOf (groupResult sel rows),
     (plan.groupByIter_Next
        (plan.newGroupByIter sel (plan.NextRow <$> rows))).2).
Proof.
  unfold plan.groupByIter_Next, plan.newGroupByIter.
  cbn [plan.iter_done plan.iter_buf plan.iter_selectedExprs plan.iter_child].
  rewrite fillBuffers_fresh.
  rewrite <- (app_nil_r (plan.NextRow <$> rows)), groupByIter_loop_rows.
  unfold groupResult.
  destruct (accumulate sel (map plan.fillBuffer sel) rows) as [b|e]; simpl.
  - destruct (plan.evalBuffers b sel); reflexivity.
  - reflexivity.
Qed.

Context {Node : Type} (Node_RowIter : Node -> result (plan.childIter (Value:=Value))).


End GroupByMore.


Section GroupByErrors.
Context `{GoValue Value}.

Implicit Types (sel grp : list (plan.Expression (Value:=Value))).
Implicit Types (row : plan.Row (Value:=Value)).
Implicit Types (rows : list (plan.Row (Value:=Value))).
Implicit Types (aggs : gmap Z (list (plan.Row (Value:=Value)))).
Implicit Types (rest : plan.childIter (Value:=Value)).

(** When [compute] gets through a list of rows, it goes on with what
    follows them from the cache and the keys it has then. *)
Lemma compute_rows_then sel grp rest : forall rows aggs (keys : list Z) aggs' keys',
  plan.compute sel grp aggs keys (plan.NextRow <$> rows) = (None, aggs', keys', []) ->
  plan.compute sel grp aggs keys ((plan.NextRow <$> rows) ++ rest)
  = plan.compute sel grp aggs' keys' rest.
Proof.
  induction rows as [|row rows IH]; intros aggs keys aggs' keys'.
  - simpl. intros [= <- <-]. reflexivity.
  - cbn [fmap list_fmap app plan.compute].
    destruct (plan.groupingKey grp row) as [key|]; [|discriminate].
    destruct (plan.registerKey sel aggs keys key) as [[aggs1 keys1]|];
      [|discriminate].
    destruct (plan.cacheGet aggs1 key) as [b|]; [|discriminate].
    destruct (plan.updateBuffers b sel row) as [b' [e|]]; [discriminate|].
    apply IH.
Qed.

(** The cache [compute] builds over rows that evaluate: the keys in
    first-appearance order, each with buffers that evaluate to the result
    of its group. *)
Lemma compute_groups sel grp rows ks outs :
  mapR (plan.groupingKey grp) rows = Ok ks ->
  Forall2 (fun k out => groupResult sel (rowsOfKey grp k rows) = Ok out)
          (firstAppearance ks) outs ->
  exists aggs,
    plan.compute sel grp ∅ [] (plan.NextRow <$> rows)
    = (None, aggs, firstAppearance ks, [])
    /\ Forall2 (fun k out => exists b, aggs !! k = Some b
                                       /\ plan.evalBuffers b sel = Ok out)
               (firstAppearance ks) outs.
Proof.
  intros Hks Hres.
  destruct (compute_rows sel grp rows ∅ [] ks Hks) as (aggs & Hc & Hin & _).
  { intros k. rewrite lookup_empty. split.
    - intros Hk. by apply elem_of_nil in Hk.
    - intros [? ?]. discriminate. }
  { intros k. rewrite lookup_empty. simpl.
    destruct (decide (k ∈ ks)) as [Hk|Hk].
    - apply elem_of_firstAppearance, list_elem_of_lookup in Hk as [j Hj].
      destruct (Forall2_lookup_l _ _ _ _ _ Hres Hj) as (out & _ & Hout).
      apply groupResult_inv in Hout as (b & Hb & _). eauto.
    - rewrite (rowsOfKey_absent grp k rows ks Hks Hk). simpl. eauto. }
  simpl in Hc. rewrite filter_not_in_nil in Hc.
  exists aggs. split; [exact Hc|].
  assert (Hsub : forall k, k ∈ firstAppearance ks -> k ∈ ks)
    by (intros k; apply elem_of_firstAppearance).
  revert Hsub Hres. generalize (firstAppearance ks) as l. intros l Hsub Hres.
  induction Hres as [|k out l outs' Hout Hres IH]; constructor.
  - destruct (Hin k) as (b & Hb & Hacc).
    { right. apply Hsub. left. }
    rewrite lookup_empty in Hacc. simpl in Hacc.
    apply groupResult_inv in Hout as (b' & Hacc' & He).
    exists b. split; [exact Hb|]. congruence.
  - apply IH. intros k' Hk'. apply Hsub. right. exact Hk'.
Qed.

Context {Node : Type} (Node_RowIter : Node -> result (plan.childIter (Value:=Value))).

(** X2.  When the child fails after rows that evaluate, the first [Next]
    returns the child's error.  The iterator without grouping then returns
    end at every call; the grouping iterator then returns the groups of
    the rows read before the failure, in first-appearance order, and end
    after them. *)
Theorem child_error_is_returned (p : plan.GroupBy (Node:=Node)) rows e rest :
  Node_RowIter (plan.Child p)
  = Ok ((plan.NextRow <$> rows) ++ plan.NextErr e :: rest) ->
  (plan.GroupByExprs p = [] ->
   forall b,
     accumulate (plan.SelectedExprs p)
                (map plan.fillBuffer (plan.SelectedExprs p)) rows = Ok b ->
     exists it,
       plan.GroupBy_RowIter Node_RowIter p = Ok it
       /\ forall n,
            plan.nextN (S n) it = plan.NextErr e :: replicate n plan.NextEOF)
  /\ (plan.GroupByExprs p <> [] ->
      forall ks outs,
        mapR (plan.groupingKey (plan.GroupByExprs p)) rows = Ok ks ->
        Forall2 (fun k out =>
                   groupResult (plan.SelectedExprs p)
                     (rowsOfKey (plan.GroupByExprs p) k rows) = Ok out)
                (firstAppearance ks) outs ->
        exists it,
          plan.GroupBy_RowIter Node_RowIter p = Ok it
          /\ plan.nextN (S (S (length outs))) it
             = plan.NextErr e :: (plan.NextRow <$> outs) ++ [plan.NextEOF]).
Proof.
  intros Hchild. destruct p as [c sel grp]. simpl in *.
  unfold plan.GroupBy_RowIter. simpl. rewrite Hchild. simpl. split.
  - intros -> b Hb. simpl. eexists. split; [reflexivity|]. intros n.
    change (plan.nextN (S n) ?it)
      with (let '(r, it') := plan.Next it in r :: plan.nextN n it').
    cbn [plan.Next].
    destruct (plan.groupByIter_Next _) as [r i'] eqn:Hn.
    pose proof (groupByIter_Next_done _ _ _ Hn) as Hd.
    revert Hn. unfold plan.groupByIter_Next, plan.newGroupByIter.
    cbn [plan.iter_done plan.iter_buf plan.iter_selectedExprs plan.iter_child].
    rewrite fillBuffers_fresh, groupByIter_loop_rows, Hb. simpl.
    intros [= <- <-]. f_equal. apply nextN_fixed. reflexivity.
  - intros Hgrp ks outs Hks Hres.
    destruct (decide (length grp = 0%nat)) as [Hz|_];
      [destruct grp; [contradiction|discriminate]|].
    eexists. split; [reflexivity|].
    destruct (compute_groups sel grp rows ks outs Hks Hres) as (aggs & Hc & Hemit).
    pose proof (emit_groups sel grp aggs rest _ _ [] Hemit) as Hn.
    cbn [app length] in Hn.
    change (plan.nextN (S (S (length outs))) ?it)
      with (let '(r, it') := plan.Next it in r :: plan.nextN (S (length outs)) it').
    cbn [plan.Next]. unfold plan.groupByGroupingIter_Next, plan.newGroupByGroupingIter.
    cbn [plan.giter_aggregations plan.giter_keys plan.giter_pos
         plan.giter_selectedExprs plan.giter_groupByExprs plan.giter_child].
    rewrite (compute_rows_then sel grp _ rows ∅ [] _ _ Hc).
    rewrite compute_childNext. cbn [plan.childNext]. f_equal. exact Hn.
Qed.

(** X3.  When all the input rows have the same grouping key, and there is
    at least one row, grouping makes no difference: the GroupBy with the
    group-by expressions and the one without them both return the result
    of the one group of all rows, then end. *)
Theorem one_key_one_group sel grp (c : Node) rows k out :
  grp <> [] ->
  rows <> [] ->
  Node_RowIter c = Ok (plan.NextRow <$> rows) ->
  Forall (fun row => plan.groupingKey grp row = Ok k) rows ->
  groupResult sel rows = Ok out ->
  exists it it0,
    plan.GroupBy_RowIter Node_RowIter (plan.NewGroupBy sel grp c) = Ok it
    /\ plan.GroupBy_RowIter Node_RowIter (plan.NewGroupBy sel [] c) = Ok it0
    /\ plan.nextN 2 it = [plan.NextRow out; plan.NextEOF]
    /\ plan.nextN 2 it0 = [plan.NextRow out; plan.NextEOF].
Proof.
  intros Hgrp Hrows Hchild Hall Hout.
  assert (Hks : mapR (plan.groupingKey grp) rows = Ok (replicate (length rows) k)).
  { clear Hrows Hchild Hout. induction Hall as [|row rows Hk Hall IH]; [reflexivity|].
    simpl. rewrite Hk. simpl. unfold mbind, result_bind in *.
    rewrite IH. reflexivity. }
  assert (Hfa : firstAppearance (replicate (length rows) k) = [k]).
  { destruct rows as [|row rows]; [contradiction|]. simpl. f_equal.
    clear. induction (length rows) as [|n IH]; [reflexivity|].
    simpl. rewrite IH.
    rewrite filter_cons_False by (intros Hne; apply Hne; reflexivity).
    reflexivity. }
  assert (Hown : rowsOfKey grp k rows = rows).
  { clear Hrows Hchild Hout Hks Hfa.
    induction Hall as [|row rows Hk Hall IH]; [reflexivity|].
    rewrite rowsOfKey_cons. destruct (decide _); [|contradiction].
    f_equal. exact IH. }
  unfold plan.GroupBy_RowIter. simpl. rewrite Hchild. simpl.
  destruct (decide (length grp = 0%nat)) as [Hz|_];
    [destruct grp; [contradiction|discriminate]|].
  eexists. eexists. split; [reflexivity|]. split; [reflexivity|]. split.
  - destruct (compute_groups sel grp rows _ [out] Hks) as (aggs & Hc & Hemit).
    { rewrite Hfa. constructor; [|constructor]. rewrite Hown. exact Hout. }
    rewrite Hfa in Hc, Hemit.
    pose proof (emit_groups sel grp aggs [] _ _ [] Hemit) as Hn.
    cbn [app length] in Hn.
    change (plan.nextN 2 ?it)
      with (let '(r, it') := plan.Next it in r :: plan.nextN 1 it').
    change (plan.nextN 2 ?it)
      with (let '(r, it') := plan.Next it in r :: plan.nextN 1 it') in Hn.
    cbn [plan.Next] in *.
    unfold plan.groupByGroupingIter_Next, plan.newGroupByGroupingIter in *.
    cbn [plan.giter_aggregations plan.giter_keys plan.giter_pos
         plan.giter_selectedExprs plan.giter_groupByExprs plan.giter_child] in *.
    unfold fmap in Hc. unfold fmap. rewrite Hc. exact Hn.
  - change (plan.nextN 2 ?it)
      with (let '(r, it') := plan.Next it in r :: plan.nextN 1 it').
    cbn [plan.Next].
    destruct (plan.groupByIter_Next _) as [r i'] eqn:Hn.
    pose proof (groupByIter_Next_done _ _ _ Hn) as Hd.
    rewrite groupByIter_first_Next, Hout in Hn. injection Hn as <- _.
    simpl. rewrite groupByIter_done by exact Hd. reflexivity.
Qed.

End GroupByErrors.

Lemma child_error_is_returned_witness :
  (exists it,
      plan.GroupBy_RowIter (fun c => Ok c)
        (plan.NewGroupBy [plan.ExprAggregation sampleCount] []
           ((plan.NextRow <$> tableS1) ++ failingChild)) = Ok it
      /\ plan.nextN 3 it
         = [plan.NextErr (ErrorString "read failed"); plan.NextEOF; plan.NextEOF])
  /\ (exists it,
        plan.GroupBy_RowIter (fun c => Ok c)
          (plan.NewGroupBy
             [sampleGetField 0; plan.ExprAggregation (sampleSum 1)]
             [sampleGetField 0]
             ((plan.NextRow <$> tableS1) ++ failingChild)) = Ok it
        /\ plan.nextN 4 it
           = [plan.NextErr (ErrorString "read failed");
              plan.NextRow [VInt64 1; VInt64 30];
              plan.NextRow [VInt64 2; VInt64 30]; plan.NextEOF]).
Proof.
  split.
  - destruct (child_error_is_returned (fun c => Ok c)
                (plan.NewGroupBy [plan.ExprAggregation sampleCount] []
                   ((plan.NextRow <$> tableS1) ++ failingChild))
                tableS1 (ErrorString "read failed") [])
      as [Hplain _]; [reflexivity|].
    destruct (Hplain eq_refl [[VInt64 3]]) as (it & Hit & Hn);
      [vm_compute; reflexivity|].
    exists it. split; [exact Hit|]. rewrite Hn. reflexivity.
  - destruct (child_error_is_returned (fun c => Ok c)
                (plan.NewGroupBy
                   [sampleGetField 0; plan.ExprAggregation (sampleSum 1)]
                   [sampleGetField 0]
                   ((plan.NextRow <$> tableS1) ++ failingChild))
                tableS1 (ErrorString "read failed") [])
      as [_ Hgrouping]; [reflexivity|].
    destruct (Hgrouping ltac:(discriminate)
                [0x4320000000000000; 0x4320000000000000; 0x41f0000000000000]
                [[VInt64 1; VInt64 30]; [VInt64 2; VInt64 30]])
      as (it & Hit & Hn).
    + vm_compute. reflexivity.
    + vm_compute firstAppearance. repeat constructor; vm_compute; reflexivity.
    + exists it. split; [exact Hit|exact Hn].
Defined.

Lemma one_key_one_group_witness :
  exists it it0,
    plan.GroupBy_RowIter sampleTableIter
      (plan.NewGroupBy [sampleGetField 0; plan.ExprAggregation (sampleSum 1)]
         [sampleGetField 0] [[VInt64 1; VInt64 10]; [VInt64 1; VInt64 20]])
    = Ok it
    /\ plan.GroupBy_RowIter sampleTableIter
         (plan.NewGroupBy [sampleGetField 0; plan.ExprAggregation (sampleSum 1)]
            [] [[VInt64 1; VInt64 10]; [VInt64 1; VInt64 20]])
       = Ok it0
    /\ plan.nextN 2 it = [plan.NextRow [VInt64 1; VInt64 30]; plan.NextEOF]
    /\ plan.nextN 2 it0 = [plan.NextRow [VInt64 1; VInt64 30]; plan.NextEOF].
Proof.
  apply (one_key_one_group sampleTableIter
           [sampleGetField 0; plan.ExprAggregation (sampleSum 1)]
           [sampleGetField 0] [[VInt64 1; VInt64 10]; [VInt64 1; VInt64 20]]
           [[VInt64 1; VInt64 10]; [VInt64 1; VInt64 20]]
           0x4320000000000000).
  - discriminate.
  - discriminate.
  - reflexivity.
  - repeat constructor; vm_compute; reflexivity.
  - vm_compute. reflexivity.
Defined.

Section GroupByShape.
Context `{GoValue Value}.

Implicit Types (sel : list (plan.Expression (Value:=Value))).

Lemma evalBuffersFrom_length sel : forall i (buffers : list plan.Row) row,
  plan.evalBuffersFrom i buffers sel = Ok row -> length row = length sel.
Proof.
  induction sel as [|a sel IH]; intros i buffers row; simpl.
  - intros [= <-]. reflexivity.
  - destruct (buffers !! i) as [b|]; [|discriminate].
    unfold mbind, result_bind.
    destruct (plan.evalBuffer a b) as [v|]; simpl; [|discriminate].
    destruct (plan.evalBuffersFrom (S i) buffers sel) as [r|] eqn:Hr; simpl;
      [|discriminate].
    intros [= <-]. simpl. f_equal. eapply IH, Hr.
Qed.

(** [Next] keeps the selected expressions of the iterator, and a row it
    returns has one value for each of them. *)
Lemma Next_selectedOf (it it' : plan.RowIter) r :
  plan.Next it = (r, it') ->
  selectedOf it' = selectedOf it
  /\ forall row, r = plan.NextRow row -> length row = length (selectedOf it).
Proof.
  destruct it as [i|i]; simpl.
  - unfold plan.groupByIter_Next.
    destruct (plan.iter_done i).
    { intros [= <- <-]. split; [reflexivity|discriminate]. }
    destruct (plan.fillBuffersFrom _ _ _).
    2:{ intros [= <- <-]. split; [reflexivity|discriminate]. }
    destruct (plan.groupByIter_loop _ _ _) as [[err buf1] child1].
    destruct err.
    { intros [= <- <-]. split; [reflexivity|discriminate]. }
    destruct (plan.evalBuffers _ _) as [row0|] eqn:He; intros [= <- <-];
      (split; [reflexivity|]); [|discriminate].
    intros row [= <-]. eapply evalBuffersFrom_length, He.
  - assert (Hemit : forall (j j' : plan.groupByGroupingIter) aggs r0,
              plan.emit j aggs = (r0, j') ->
              plan.giter_selectedExprs j' = plan.giter_selectedExprs j
              /\ forall row, r0 = plan.NextRow row ->
                   length row = length (plan.giter_selectedExprs j)).
    { intros j j' aggs r0. unfold plan.emit.
      destruct (decide _).
      { intros [= <- <-]. split; [reflexivity|discriminate]. }
      destruct (_ !! _).
      2:{ intros [= <- <-]. split; [reflexivity|discriminate]. }
      destruct (plan.cacheGet _ _).
      2:{ intros [= <- <-]. split; [reflexivity|discriminate]. }
      destruct (plan.evalBuffers _ _) as [row0|] eqn:He; intros [= <- <-];
        (split; [reflexivity|]); [|discriminate].
      intros row [= <-]. eapply evalBuffersFrom_length, He. }
    unfold plan.groupByGroupingIter_Next.
    destruct (plan.giter_aggregations i) as [aggs|].
    + destruct (plan.emit i aggs) as [r0 j'] eqn:He. intros [= <- <-].
      apply (Hemit _ _ _ _ He).
    + destruct (plan.compute _ _ _ _ _) as [[[err aggs] keys] child].
      destruct err.
      { intros [= <- <-]. split; [reflexivity|discriminate]. }
      destruct (plan.emit _ aggs) as [r0 j'] eqn:He. intros [= <- <-].
      apply (Hemit _ _ _ _ He).
Qed.

Lemma nextN_row_width : forall n (it : plan.RowIter) row,
  plan.NextRow row ∈ plan.nextN n it -> length row = length (selectedOf it).
Proof.
  induction n as [|n IH]; intros it row; simpl.
  - intros Hin. by apply elem_of_nil in Hin.
  - destruct (plan.Next it) as [r it'] eqn:Hn.
    destruct (Next_selectedOf _ _ _ Hn) as [Hsel Hrow].
    intros [Heq|Hin]%elem_of_cons.
    + apply Hrow. symmetry. exact Heq.
    + rewrite <- Hsel. apply IH, Hin.
Qed.

Context {Node SqlType : Type}
        (Node_RowIter : Node -> result (plan.childIter (Value:=Value)))
        (exprName : plan.Expression (Value:=Value) -> option string)
        (exprString : plan.Expression (Value:=Value) -> string)
        (exprTable : plan.Expression (Value:=Value) -> option string)
        (exprType : plan.Expression (Value:=Value) -> SqlType)
        (exprIsNullable : plan.Expression (Value:=Value) -> bool).

(** X4.  Every row that the iterator of a GroupBy returns, at any call of
    [Next] and whatever the input, has exactly one value per column of the
    node's schema (one per selected expression). *)
Theorem rows_have_schema_width (p : plan.GroupBy (Node:=Node)) it n row :
  plan.GroupBy_RowIter Node_RowIter p = Ok it ->
  plan.NextRow row ∈ plan.nextN n it ->
  length row
  = length (plan.GroupBy_Schema exprName exprString exprTable exprType
              exprIsNullable p)
  /\ length row = length (plan.SelectedExprs p).
Proof.
  intros Hit Hin. apply nextN_row_width in Hin.
  unfold plan.GroupBy_Schema. rewrite length_map.
  enough (selectedOf it = plan.SelectedExprs p) as <- by (split; exact Hin).
  revert Hit. unfold plan.GroupBy_RowIter, mbind, result_bind.
  destruct (Node_RowIter (plan.Child p)); simpl; [|discriminate].
  destruct (decide _); intros [= <-]; reflexivity.
Qed.

(** X5.  [WithChildren] changes the child only and [WithExpressions] the
    expressions only: a GroupBy rebuilt over another child has the same
    expressions and the same schema, and a GroupBy rebuilt from a list of
    expressions of the right length has that list as its expressions and
    the same children. *)
Theorem GroupBy_rebuild_frames (p : plan.GroupBy (Node:=Node)) :
  (forall c,
      exists p',
        plan.GroupBy_WithChildren p [c] = Ok p'
        /\ plan.GroupBy_Children p' = [c]
        /\ plan.GroupBy_Expressions p' = plan.GroupBy_Expressions p
        /\ plan.GroupBy_Schema exprName exprString exprTable exprType
             exprIsNullable p'
           = plan.GroupBy_Schema exprName exprString exprTable exprType
               exprIsNullable p)
  /\ (forall exprs,
        length exprs = length (plan.GroupBy_Expressions p) ->
        exists p',
          plan.GroupBy_WithExpressions p exprs = Ok p'
          /\ plan.GroupBy_Expressions p' = exprs
          /\ plan.GroupBy_Children p' = plan.GroupBy_Children p
          /\ length (plan.SelectedExprs p') = length (plan.SelectedExprs p)
          /\ length (plan.GroupByExprs p') = length (plan.GroupByExprs p)).
Proof.
  split.
  - intros c. eexists. split; [reflexivity|]. repeat split.
  - intros exprs Hlen. rewrite GroupBy_WithExpressions_spec.
    unfold plan.GroupBy_Expressions in *. rewrite length_app in Hlen.
    destruct (decide _) as [_|Hne]; [|contradiction].
    eexists. split; [reflexivity|]. simpl.
    split; [apply take_drop|]. split; [reflexivity|].
    rewrite length_take, length_drop. lia.
Qed.

End GroupByShape.

Lemma rows_have_schema_width_witness :
  length [VInt64 2; VInt64 30]
  = length (plan.GroupBy_Schema (fun _ => None) (fun _ => "") (fun _ => None)
              (fun _ => tt) (fun _ => true) (sampleGroupBySum tableS1))
  /\ length [VInt64 2; VInt64 30]
     = length (plan.SelectedExprs (sampleGroupBySum tableS1)).
Proof.
  apply (rows_have_schema_width sampleTableIter
           (fun _ => None) (fun _ => "") (fun _ => None) (fun _ => tt)
           (fun _ => true) (sampleGroupBySum tableS1)
           (plan.IterGrouping
              (plan.newGroupByGroupingIter
                 [sampleGetField 0; plan.ExprAggregation (sampleSum 1)]
                 [sampleGetField 0] (plan.NextRow <$> tableS1)))
           3 [VInt64 2; VInt64 30]).
  - reflexivity.
  - vm_compute plan.nextN. apply list_elem_of_further, list_elem_of_here.
Defined.

Lemma GroupBy_rebuild_frames_witness :
  exists p',
    plan.GroupBy_WithExpressions (sampleGroupBySum tableS1)
      [plan.ExprAggregation sampleCount; sampleGetField 1; sampleGetField 0]
    = Ok p'
    /\ plan.GroupBy_Expressions p'
       = [plan.ExprAggregation sampleCount; sampleGetField 1; sampleGetField 0]
    /\ plan.GroupBy_Children p' = [tableS1].
Proof.
  destruct (proj2 (GroupBy_rebuild_frames (fun _ => None) (fun _ => "")
                     (fun _ => None) (fun _ => tt) (fun _ => true)
                     (sampleGroupBySum tableS1))
              [plan.ExprAggregation sampleCount; sampleGetField 1;
               sampleGetField 0] eq_refl)
    as (p' & Hw & He & Hc & _).
  exists p'. split; [exact Hw|]. split; [exact He|exact Hc].
Defined.

(** ** Lifting EXPLODE, continued *)

Section GeneratorMore.
Context {SqlType : Type}
        (IsArray : SqlType -> bool)
        (UnderlyingType : SqlType -> SqlType)
        (typeString : SqlType -> string).

Implicit Types (e ge : analyzer.Expression (SqlType:=SqlType)).
Implicit Types (es pre suf : list (analyzer.Expression (SqlType:=SqlType))).
Implicit Types (n : analyzer.Node (SqlType:=SqlType)).

Local Abbreviation Type_ := (analyzer.Type_ UnderlyingType).
Local Abbreviation findGeneratorFrom :=
  (analyzer.findGeneratorFrom IsArray UnderlyingType typeString).
Local Abbreviation resolveGeneratorsNode :=
  (analyzer.resolveGeneratorsNode IsArray UnderlyingType typeString).
Local Abbreviation resolveGenerators :=
  (analyzer.resolveGenerators IsArray UnderlyingType typeString).

Lemma generatorOf_inv e :
  match analyzer.generatorOf e with
  | None => explodeArgument e = None
  | Some ge =>
      exists arg, explodeArgument e = Some arg /\ ge = lifted e
                  /\ Type_ ge = Type_ arg
  end.
Proof.
  destruct e as [c|c|name c|? ? ? ?|? ? ?]; simpl; try reflexivity.
  - exists c. repeat split.
  - destruct c; simpl; try reflexivity. eexists. repeat split.
Qed.


(** What a successful scan of the projections has seen: no EXPLODE, or,
    starting without a generator, exactly one, with an array argument. *)
Lemma findGeneratorFrom_Ok es : forall i g g',
  findGeneratorFrom i g es = Ok g' ->
  (Forall (fun e => explodeArgument e = None) es /\ g' = g)
  \/ ((analyzer.idx g < 0)%Z
      /\ exists pre e suf arg,
           es = pre ++ e :: suf
           /\ Forall (fun e => explodeArgument e = None) pre
           /\ Forall (fun e => explodeArgument e = None) suf
           /\ explodeArgument e = Some arg
           /\ IsArray (Type_ arg) = true
           /\ g' = {| analyzer.idx := Z.of_nat (i + length pre);
                      analyzer.expr := Some (lifted e) |}).
Proof.
  induction es as [|e es IH]; intros i g g'; simpl.
  - intros [= <-]. left. split; [constructor|reflexivity].
  - pose proof (generatorOf_inv e) as He.
    destruct (analyzer.generatorOf e) as [ge|].
    + destruct He as (arg & Harg & -> & Hty).
      destruct (decide (0 ≤ analyzer.idx g)%Z) as [|Hneg]; [discriminate|].
      destruct (IsArray (Type_ (lifted e))) eqn:Harr; simpl; [|discriminate].
      intros Hrest. apply IH in Hrest as [[Hnone ->]|[Hlt _]].
      * right. split; [lia|].
        exists [], e, es, arg. simpl. rewrite Nat.add_0_r.
        rewrite Hty in Harr. repeat split; auto.
      * simpl in Hlt. lia.
    + intros Hrest. apply IH in Hrest as [[Hnone ->]|[Hlt Hone]].
      * left. split; [constructor; assumption|reflexivity].
      * right. split; [exact Hlt|].
        destruct Hone as (pre & e1 & suf & arg & -> & Hpre & Hsuf & Harg & Harr & ->).
        exists (e :: pre), e1, suf, arg. simpl.
        replace (i + S (length pre))%nat with (S i + length pre)%nat by lia.
        repeat split; auto.
Qed.

(** What a successful run of the rule on a Project node has found. *)
Lemma resolveGeneratorsNode_Project_inv (child : analyzer.Node) es n' :
  resolveGeneratorsNode (analyzer.Project es child) = Ok n' ->
  (Forall (fun e => explodeArgument e = None) es
   /\ n' = analyzer.Project es child)
  \/ (exists pre e suf arg,
        es = pre ++ e :: suf
        /\ Forall (fun e => explodeArgument e = None) pre
        /\ Forall (fun e => explodeArgument e = None) suf
        /\ explodeArgument e = Some arg
        /\ IsArray (Type_ arg) = true
        /\ n' = analyzer.NodeGenerate
                  (analyzer.Project (pre ++ lifted e :: suf) child)
                  (analyzer.GetField (Z.of_nat (length pre)) (Type_ arg)
                     (columnName (lifted e))
                     (analyzer.IsNullable (lifted e)))).
Proof.
  simpl. unfold analyzer.findGenerator, mbind, result_bind.
  destruct (findGeneratorFrom 0 _ es) as [g|] eqn:Hfind; simpl; [|discriminate].
  apply findGeneratorFrom_Ok in Hfind
    as [[Hnone ->]|[_ (pre & e & suf & arg & -> & Hpre & Hsuf & Harg & Harr & ->)]].
  - simpl. intros [= <-]. left. split; [exact Hnone|reflexivity].
  - simpl. rewrite Nat2Z.id.
    destruct (decide _) as [_|Hge];
      [|rewrite length_app in Hge; simpl in Hge; lia].
    intros [= <-]. right. exists pre, e, suf, arg.
    repeat split; try assumption.
    destruct (generatorOf_Some UnderlyingType e arg Harg) as [_ Hty].
    rewrite Hty. unfold columnName.
    rewrite insert_app_r_alt, Nat.sub_diag by lia. reflexivity.
Qed.

(** X6.  The rule succeeds on a Project node in two cases only: no
    projection is an EXPLODE and the node is returned as it is, or exactly
    one is, with an argument of array type, and the result is the Generate
    node over the Project with that one projection replaced.  So a result
    never has an EXPLODE left at the top of a projection, never lifts more
    than one, and keeps the number of projections and the child. *)
Theorem resolveGenerators_success (child : analyzer.Node) es n' :
  resolveGeneratorsNode (analyzer.Project es child) = Ok n' ->
  (Forall (fun e => explodeArgument e = None) es
   /\ n' = analyzer.Project es child)
  \/ (exists pre e suf arg,
        es = pre ++ e :: suf
        /\ Forall (fun e => explodeArgument e = None) pre
        /\ Forall (fun e => explodeArgument e = None) suf
        /\ explodeArgument e = Some arg
        /\ IsArray (Type_ arg) = true
        /\ n' = analyzer.NodeGenerate
                  (analyzer.Project (pre ++ lifted e :: suf) child)
                  (analyzer.GetField (Z.of_nat (length pre)) (Type_ arg)
                     (columnName (lifted e))
                     (analyzer.IsNullable (lifted e)))).
Proof. apply resolveGeneratorsNode_Project_inv. Qed.





End GeneratorMore.

Lemma resolveGenerators_success_witness :
  exists pre e suf arg,
    [colInt; analyzer.Alias "x" (analyzer.Explode colArray)] = pre ++ e :: suf
    /\ explodeArgument e = Some arg
    /\ sampleIsArray (analyzer.Type_ sampleUnderlyingType arg) = true.
Proof.
  destruct (resolveGenerators_success sampleIsArray sampleUnderlyingType
              sampleTypeString (analyzer.NodeLeaf "t")
              [colInt; analyzer.Alias "x" (analyzer.Explode colArray)]
              (analyzer.NodeGenerate
                 (analyzer.Project
                    [colInt; analyzer.Alias "x" (analyzer.Generate colArray)]
                    (analyzer.NodeLeaf "t"))
                 (analyzer.GetField 1 (TArray TInt64) "x" false)))
    as [[Hnone Heq]|(pre & e & suf & arg & Hes & _ & _ & Harg & Harr & _)].
  - reflexivity.
  - discriminate Heq.
  - exists pre, e, suf, arg. split; [exact Hes|]. split; [exact Harg|exact Harr].
Defined.


(** ** Printing: the replication statement and the join types *)

Section Printing.

Lemma string_append_assoc (a b c : string) :
  String.append (String.append a b) c = String.append a (String.append b c).
Proof.
  induction a as [|ch a IH]; [reflexivity|].
  exact (f_equal (String ch) IH).
Qed.



(** Past the first option, each option is written after a separator:
    with [o0] the option written last, the builder ends up holding the
    joined options from [o0] on. *)
Lemma writeOptions_later (options : list plan.ReplicationOption) :
  forall o0 i sb,
  (0 < i)%nat ->
  plan.writeOptions i
    (String.append sb
       (String.append (plan.Name o0) (String.append " = " (plan.Value o0))))
    options
  = String.append sb
      (String.concat ", "
         (map (fun o => String.append (plan.Name o)
                          (String.append " = " (plan.Value o)))
              (o0 :: options))).
Proof.
  induction options as [|o options IH]; intros o0 i sb Hi.
  - reflexivity.
  - cbn [plan.writeOptions].
    destruct (decide (0 < i)%nat) as [_|]; [|contradiction].
    rewrite !(string_append_assoc _ _ (plan.Value o)).
    rewrite !(string_append_assoc _ (plan.Name o)).
    rewrite IH by lia.
    cbn [map String.concat]. rewrite !string_append_assoc. reflexivity.
Qed.

(** X8.  The text of a CHANGE REPLICATION SOURCE statement is the keyword
    followed by its options, each written [name = value], separated by a
    comma and a space, in order. *)
Theorem ChangeReplicationSource_String_spec (c : plan.ChangeReplicationSource) :
  plan.ChangeReplicationSource_String c
  = String.append "CHANGE REPLICATION SOURCE TO "
      (String.concat ", "
         (map (fun o => String.append (plan.Name o)
                          (String.append " = " (plan.Value o)))
              (plan.Options c))).
Proof.
  unfold plan.ChangeReplicationSource_String.
  destruct (plan.Options c) as [|o options]; [reflexivity|].
  cbn [plan.writeOptions].
  destruct (decide (0 < 0)%nat) as [Hlt|_]; [lia|].
  rewrite !(string_append_assoc _ _ (plan.Value o)).
  rewrite !(string_append_assoc _ (plan.Name o)).
  apply writeOptions_later. lia.
Qed.





End Printing.


(** ** The date functions *)

Section DateProperties.
Context {V Time Delta Interval Clock Row : Type}
        (DatetimeConvert : V -> result Time)
        (ValidateTime : Time -> option V)
        (Float64Convert : Z -> result (option V))
        (Unix : Time -> Z)
        (deltaAdd deltaSub : Delta -> Time -> Time)
        (EvalDelta : Interval -> Row -> result (option Delta))
        (IntervalEval : Interval -> Row -> result (option V))
        (runClock : Clock -> Time)
        (defaultClock : Clock)
        (ErrInvalidArgumentNumber : string -> nat -> nat -> error).

Implicit Types (date : function.Expression (V:=V) (Interval:=Interval)
                         (Clock:=Clock) (Row:=Row)).
Implicit Types (i : Interval) (row : Row).

Local Abbreviation Expr :=
  (function.Expression (V:=V) (Interval:=Interval) (Clock:=Clock) (Row:=Row)).
Local Abbreviation Eval :=
  (function.Eval DatetimeConvert ValidateTime Float64Convert Unix deltaAdd
     deltaSub EvalDelta IntervalEval runClock).
Local Abbreviation NewDateAdd := (function.NewDateAdd ErrInvalidArgumentNumber).
Local Abbreviation NewDateSub := (function.NewDateSub ErrInvalidArgumentNumber).
Local Abbreviation NewUnixTimestamp :=
  (function.NewUnixTimestamp defaultClock ErrInvalidArgumentNumber).

(** The constructors check their arguments: DATE_ADD and DATE_SUB
    take exactly two, of which the second must be an interval (a wrong
    number is reported first), and UNIX_TIMESTAMP takes none or one; with
    the right arguments they build the expression that holds them. *)
Lemma date_constructors (args : list Expr) :
  NewDateAdd args
  = match args with
    | [date; function.ExprInterval i] => Ok (function.DateAdd date i)
    | [_; _] =>
        Fail (ErrorString "DATE_ADD expects an interval as second parameter")
    | _ => Fail (ErrInvalidArgumentNumber "DATE_ADD" 2 (length args))
    end
  /\ NewDateSub args
     = match args with
       | [date; function.ExprInterval i] => Ok (function.DateSub date i)
       | [_; _] =>
           Fail (ErrorString "DATE_SUB expects an interval as second parameter")
       | _ => Fail (ErrInvalidArgumentNumber "DATE_SUB" 2 (length args))
       end
  /\ NewUnixTimestamp args
     = match args with
       | [] => Ok (function.UnixTimestamp defaultClock None)
       | [date] => Ok (function.UnixTimestamp defaultClock (Some date))
       | _ => Fail (ErrInvalidArgumentNumber "UNIX_TIMESTAMP" 1 (length args))
       end.
Proof.
  unfold function.NewDateAdd, function.NewDateSub, function.NewUnixTimestamp.
  destruct args as [|a [|b [|c args]]]; simpl; repeat split;
    try reflexivity; destruct b; reflexivity.
Qed.

(** X10.  Rebuilding DATE_ADD or DATE_SUB from its own children gives the
    expression back.  Rebuilding UNIX_TIMESTAMP from its own children keeps
    its argument but takes the default clock: without an argument the
    rebuilt expression evaluates to the time of the default clock, whatever
    clock the expression had. *)
Theorem date_WithChildren_of_Children :
  (forall date i,
      function.DateAdd_WithChildren ErrInvalidArgumentNumber date i
        (function.DateAdd_Children date i) = Ok (function.DateAdd date i)
      /\ function.DateSub_WithChildren ErrInvalidArgumentNumber date i
           (function.DateSub_Children date i) = Ok (function.DateSub date i))
  /\ (forall (clock : Clock) (arg : option Expr),
        function.UnixTimestamp_WithChildren defaultClock
          ErrInvalidArgumentNumber clock arg
          (function.UnixTimestamp_Children arg)
        = Ok (function.UnixTimestamp defaultClock arg))
  /\ (forall (clock : Clock) row,
        Eval (function.UnixTimestamp clock None) row
        = Float64Convert (Unix (runClock clock))
        /\ forall e',
             function.UnixTimestamp_WithChildren defaultClock
               ErrInvalidArgumentNumber clock (None : option Expr)
               (function.UnixTimestamp_Children None) = Ok e' ->
             Eval e' row = Float64Convert (Unix (runClock defaultClock))).
Proof.
  split; [|split].
  - intros date i. split; reflexivity.
  - intros clock [d|]; reflexivity.
  - intros clock row. split; [reflexivity|].
    intros e' [= <-]. reflexivity.
Qed.

(** X11.  Evaluation of DATE_ADD and DATE_SUB.  An error of the date
    expression is returned as it is; a NULL date gives NULL without the
    interval being looked at (even one whose evaluation fails); then come,
    in this order, the error of the conversion to a datetime, the error of
    the interval, and NULL for a NULL interval.  Otherwise the result is
    the validated sum, respectively difference.  So the two functions fail
    on the same rows with the same errors, and UNIX_TIMESTAMP of a NULL or
    failing argument is NULL, respectively fails with the same error. *)
Theorem date_arith_Eval date i row :
  Eval (function.DateAdd date i) row
  = match Eval date row with
    | Fail err => Fail err
    | Ok None => Ok None
    | Ok (Some dv) =>
        match DatetimeConvert dv, EvalDelta i row with
        | Fail err, _ => Fail err
        | Ok _, Fail err => Fail err
        | Ok _, Ok None => Ok None
        | Ok t, Ok (Some delta) => Ok (ValidateTime (deltaAdd delta t))
        end
    end
  /\ Eval (function.DateSub date i) row
     = match Eval date row with
       | Fail err => Fail err
       | Ok None => Ok None
       | Ok (Some dv) =>
           match DatetimeConvert dv, EvalDelta i row with
           | Fail err, _ => Fail err
           | Ok _, Fail err => Fail err
           | Ok _, Ok None => Ok None
           | Ok t, Ok (Some delta) => Ok (ValidateTime (deltaSub delta t))
           end
       end
  /\ (forall err,
        Eval (function.DateAdd date i) row = Fail err
        <-> Eval (function.DateSub date i) row = Fail err)
  /\ (forall (clock : Clock),
        (Eval date row = Ok None ->
         Eval (function.UnixTimestamp clock (Some date)) row = Ok None)
        /\ (forall err,
              Eval date row = Fail err ->
              Eval (function.UnixTimestamp clock (Some date)) row = Fail err)).
Proof.
  cbn [function.Eval]. unfold function.evalDateArith.
  destruct (Eval date row) as [[dv|]|err0]; simpl.
  - destruct (DatetimeConvert dv) as [t|err1];
      destruct (EvalDelta i row) as [[delta|]|err2]; simpl;
      repeat split; auto; try discriminate.
  - repeat split; auto; discriminate.
  - repeat split; auto; try discriminate; intros err [= <-]; reflexivity.
Qed.

End DateProperties.

Lemma date_arith_Eval_witness :
  sampleDateEval
    (function.DateAdd (sampleColumn 0) (Some 86400)) [Some 1000; None]
  = Ok (Some 87400)
  /\ sampleDateEval
       (function.DateSub (sampleColumn 0) (Some 86400)) [Some 1000; None]
     = Ok None
  /\ sampleDateEval
       (function.DateAdd (sampleColumn 1) (Some 86400)) [Some 1000; None]
     = Ok None.
Proof.
  unfold sampleDateEval.
  split; [|split].
  - rewrite (proj1 (date_arith_Eval _ _ _ _ _ _ _ _ _ _ _ _)).
    reflexivity.
  - rewrite (proj1 (proj2 (date_arith_Eval _ _ _ _ _ _ _ _ _ _ _ _))).
    reflexivity.
  - rewrite (proj1 (date_arith_Eval _ _ _ _ _ _ _ _ _ _ _ _)).
    reflexivity.
Defined.

(** ** The process list, continued *)

Section ProcessListInvariant.

Implicit Types (w : sqle.World) (p : sqle.Process).

Lemma processOfPid_Some w pid p :
  sqle.processOfPid w pid = Some p ->
  exists id, sqle.byQueryPid w !! pid = Some id /\ sqle.procs w !! id = Some p.
Proof.
  unfold sqle.processOfPid.
  destruct (sqle.byQueryPid w !! pid) as [id|]; [|discriminate]. eauto.
Qed.

(** The invariant reads the processes, the two kinds of maps and the next
    address only. *)
Lemma consistent_ext w w' :
  sqle.procs w' = sqle.procs w ->
  sqle.tableMaps w' = sqle.tableMaps w ->
  sqle.partitionMaps w' = sqle.partitionMaps w ->
  sqle.nextRef w' = sqle.nextRef w ->
  consistent w -> consistent w'.
Proof.
  intros Hp Ht Hq Hn [H1 H2 H3 H4 H5 H5s H6 H7].
  constructor; rewrite ?Hp, ?Ht, ?Hq, ?Hn; assumption.
Qed.

Lemma consistent_new : consistent sqle.NewProcessList.
Proof.
  constructor; simpl; intros *; rewrite ?lookup_empty;
    try discriminate; intros [? ?]; discriminate.
Qed.

(** A process that runs no query may be filed under its own id. *)
Lemma consistent_insert_idle w id p :
  consistent w ->
  sqle.Connection p = id ->
  sqle.Command p <> sqle.ProcessCommandQuery ->
  sqle.Kill p = None ->
  sqle.Process_Progress p = None ->
  sqle.QueryPid p = 0%N ->
  consistent (sqle.setProcs w (<[id := p]> (sqle.procs w))).
Proof.
  intros [H1 H2 H3 H4 H5 H5s H6 H7] Hc Hq Hk Hm Hpid.
  constructor; simpl; try assumption.
  - intros id' p' [[<- <-]|[_ Hp]]%lookup_insert_Some; eauto.
  - intros id' p' [[<- <-]|[_ Hp]]%lookup_insert_Some; [|eauto].
    rewrite Hk, Hm. repeat split; try done; intros [? ?]; discriminate.
  - intros id' p' r [[<- <-]|[_ Hp]]%lookup_insert_Some Hr;
      [congruence|eauto].
  - intros id1 id2 p1 p2 r [[<- <-]|[_ Hp1]]%lookup_insert_Some
      [[<- <-]|[_ Hp2]]%lookup_insert_Some Hr1 Hr2; try congruence; eauto.
Qed.

Lemma consistent_delete w id :
  consistent w -> consistent (sqle.setProcs w (delete id (sqle.procs w))).
Proof.
  intros [H1 H2 H3 H4 H5 H5s H6 H7]. constructor; simpl; try assumption.
  - intros id' p' [_ Hp]%lookup_delete_Some. eauto.
  - intros id' p' [_ Hp]%lookup_delete_Some. eauto.
  - intros id' p' r [_ Hp]%lookup_delete_Some. eauto.
  - intros id1 id2 p1 p2 r [_ Hp1]%lookup_delete_Some
      [_ Hp2]%lookup_delete_Some. eauto.
Qed.

Lemma consistent_makePartitionMap w :
  consistent w -> consistent (snd (sqle.makePartitionMap w)).
Proof.
  intros [H1 H2 H3 H4 H5 H5s H6 H7]. constructor; simpl; try assumption.
  - intros r m name tp Hm Htp.
    destruct (H5 r m name tp Hm Htp) as (r' & Hr' & Hs).
    exists r'. split; [exact Hr'|]. apply lookup_insert_is_Some'. by right.
  - intros r Hr. specialize (H6 r Hr). lia.
  - intros r [<-|Hr]%lookup_insert_is_Some'; [lia|].
    specialize (H7 r Hr). lia.
Qed.

(** Writing an entry that has a partition map into a progress map that
    exists; writing into, and deleting from, maps that exist. *)
Lemma consistent_tableMapStore w r name tp w' :
  consistent w ->
  is_Some (sqle.tableMaps w !! r) ->
  (exists r', sqle.PartitionsProgress tp = Some r'
              /\ is_Some (sqle.partitionMaps w !! r')) ->
  (forall r2 m2 n2 tp2,
     sqle.tableMaps w !! r2 = Some m2 -> m2 !! n2 = Some tp2 ->
     sqle.PartitionsProgress tp2 = sqle.PartitionsProgress tp ->
     r2 = r /\ n2 = name) ->
  sqle.tableMapStore w (Some r) name tp = Ok w' ->
  consistent w'.
Proof.
  intros [H1 H2 H3 H4 H5 H5s H6 H7] [m0 Hm0] Htp Huniq [= <-].
  assert (Hold : forall r1 m1 n1 tp1,
            <[r := <[name := tp]> m0]> (sqle.tableMaps w) !! r1 = Some m1 ->
            m1 !! n1 = Some tp1 ->
            (r1 = r /\ n1 = name /\ tp1 = tp)
            \/ exists m, sqle.tableMaps w !! r1 = Some m
                         /\ m !! n1 = Some tp1).
  { intros r1 m1 n1 tp1 [[<- <-]|[_ Hm]]%lookup_insert_Some; [|eauto].
    intros [[<- <-]|[_ Hn]]%lookup_insert_Some; eauto. }
  constructor; simpl; rewrite ?Hm0; simpl; try assumption.
  - intros id p r0 Hp Hr0. apply lookup_insert_is_Some'. right. eauto.
  - intros r0 m n tp0 Hm Hn.
    destruct (Hold _ _ _ _ Hm Hn) as [(-> & -> & ->)|(m' & Hm' & Hn')]; eauto.
  - intros r1 r2 m1 m2 n1 n2 tp1 tp2 r' Hm1 Hn1 Hm2 Hn2 Hp1 Hp2.
    destruct (Hold _ _ _ _ Hm1 Hn1) as [(-> & -> & ->)|(m1' & Hm1' & Hn1')];
      destruct (Hold _ _ _ _ Hm2 Hn2) as [(-> & -> & ->)|(m2' & Hm2' & Hn2')].
    + done.
    + destruct (Huniq r2 m2' n2 tp2 Hm2' Hn2') as [-> ->]; [congruence|done].
    + destruct (Huniq r1 m1' n1 tp1 Hm1' Hn1') as [-> ->]; [congruence|done].
    + exact (H5s _ _ _ _ _ _ _ _ _ Hm1' Hn1' Hm2' Hn2' Hp1 Hp2).
  - intros r0 [<-|Hr0]%lookup_insert_is_Some'; eauto.
Qed.

Lemma consistent_tableMapDelete w r name :
  consistent w ->
  is_Some (sqle.tableMaps w !! r) ->
  consistent (sqle.tableMapDelete w (Some r) name).
Proof.
  intros [H1 H2 H3 H4 H5 H5s H6 H7] [m0 Hm0].
  assert (Hold : forall r1 m1 n1 tp1,
            <[r := delete name m0]> (sqle.tableMaps w) !! r1 = Some m1 ->
            m1 !! n1 = Some tp1 ->
            exists m, sqle.tableMaps w !! r1 = Some m /\ m !! n1 = Some tp1).
  { intros r1 m1 n1 tp1 [[<- <-]|[_ Hm]]%lookup_insert_Some; [|eauto].
    intros [_ Hn]%lookup_delete_Some. eauto. }
  constructor; simpl; rewrite ?Hm0; simpl; try assumption.
  - intros id p r0 Hp Hr0. apply lookup_insert_is_Some'. right. eauto.
  - intros r0 m n tp0 Hm Hn.
    destruct (Hold _ _ _ _ Hm Hn) as (m' & Hm' & Hn'). eauto.
  - intros r1 r2 m1 m2 n1 n2 tp1 tp2 r' Hm1 Hn1 Hm2 Hn2 Hp1 Hp2.
    destruct (Hold _ _ _ _ Hm1 Hn1) as (m1' & Hm1' & Hn1').
    destruct (Hold _ _ _ _ Hm2 Hn2) as (m2' & Hm2' & Hn2').
    exact (H5s _ _ _ _ _ _ _ _ _ Hm1' Hn1' Hm2' Hn2' Hp1 Hp2).
  - intros r0 [<-|Hr0]%lookup_insert_is_Some'; eauto.
Qed.

Lemma consistent_partitionMapStore w r name v w' :
  consistent w ->
  is_Some (sqle.partitionMaps w !! r) ->
  sqle.partitionMapStore w (Some r) name v = Ok w' ->
  consistent w'.
Proof.
  intros [H1 H2 H3 H4 H5 H5s H6 H7] Hr [= <-].
  constructor; simpl; try assumption.
  - intros r0 m name0 tp0 Hm Htp.
    destruct (H5 _ _ _ _ Hm Htp) as (r' & Hr' & Hs).
    exists r'. split; [exact Hr'|]. apply lookup_insert_is_Some'. by right.
  - intros r0 [<-|Hr0]%lookup_insert_is_Some'; eauto.
Qed.

Lemma consistent_partitionMapDelete w r name :
  consistent w ->
  is_Some (sqle.partitionMaps w !! r) ->
  consistent (sqle.partitionMapDelete w (Some r) name).
Proof.
  intros [H1 H2 H3 H4 H5 H5s H6 H7] Hr.
  constructor; simpl; try assumption.
  - intros r0 m name0 tp0 Hm Htp.
    destruct (H5 _ _ _ _ Hm Htp) as (r' & Hr' & Hs).
    exists r'. split; [exact Hr'|]. apply lookup_insert_is_Some'. by right.
  - intros r0 [<-|Hr0]%lookup_insert_is_Some'; eauto.
Qed.

(** [BeginQuery] gives the process a kill func and a new, empty progress
    map, at an address that was not in use. *)
Lemma consistent_BeginQuery w ctx query now ctx' w' :
  consistent w ->
  sqle.BeginQuery w ctx query now = Ok (ctx', w') ->
  consistent w'.
Proof.
  intros [H1 H2 H3 H4 H5 H5s H6 H7]. unfold sqle.BeginQuery.
  destruct (sqle.procs w !! sqle.ID (sqle.ctx_Session ctx)) as [p|] eqn:Hp;
    [|discriminate].
  destruct (sqle.byQueryPid w !! sqle.Pid ctx); [discriminate|].
  simpl. intros [= <- <-]. constructor; simpl.
  - intros id' p' [[<- <-]|[_ Hp']]%lookup_insert_Some; simpl; eauto.
  - intros id' p' [[<- <-]|[_ Hp']]%lookup_insert_Some; simpl; [|eauto].
    repeat split; eauto; discriminate.
  - intros id' p' r [[<- <-]|[_ Hp']]%lookup_insert_Some Hr;
      apply lookup_insert_is_Some'; [left; simpl in Hr; congruence|].
    right. eauto.
  - assert (Hfresh : forall id' p',
              sqle.procs w !! id' = Some p' ->
              sqle.Process_Progress p' <> Some (Pos.succ (sqle.nextRef w))).
    { intros id' p' Hp' Hr. specialize (H6 _ (H3 _ _ _ Hp' Hr)). lia. }
    intros id1 id2 p1 p2 r [[<- <-]|[_ Hp1]]%lookup_insert_Some
      [[<- <-]|[_ Hp2]]%lookup_insert_Some; simpl; intros Hr1 Hr2;
      try reflexivity; try (exfalso; eapply Hfresh; eauto; congruence).
    eauto.
  - intros r m name tp [[<- <-]|[_ Hm]]%lookup_insert_Some;
      [rewrite lookup_empty; discriminate|eauto].
  - intros r1 r2 m1 m2 n1 n2 tp1 tp2 r'
      [[<- <-]|[_ Hm1]]%lookup_insert_Some; [rewrite lookup_empty; done|].
    intros Hn1 [[<- <-]|[_ Hm2]]%lookup_insert_Some;
      [rewrite lookup_empty; done|].
    intros Hn2 Hp1 Hp2.
    exact (H5s _ _ _ _ _ _ _ _ _ Hm1 Hn1 Hm2 Hn2 Hp1 Hp2).
  - intros r [<-|Hr]%lookup_insert_is_Some'; [lia|].
    specialize (H6 r Hr). lia.
  - intros r Hr. specialize (H7 r Hr). lia.
Qed.

(** What the invariant gives for the process of a pid. *)
Lemma consistent_progress_map w pid p r :
  consistent w ->
  sqle.processOfPid w pid = Some p ->
  sqle.Process_Progress p = Some r ->
  exists m, sqle.tableMaps w !! r = Some m
            /\ sqle.tableMapOf w (sqle.Process_Progress p) = m.
Proof.
  intros Hw (id & _ & Hp)%processOfPid_Some Hr.
  destruct (cons_tables w Hw id p r Hp Hr) as [m Hm].
  exists m. split; [exact Hm|]. rewrite Hr. simpl. rewrite Hm. reflexivity.
Qed.

Lemma consistent_partition_map w pid p name tp :
  consistent w ->
  sqle.processOfPid w pid = Some p ->
  sqle.tableMapOf w (sqle.Process_Progress p) !! name = Some tp ->
  exists r', sqle.PartitionsProgress tp = Some r'
             /\ is_Some (sqle.partitionMaps w !! r').
Proof.
  intros Hw Hp Htp.
  destruct (sqle.Process_Progress p) as [r|] eqn:Hr;
    [|simpl in Htp; rewrite lookup_empty in Htp; discriminate].
  destruct (consistent_progress_map w pid p r Hw Hp Hr) as (m & Hm & Heq).
  rewrite Hr in Heq. rewrite Heq in Htp.
  exact (cons_partitions w Hw r m name tp Hm Htp).
Qed.

(** Storing, under [name], an entry that has the partition map of the
    entry that is there. *)
Lemma consistent_table_update w pid p name (tp tp' : sqle.TableProgress) w' :
  consistent w ->
  sqle.processOfPid w pid = Some p ->
  sqle.tableMapOf w (sqle.Process_Progress p) !! name = Some tp ->
  sqle.PartitionsProgress tp' = sqle.PartitionsProgress tp ->
  sqle.tableMapStore w (sqle.Process_Progress p) name tp' = Ok w' ->
  consistent w'.
Proof.
  intros Hw Hp Htp Heq Hst.
  destruct (consistent_partition_map w pid p name tp Hw Hp Htp)
    as (r' & Hr' & Hs).
  destruct (sqle.Process_Progress p) as [r|] eqn:Hr; [|discriminate].
  destruct (consistent_progress_map w pid p r Hw Hp Hr) as (m & Hm & Hmap).
  rewrite Hr in Hmap. rewrite Hmap in Htp.
  eapply consistent_tableMapStore; [exact Hw|eauto| | |exact Hst].
  - exists r'. split; [congruence|exact Hs].
  - intros r2 m2 n2 tp2 Hm2 Hn2 Hp2.
    apply (cons_partitions_separate w Hw r2 r m2 m n2 name tp2 tp r');
      congruence.
Qed.

(** Storing an entry made by [NewTableProgress]: its partition map is
    new. *)
Lemma consistent_table_new w pid p name (tp : sqle.TableProgress) w' :
  consistent w ->
  sqle.processOfPid w pid = Some p ->
  sqle.PartitionsProgress tp = Some (sqle.nextRef w) ->
  sqle.tableMapStore (snd (sqle.makePartitionMap w))
    (sqle.Process_Progress p) name tp = Ok w' ->
  consistent w'.
Proof.
  intros Hw Hp Hnew Hst.
  destruct (sqle.Process_Progress p) as [r|] eqn:Hr; [|discriminate].
  destruct (consistent_progress_map w pid p r Hw Hp Hr) as (m & Hm & _).
  eapply consistent_tableMapStore;
    [apply (consistent_makePartitionMap w Hw)|exact (ex_intro _ m Hm)
    | | |exact Hst].
  - eexists. split; [exact Hnew|]. simpl. rewrite lookup_insert_eq. eauto.
  - simpl. intros r2 m2 n2 tp2 Hm2 Hn2 Hp2. exfalso.
    destruct (cons_partitions w Hw r2 m2 n2 tp2 Hm2 Hn2) as (r' & Hr' & Hs).
    pose proof (cons_fresh_partitions w Hw r' Hs) as Hlt.
    rewrite Hr', Hnew in Hp2. injection Hp2 as ->. lia.
Qed.

(** Every operation that returns normally keeps the invariant. *)
Lemma consistent_step w w' : consistent w -> plStep w w' -> consistent w'.
Proof.
  intros Hw Hstep. destruct Hstep as
    [id addr now|sess now|connID|ctx query now ctx' w' Hb|ctx now w' He
    |pid name delta w' Hu|pid tn pn delta w' Hu|pid name total w' Hu
    |pid tn pn total w' Hu|pid name w' Hu|pid tn pn w' Hu|connID].
  - apply consistent_insert_idle; done.
  - apply consistent_insert_idle; done.
  - unfold sqle.RemoveConnection.
    destruct (sqle.procs w !! connID) as [p|]; [|exact Hw].
    apply consistent_delete.
    destruct (sqle.Kill p); eapply consistent_ext; try exact Hw; reflexivity.
  - eapply consistent_BeginQuery; eauto.
  - revert He. unfold sqle.EndQuery. simpl.
    destruct (sqle.procs w !! _) as [p|] eqn:Hp;
      [|intros [= <-]; eapply consistent_ext; try exact Hw; reflexivity].
    destruct (decide _);
      [|intros [= <-]; eapply consistent_ext; try exact Hw; reflexivity].
    destruct (sqle.Kill p) as [k|]; [|discriminate]. intros [= <-].
    apply (consistent_insert_idle
             (sqle.cancel (sqle.setByQueryPid w _) k)); try done.
    + eapply consistent_ext; try exact Hw; reflexivity.
    + simpl. exact (cons_connection w Hw _ _ Hp).
  - revert Hu. unfold sqle.UpdateTableProgress.
    destruct (sqle.processOfPid w pid) as [p|] eqn:Hp;
      [|intros [= <-]; exact Hw].
    destruct (sqle.tableMapOf w (sqle.Process_Progress p) !! name)
      as [tp|] eqn:Htp; simpl; intros Hst.
    + eapply (consistent_table_update w pid p name tp _ w' Hw Hp Htp);
        [|exact Hst]; reflexivity.
    + eapply (consistent_table_new w pid p name _ w' Hw Hp); [|exact Hst];
        reflexivity.
  - revert Hu. unfold sqle.UpdatePartitionProgress.
    destruct (sqle.processOfPid w pid) as [p|] eqn:Hp;
      [|intros [= <-]; exact Hw].
    destruct (sqle.tableMapOf w (sqle.Process_Progress p) !! tn)
      as [tp|] eqn:Htp; [|intros [= <-]; exact Hw].
    destruct (consistent_partition_map w pid p tn tp Hw Hp Htp)
      as (r' & Hr' & Hs).
    rewrite Hr'. intros Hst. eapply consistent_partitionMapStore; eauto.
  - revert Hu. unfold sqle.AddTableProgress.
    destruct (sqle.processOfPid w pid) as [p|] eqn:Hp;
      [|intros [= <-]; exact Hw].
    destruct (sqle.tableMapOf w (sqle.Process_Progress p) !! name)
      as [tp|] eqn:Htp; simpl; intros Hst.
    + eapply (consistent_table_update w pid p name tp _ w' Hw Hp Htp);
        [|exact Hst]; reflexivity.
    + eapply (consistent_table_new w pid p name _ w' Hw Hp); [|exact Hst];
        reflexivity.
  - revert Hu. unfold sqle.AddPartitionProgress.
    destruct (sqle.processOfPid w pid) as [p|] eqn:Hp;
      [|intros [= <-]; exact Hw].
    destruct (sqle.tableMapOf w (sqle.Process_Progress p) !! tn)
      as [tp|] eqn:Htp; [|intros [= <-]; exact Hw].
    destruct (consistent_partition_map w pid p tn tp Hw Hp Htp)
      as (r' & Hr' & Hs).
    rewrite Hr'.
    destruct (sqle.partitionMapOf w (Some r') !! pn); intros Hst;
      eapply consistent_partitionMapStore; eauto.
  - revert Hu. unfold sqle.RemoveTableProgress.
    destruct (sqle.processOfPid w pid) as [p|] eqn:Hp;
      [|intros [= <-]; exact Hw].
    intros [= <-].
    destruct (sqle.Process_Progress p) as [r|] eqn:Hr; [|exact Hw].
    destruct (consistent_progress_map w pid p r Hw Hp Hr) as (m & Hm & _).
    apply consistent_tableMapDelete; eauto.
  - revert Hu. unfold sqle.RemovePartitionProgress.
    destruct (sqle.processOfPid w pid) as [p|] eqn:Hp;
      [|intros [= <-]; exact Hw].
    destruct (sqle.tableMapOf w (sqle.Process_Progress p) !! tn)
      as [tp|] eqn:Htp; [|intros [= <-]; exact Hw].
    destruct (consistent_partition_map w pid p tn tp Hw Hp Htp)
      as (r' & Hr' & Hs).
    rewrite Hr'. intros [= <-]. apply consistent_partitionMapDelete; eauto.
  - unfold sqle.Kill_.
    destruct (sqle.procs w !! connID) as [p|]; [|exact Hw].
    destruct (sqle.Kill p); [|exact Hw].
    eapply consistent_ext; try exact Hw; reflexivity.
Qed.

Lemma reachable_consistent w : reachable w -> consistent w.
Proof.
  induction 1 as [|w w' _ IH Hstep];
    [apply consistent_new|exact (consistent_step w w' IH Hstep)].
Qed.

End ProcessListInvariant.

Section ProcessListMore.

Implicit Types (w : sqle.World) (p : sqle.Process).

(** The sample states are states of a process list. *)
Lemma reachable_worldReady : reachable worldReady.
Proof.
  unfold worldReady.
  eapply reachable_step; [eapply reachable_step; [apply reachable_new|]|];
    constructor.
Qed.

Lemma reachable_worldQuerying w : worldQuerying = Ok w -> reachable w.
Proof.
  assert (H0 : exists w0, worldQuerying = Ok w0 /\ reachable w0).
  { eexists. split; [vm_compute; reflexivity|].
    eapply reachable_step;
      [eapply reachable_step;
         [apply reachable_worldReady
         |eapply (step_BeginQuery _ sampleContext "SELECT foo" 2);
          vm_compute; reflexivity]
      |eapply (step_AddTableProgress _ 1%N "a" 5); vm_compute; reflexivity]. }
  destruct H0 as (w0 & Hw0 & Hr). intros Hw.
  assert (w = w0) as -> by congruence. exact Hr.
Qed.

Lemma reachable_worldStale w : worldStale = Ok w -> reachable w.
Proof.
  assert (H0 : exists w0, worldStale = Ok w0 /\ reachable w0).
  { eexists. split; [vm_compute; reflexivity|].
    eapply reachable_step;
      [eapply reachable_step;
         [apply reachable_worldReady
         |eapply (step_BeginQuery _ sampleContext "SELECT foo" 2);
          vm_compute; reflexivity]
      |].
    match goal with
    | |- plStep ?w0 _ =>
        change (plStep w0 (sqle.ConnectionReady w0 sampleSession 3))
    end.
    constructor. }
  destruct H0 as (w0 & Hw0 & Hr). intros Hw.
  assert (w = w0) as -> by congruence. exact Hr.
Qed.

Lemma reachable_worldTwoQueries w : worldTwoQueries = Ok w -> reachable w.
Proof.
  assert (H0 : exists w0, worldTwoQueries = Ok w0 /\ reachable w0).
  { eexists. split; [vm_compute; reflexivity|].
    eapply reachable_step;
      [eapply reachable_step;
         [eapply reachable_step;
            [eapply reachable_step;
               [eapply reachable_worldQuerying; vm_compute; reflexivity
               |apply (step_AddConnection _ 2%N "127.0.0.1:34568" 3)]
            |apply (step_ConnectionReady _ sampleSession2 4)]
         |eapply (step_BeginQuery _ sampleContext2 "SELECT bar" 5);
          vm_compute; reflexivity]
      |eapply (step_AddTableProgress _ 2%N "b" 7); vm_compute; reflexivity]. }
  destruct H0 as (w0 & Hw0 & Hr). intros Hw.
  assert (w = w0) as -> by congruence. exact Hr.
Qed.

(** X12.  In every state the operations lead to, [Processes] lists every
    connection once, each process under its own connection id; a listed
    process has a kill func exactly when its command is query, and
    exactly then it has a progress map; a process without a query has
    query pid 0. *)
Theorem Processes_lists_each_connection_once w :
  reachable w ->
  NoDup (sqle.Connection <$> sqle.Processes w)
  /\ (forall p,
        p ∈ sqle.Processes w <-> sqle.procs w !! sqle.Connection p = Some p)
  /\ (forall p,
        p ∈ sqle.Processes w ->
        (sqle.Command p = sqle.ProcessCommandQuery <-> is_Some (sqle.Kill p))
        /\ (sqle.Command p = sqle.ProcessCommandQuery
            <-> is_Some (sqle.Process_Progress p))
        /\ (sqle.Command p <> sqle.ProcessCommandQuery ->
            sqle.QueryPid p = 0%N)).
Proof.
  intros Hw%reachable_consistent.
  assert (Hin : forall p,
            p ∈ sqle.Processes w
            <-> sqle.procs w !! sqle.Connection p = Some p).
  { intros p. split.
    - unfold sqle.Processes. intros Hp.
      apply list_elem_of_In, in_map_iff in Hp as ([id p'] & <- & Hp).
      apply list_elem_of_In, elem_of_map_to_list in Hp. simpl.
      rewrite (cons_connection w Hw id p' Hp). exact Hp.
    - apply elem_of_Processes. }
  split; [|split; [exact Hin|]].
  - replace (sqle.Connection <$> sqle.Processes w)
      with ((map_to_list (sqle.procs w)).*1);
      [apply NoDup_fst_map_to_list|].
    unfold sqle.Processes. unfold fmap, list_fmap at 1. rewrite map_map.
    apply map_ext_in. intros [id p] Hp. simpl.
    apply list_elem_of_In, elem_of_map_to_list in Hp.
    symmetry. exact (cons_connection w Hw id p Hp).
  - intros p Hp%Hin.
    destruct (cons_command w Hw _ p Hp) as (Hq & Hk & Hz).
    split; [exact Hq|]. split; [rewrite Hq; exact Hk|].
    intros Hnq. apply Hz. destruct (sqle.Kill p) as [k|]; [|reflexivity].
    exfalso. apply Hnq, Hq. eauto.
Qed.

(** In a state of a process list, the process of a pid runs a query
    exactly when it has a progress map, which then exists. *)
Lemma running_has_map w pid p :
  consistent w ->
  sqle.processOfPid w pid = Some p ->
  (sqle.Command p = sqle.ProcessCommandQuery ->
     exists r, sqle.Process_Progress p = Some r)
  /\ (sqle.Command p <> sqle.ProcessCommandQuery ->
        sqle.Process_Progress p = None /\ sqle.Kill p = None
        /\ sqle.QueryPid p = 0%N).
Proof.
  intros Hw (id & _ & Hp)%processOfPid_Some.
  destruct (cons_command w Hw id p Hp) as (Hq & Hk & Hz). split.
  - intros Hc. apply Hk, Hq, Hc.
  - intros Hc.
    assert (Hkill : sqle.Kill p = None).
    { destruct (sqle.Kill p) as [k|] eqn:Hkk; [|reflexivity].
      exfalso. apply Hc, Hq. eauto. }
    split; [|split; [exact Hkill|exact (Hz Hkill)]].
    destruct (sqle.Process_Progress p) as [r|] eqn:Hr; [|reflexivity].
    assert (Hs : is_Some (sqle.Kill p)) by (apply Hk; eauto).
    rewrite Hkill in Hs. destruct Hs as [? ?]. discriminate.
Qed.

(** X13.  In every state the operations lead to: the partition
    operations and the two removals return normally for every pid;
    [UpdateTableProgress] and [AddTableProgress] return normally for the
    pid of a process that runs a query, and panic (write to a nil map)
    for a pid that the pid table sends to a process that runs none. *)
Theorem progress_operations_return w pid :
  reachable w ->
  ((forall tn pn delta,
      exists w', sqle.UpdatePartitionProgress w pid tn pn delta = Ok w')
   /\ (forall tn pn total,
         exists w', sqle.AddPartitionProgress w pid tn pn total = Ok w')
   /\ (forall name, exists w', sqle.RemoveTableProgress w pid name = Ok w')
   /\ (forall tn pn,
         exists w', sqle.RemovePartitionProgress w pid tn pn = Ok w'))
  /\ (forall p,
        sqle.processOfPid w pid = Some p ->
        sqle.Command p = sqle.ProcessCommandQuery ->
        (forall name delta,
           exists w', sqle.UpdateTableProgress w pid name delta = Ok w')
        /\ (forall name total,
              exists w', sqle.AddTableProgress w pid name total = Ok w'))
  /\ (forall p,
        sqle.processOfPid w pid = Some p ->
        sqle.Command p <> sqle.ProcessCommandQuery ->
        (forall name delta,
           sqle.UpdateTableProgress w pid name delta = Fail sqle.nilMapWrite)
        /\ (forall name total,
              sqle.AddTableProgress w pid name total
              = Fail sqle.nilMapWrite)).
Proof.
  intros Hw%reachable_consistent. split; [|split].
  - unfold sqle.UpdatePartitionProgress, sqle.AddPartitionProgress,
      sqle.RemoveTableProgress, sqle.RemovePartitionProgress.
    destruct (sqle.processOfPid w pid) as [p|] eqn:Hp;
      [|repeat split; intros; eauto].
    assert (Hpart : forall tn tp,
              sqle.tableMapOf w (sqle.Process_Progress p) !! tn = Some tp ->
              exists r', sqle.PartitionsProgress tp = Some r').
    { intros tn tp Htp.
      destruct (consistent_partition_map w pid p tn tp Hw Hp Htp)
        as (r' & Hr' & _). eauto. }
    repeat split; intros; eauto;
      destruct (sqle.tableMapOf w (sqle.Process_Progress p) !! tn)
        as [tp|] eqn:Htp; eauto;
      destruct (Hpart tn tp Htp) as [r' Hr']; rewrite Hr'; simpl; eauto.
    destruct (default ∅ (sqle.partitionMaps w !! r') !! pn); eauto.
  - intros p Hp Hc.
    destruct (proj1 (running_has_map w pid p Hw Hp) Hc) as [r Hr].
    unfold sqle.UpdateTableProgress, sqle.AddTableProgress.
    rewrite Hp, Hr. split; intros name x;
      destruct (sqle.tableMapOf w (Some r) !! name); simpl; eauto.
  - intros p Hp Hc.
    destruct (proj2 (running_has_map w pid p Hw Hp) Hc) as (Hr & _ & _).
    unfold sqle.UpdateTableProgress, sqle.AddTableProgress.
    rewrite Hp, Hr. simpl. split; intros; rewrite lookup_empty; reflexivity.
Qed.

(** X14.  In every state the operations lead to, [EndQuery] panics (call
    of a nil func) exactly when its context has pid 0 and its connection
    has a process that runs no query; otherwise it returns normally. *)
Theorem EndQuery_returns_unless_pid_zero w ctx now :
  reachable w ->
  (sqle.EndQuery w ctx now = Fail (RuntimePanic "call of nil func")
   <-> sqle.Pid ctx = 0%N
       /\ exists p, sqle.procs w !! sqle.ID (sqle.ctx_Session ctx) = Some p
                    /\ sqle.Command p <> sqle.ProcessCommandQuery)
  /\ ((exists w', sqle.EndQuery w ctx now = Ok w')
      \/ sqle.EndQuery w ctx now = Fail (RuntimePanic "call of nil func")).
Proof.
  intros Hw%reachable_consistent. unfold sqle.EndQuery. simpl.
  destruct (sqle.procs w !! sqle.ID (sqle.ctx_Session ctx)) as [p|] eqn:Hp.
  2:{ split; [|eauto]. split; [discriminate|].
      intros (_ & p & Hp' & _). discriminate. }
  destruct (cons_command w Hw _ p Hp) as (Hq & Hk & Hz).
  destruct (decide (sqle.QueryPid p = sqle.Pid ctx)) as [Hpid|Hpid].
  - destruct (sqle.Kill p) as [k|] eqn:Hkill.
    + split; [|eauto]. split; [discriminate|].
      intros (_ & p' & [= <-] & Hc). exfalso. apply Hc, Hq. eauto.
    + split; [|eauto]. split; [|reflexivity]. intros _.
      split; [rewrite <- Hpid; apply Hz; reflexivity|].
      exists p. split; [reflexivity|]. intros Hc%Hq.
      destruct Hc as [? ?]. discriminate.
  - split; [|eauto]. split; [discriminate|].
    intros (Hz0 & p' & [= <-] & Hc). exfalso. apply Hpid.
    rewrite Hz0. apply Hz.
    destruct (sqle.Kill p) as [k|]; [|reflexivity].
    exfalso. apply Hc, Hq. eauto.
Qed.

(** What a successful [BeginQuery] has done. *)
Lemma BeginQuery_Ok_inv w ctx query now ctx' w' :
  sqle.BeginQuery w ctx query now = Ok (ctx', w') ->
  exists p,
    sqle.procs w !! sqle.ID (sqle.ctx_Session ctx) = Some p
    /\ sqle.byQueryPid w !! sqle.Pid ctx = None
    /\ ctx' = {| sqle.ctx_Session := sqle.ctx_Session ctx;
                 sqle.Pid := sqle.Pid ctx;
                 sqle.cancelScopes := sqle.nextRef w :: sqle.cancelScopes ctx |}
    /\ w' = {| sqle.procs :=
                 <[sqle.ID (sqle.ctx_Session ctx) :=
                     {| sqle.Connection := sqle.Connection p;
                        sqle.Host := sqle.Host p; sqle.User := sqle.User p;
                        sqle.Command := sqle.ProcessCommandQuery;
                        sqle.Query := query; sqle.QueryPid := sqle.Pid ctx;
                        sqle.StartedAt := now;
                        sqle.Kill := Some (sqle.nextRef w);
                        sqle.Process_Progress :=
                          Some (Pos.succ (sqle.nextRef w)) |}]> (sqle.procs w);
               sqle.byQueryPid :=
                 <[sqle.Pid ctx := sqle.ID (sqle.ctx_Session ctx)]>
                   (sqle.byQueryPid w);
               sqle.tableMaps :=
                 <[Pos.succ (sqle.nextRef w) := ∅]> (sqle.tableMaps w);
               sqle.partitionMaps := sqle.partitionMaps w;
               sqle.cancelled := sqle.cancelled w;
               sqle.nextRef := Pos.succ (Pos.succ (sqle.nextRef w)) |}.
Proof.
  unfold sqle.BeginQuery.
  destruct (sqle.procs w !! sqle.ID (sqle.ctx_Session ctx)) as [p|];
    [|discriminate].
  destruct (sqle.byQueryPid w !! sqle.Pid ctx); [discriminate|].
  simpl. intros [= <- <-]. exists p. repeat split.
Qed.

(** X15.  The life of a pid.  After a successful [BeginQuery] the pid is
    bound to the query, and no query can begin under this pid, on any
    connection, until it is released.  [EndQuery] with the context that
    [BeginQuery] returned returns normally, cancels that context and
    releases the pid: it is bound to nothing, and [BeginQuery] with the
    first context succeeds again. *)
Theorem pid_in_use_until_EndQuery w ctx query now ctx' w' :
  sqle.BeginQuery w ctx query now = Ok (ctx', w') ->
  boundToLiveQuery w' (sqle.Pid ctx) = true
  /\ (forall ctx2 query2 now2,
        sqle.Pid ctx2 = sqle.Pid ctx ->
        is_Some (sqle.procs w' !! sqle.ID (sqle.ctx_Session ctx2)) ->
        sqle.BeginQuery w' ctx2 query2 now2
        = Fail (ErrPidAlreadyUsed (sqle.Pid ctx)))
  /\ (forall now', exists w'',
        sqle.EndQuery w' ctx' now' = Ok w''
        /\ boundToLiveQuery w'' (sqle.Pid ctx) = false
        /\ unboundPid w'' (sqle.Pid ctx)
        /\ contextCancelled w'' ctx'
        /\ forall query3 now3, exists ctx3 w3,
             sqle.BeginQuery w'' ctx query3 now3 = Ok (ctx3, w3)).
Proof.
  intros (p & Hp & Hpid & -> & ->)%BeginQuery_Ok_inv. split; [|split].
  - unfold boundToLiveQuery, sqle.processOfPid. simpl.
    rewrite !lookup_insert_eq. simpl.
    rewrite !bool_decide_eq_true_2 by reflexivity. reflexivity.
  - intros ctx2 query2 now2 Hpid2 [p2 Hp2]. unfold sqle.BeginQuery.
    rewrite Hp2, Hpid2. simpl. rewrite lookup_insert_eq. reflexivity.
  - intros now'. unfold sqle.EndQuery. simpl. rewrite lookup_insert_eq. simpl.
    destruct (decide _) as [_|Hne]; [|contradiction].
    eexists. split; [reflexivity|].
    assert (Hgone : forall A (m : gmap N A) (x : A),
              delete (sqle.Pid ctx) (<[sqle.Pid ctx := x]> m) !! sqle.Pid ctx
              = None) by (intros; apply lookup_delete_eq).
    split; [|split; [|split]].
    + unfold boundToLiveQuery, sqle.processOfPid. simpl.
      rewrite Hgone. reflexivity.
    + left. simpl. apply Hgone.
    + exists (sqle.nextRef w). simpl. split; [left|set_solver].
    + intros query3 now3. unfold sqle.BeginQuery. simpl.
      rewrite lookup_insert_eq, Hgone. simpl. eauto.
Qed.

(** X16.  Killing and removing.  After a successful [BeginQuery], [Kill]
    on the connection cancels the context of the query and leaves the
    process list as it is, the pid still bound; [RemoveConnection]
    cancels it too, removes the process and releases the pid, and
    [Processes] has one entry less.  On a connection that the process
    list does not know, both do nothing. *)
Theorem Kill_and_RemoveConnection_cancel w ctx query now ctx' w' :
  sqle.BeginQuery w ctx query now = Ok (ctx', w') ->
  (contextCancelled (sqle.Kill_ w' (sqle.ID (sqle.ctx_Session ctx))) ctx'
   /\ sqle.Processes (sqle.Kill_ w' (sqle.ID (sqle.ctx_Session ctx)))
      = sqle.Processes w'
   /\ boundToLiveQuery (sqle.Kill_ w' (sqle.ID (sqle.ctx_Session ctx)))
        (sqle.Pid ctx) = true)
  /\ (contextCancelled
        (sqle.RemoveConnection w' (sqle.ID (sqle.ctx_Session ctx))) ctx'
      /\ sqle.procs (sqle.RemoveConnection w' (sqle.ID (sqle.ctx_Session ctx)))
         !! sqle.ID (sqle.ctx_Session ctx) = None
      /\ unboundPid
           (sqle.RemoveConnection w' (sqle.ID (sqle.ctx_Session ctx)))
           (sqle.Pid ctx)
      /\ S (length (sqle.Processes
                      (sqle.RemoveConnection w'
                         (sqle.ID (sqle.ctx_Session ctx)))))
         = length (sqle.Processes w'))
  /\ (forall connID,
        sqle.procs w' !! connID = None ->
        sqle.Kill_ w' connID = w' /\ sqle.RemoveConnection w' connID = w').
Proof.
  intros (p & Hp & Hpid & -> & ->)%BeginQuery_Ok_inv. split; [|split].
  - unfold sqle.Kill_. simpl. rewrite lookup_insert_eq. simpl.
    split; [|split].
    + exists (sqle.nextRef w). simpl. split; [left|set_solver].
    + reflexivity.
    + unfold boundToLiveQuery, sqle.processOfPid. simpl.
      rewrite !lookup_insert_eq. simpl.
      rewrite !bool_decide_eq_true_2 by reflexivity. reflexivity.
  - unfold sqle.RemoveConnection. simpl. rewrite lookup_insert_eq. simpl.
    split; [|split; [|split]].
    + exists (sqle.nextRef w). simpl. split; [left|set_solver].
    + apply lookup_delete_eq.
    + left. simpl. apply lookup_delete_eq.
    + unfold sqle.Processes. simpl.
      rewrite !length_map, !length_map_to_list.
      rewrite map_size_delete_Some by (rewrite lookup_insert_eq; eauto).
      rewrite map_size_insert_Some by eauto.
      assert (size (sqle.procs w) <> 0%nat); [|lia].
      intros Hz%map_size_empty_iff. rewrite Hz, lookup_empty in Hp.
      discriminate.
  - intros connID Hnone. unfold sqle.Kill_, sqle.RemoveConnection.
    rewrite Hnone. split; reflexivity.
Qed.

End ProcessListMore.

Lemma Processes_lists_each_connection_once_witness :
  exists w,
    worldQuerying = Ok w
    /\ NoDup (sqle.Connection <$> sqle.Processes w)
    /\ forall p,
         p ∈ sqle.Processes w ->
         sqle.Command p = sqle.ProcessCommandQuery <-> is_Some (sqle.Kill p).
Proof.
  eexists. split; [vm_compute; reflexivity|].
  match goal with
  | |- NoDup (_ <$> sqle.Processes ?w) /\ _ =>
      destruct (Processes_lists_each_connection_once w) as (Hnd & _ & Hc)
  end.
  - apply reachable_worldQuerying. vm_compute. reflexivity.
  - split; [exact Hnd|]. intros p Hp. exact (proj1 (Hc p Hp)).
Defined.

Lemma progress_operations_return_witness :
  (exists w,
      worldQuerying = Ok w
      /\ (exists w', sqle.UpdateTableProgress w 1%N "b" 4 = Ok w')
      /\ (exists w', sqle.RemovePartitionProgress w 1%N "a" "a-1" = Ok w'))
  /\ (exists w,
        worldStale = Ok w
        /\ sqle.AddTableProgress w 1%N "a" 5 = Fail sqle.nilMapWrite).
Proof.
  split.
  - eexists. split; [vm_compute; reflexivity|].
    match goal with
    | |- (exists _, sqle.UpdateTableProgress ?w _ _ _ = _) /\ _ =>
        destruct (progress_operations_return w 1%N)
          as ((_ & _ & _ & Hr) & Hrun & _)
    end.
    + apply reachable_worldQuerying. vm_compute. reflexivity.
    + edestruct Hrun as [Hu _];
        [vm_compute; reflexivity|vm_compute; reflexivity|].
      split; [apply Hu|apply Hr].
  - eexists. split; [vm_compute; reflexivity|].
    match goal with
    | |- sqle.AddTableProgress ?w _ _ _ = _ =>
        destruct (progress_operations_return w 1%N) as (_ & _ & Hidle)
    end.
    + apply reachable_worldStale. vm_compute. reflexivity.
    + edestruct Hidle as [_ Ha];
        [vm_compute; reflexivity|vm_compute; discriminate|].
      apply Ha.
Defined.

Lemma EndQuery_returns_unless_pid_zero_witness :
  sqle.EndQuery worldReady sampleContext 5
  <> Fail (RuntimePanic "call of nil func")
  /\ sqle.EndQuery worldReady
       {| sqle.ctx_Session := sampleSession; sqle.Pid := 0%N;
          sqle.cancelScopes := [] |} 5
     = Fail (RuntimePanic "call of nil func").
Proof.
  split.
  - intros Hf.
    apply (EndQuery_returns_unless_pid_zero worldReady sampleContext 5
             reachable_worldReady) in Hf as [Hz _].
    discriminate Hz.
  - apply (EndQuery_returns_unless_pid_zero worldReady _ 5
             reachable_worldReady).
    split; [reflexivity|]. eexists. split; [vm_compute; reflexivity|].
    vm_compute. discriminate.
Defined.

Lemma pid_in_use_until_EndQuery_witness :
  exists ctx' w',
    sqle.BeginQuery worldReady sampleContext "SELECT foo" 2 = Ok (ctx', w')
    /\ sqle.BeginQuery w' sampleContext "SELECT bar" 3
       = Fail (ErrPidAlreadyUsed 1%N)
    /\ exists w'',
         sqle.EndQuery w' ctx' 4 = Ok w''
         /\ boundToLiveQuery w'' 1%N = false.
Proof.
  eexists _, _. split; [vm_compute; reflexivity|].
  match goal with
  | |- sqle.BeginQuery ?w' _ _ _ = _ /\ (exists _, sqle.EndQuery _ ?c _ = _ /\ _) =>
      destruct (pid_in_use_until_EndQuery worldReady sampleContext
                  "SELECT foo" 2 c w') as (_ & Hfail & Hend)
  end.
  - vm_compute. reflexivity.
  - split.
    + apply (Hfail sampleContext "SELECT bar" 3); [reflexivity|].
      vm_compute. eauto.
    + destruct (Hend 4) as (w'' & He & Hnb & _). exists w''.
      split; [exact He|exact Hnb].
Defined.

Lemma Kill_and_RemoveConnection_cancel_witness :
  exists ctx' w',
    sqle.BeginQuery worldReady sampleContext "SELECT foo" 2 = Ok (ctx', w')
    /\ contextCancelled (sqle.Kill_ w' 1%N) ctx'
    /\ sqle.Processes (sqle.Kill_ w' 1%N) = sqle.Processes w'
    /\ sqle.procs (sqle.RemoveConnection w' 1%N) !! 1%N = None.
Proof.
  eexists _, _. split; [vm_compute; reflexivity|].
  match goal with
  | |- contextCancelled (sqle.Kill_ ?w' _) ?c /\ _ =>
      destruct (Kill_and_RemoveConnection_cancel worldReady sampleContext
                  "SELECT foo" 2 c w') as ((Hk & Hp & _) & (_ & Hr & _) & _)
  end.
  - vm_compute. reflexivity.
  - split; [exact Hk|]. split; [exact Hp|exact Hr].
Defined.

(** ** The progress a process shows *)

Section ProcessListProgress.

Implicit Types (w : sqle.World) (p : sqle.Process).

Lemma shownProgress_lookup w p name :
  shownProgress w p name
  = (fun tp => (sqle.Done (sqle.TableProgress_Progress tp),
                sqle.Total (sqle.TableProgress_Progress tp)))
      <$> (sqle.tableMapOf w (sqle.Process_Progress p) !! name).
Proof.
  unfold shownProgress, sqle.progressOf. rewrite lookup_fmap.
  destruct (_ !! name); reflexivity.
Qed.

(** After [m[name] = v] on the progress map of [p]. *)
Lemma shown_after_store w1 w p r name v w' :
  sqle.Process_Progress p = Some r ->
  sqle.tableMaps w1 = sqle.tableMaps w ->
  sqle.tableMapStore w1 (Some r) name v = Ok w' ->
  shownProgress w' p name
  = Some (sqle.Done (sqle.TableProgress_Progress v),
          sqle.Total (sqle.TableProgress_Progress v))
  /\ (forall name', name' <> name ->
        shownProgress w' p name' = shownProgress w p name')
  /\ (forall pid, sqle.processOfPid w' pid = sqle.processOfPid w1 pid).
Proof.
  intros Hr Htm [= <-]. split; [|split; [|reflexivity]].
  - rewrite shownProgress_lookup, Hr. simpl.
    rewrite lookup_insert_eq. simpl. rewrite lookup_insert_eq. reflexivity.
  - intros name' Hne. rewrite !shownProgress_lookup, Hr. simpl.
    rewrite lookup_insert_eq. simpl. rewrite lookup_insert_ne by done.
    rewrite Htm. reflexivity.
Qed.

Lemma wrapInt64_in_range z :
  (- 2 ^ 63 <= z < 2 ^ 63)%Z -> sqle.wrapInt64 z = z.
Proof.
  intros Hz. unfold sqle.wrapInt64. rewrite Z.mod_small by lia. lia.
Qed.

(** X17.  For the pid of a process that has a progress map, the table
    operations act on the progress the process shows as on a map from
    table names to (done, total): [AddTableProgress] sets the total of
    the table and keeps its done count (0 for a new table);
    [UpdateTableProgress] adds the delta to the done count, as an int64
    (from 0, with total -1, for a table not seen before);
    [RemoveTableProgress] removes the table.  The other tables show what
    they showed, and the pid stays with its process. *)
Theorem table_progress_operations w pid p name :
  sqle.processOfPid w pid = Some p ->
  is_Some (sqle.Process_Progress p) ->
  (forall total, exists w',
      sqle.AddTableProgress w pid name total = Ok w'
      /\ shownProgress w' p name
         = Some (match shownProgress w p name with
                 | Some (d, _) => d
                 | None => 0
                 end, total)
      /\ (forall name', name' <> name ->
            shownProgress w' p name' = shownProgress w p name')
      /\ sqle.processOfPid w' pid = Some p)
  /\ (forall delta, exists w',
        sqle.UpdateTableProgress w pid name delta = Ok w'
        /\ shownProgress w' p name
           = Some (match shownProgress w p name with
                   | Some (d, t) => (sqle.wrapInt64 (d + delta), t)
                   | None => (sqle.wrapInt64 (0 + delta), -1)
                   end)
        /\ (forall name', name' <> name ->
              shownProgress w' p name' = shownProgress w p name')
        /\ sqle.processOfPid w' pid = Some p)
  /\ (exists w',
        sqle.RemoveTableProgress w pid name = Ok w'
        /\ shownProgress w' p name = None
        /\ (forall name', name' <> name ->
              shownProgress w' p name' = shownProgress w p name')
        /\ sqle.processOfPid w' pid = Some p)
  /\ (forall d delta,
        - 2 ^ 63 <= d + delta < 2 ^ 63 ->
        sqle.wrapInt64 (d + delta) = d + delta).
Proof.
  intros Hp [r Hr].
  assert (Hshown : shownProgress w p name
                   = (fun tp => (sqle.Done (sqle.TableProgress_Progress tp),
                                 sqle.Total (sqle.TableProgress_Progress tp)))
                       <$> (sqle.tableMapOf w (Some r) !! name)).
  { rewrite shownProgress_lookup, Hr. reflexivity. }
  split; [|split; [|split]].
  - intros total. unfold sqle.AddTableProgress. rewrite Hp, Hr.
    destruct (sqle.tableMapOf w (Some r) !! name) as [tp|] eqn:Htp;
      rewrite Hshown; simpl.
    + eexists. split; [reflexivity|].
      edestruct (shown_after_store w w p r name) as (H1 & H2 & H3);
        [exact Hr|reflexivity|reflexivity|].
      split; [rewrite H1; reflexivity|].
      split; [exact H2|rewrite H3; exact Hp].
    + eexists. split; [reflexivity|].
      edestruct (shown_after_store (snd (sqle.makePartitionMap w)) w p r name)
        as (H1 & H2 & H3); [exact Hr|reflexivity|reflexivity|].
      split; [rewrite H1; reflexivity|].
      split; [exact H2|rewrite H3; exact Hp].
  - intros delta. unfold sqle.UpdateTableProgress. rewrite Hp, Hr.
    destruct (sqle.tableMapOf w (Some r) !! name) as [tp|] eqn:Htp;
      rewrite Hshown; simpl.
    + eexists. split; [reflexivity|].
      edestruct (shown_after_store w w p r name) as (H1 & H2 & H3);
        [exact Hr|reflexivity|reflexivity|].
      split; [rewrite H1; reflexivity|].
      split; [exact H2|rewrite H3; exact Hp].
    + eexists. split; [reflexivity|].
      edestruct (shown_after_store (snd (sqle.makePartitionMap w)) w p r name)
        as (H1 & H2 & H3); [exact Hr|reflexivity|reflexivity|].
      split; [rewrite H1; reflexivity|].
      split; [exact H2|rewrite H3; exact Hp].
  - unfold sqle.RemoveTableProgress. rewrite Hp, Hr.
    eexists. split; [reflexivity|]. split; [|split; [|exact Hp]].
    + rewrite shownProgress_lookup, Hr. simpl.
      rewrite lookup_insert_eq. simpl. rewrite lookup_delete_eq. reflexivity.
    + intros name' Hne. rewrite !shownProgress_lookup, Hr. simpl.
      rewrite lookup_insert_eq. simpl. rewrite lookup_delete_ne by done.
      reflexivity.
  - intros d delta Hz. apply wrapInt64_in_range, Hz.
Qed.

Lemma shownPartition_lookup w p tn pn :
  shownPartition w p tn pn
  = match sqle.tableMapOf w (sqle.Process_Progress p) !! tn with
    | None => None
    | Some tp =>
        (fun pp => (sqle.Done (sqle.PartitionProgress_Progress pp),
                    sqle.Total (sqle.PartitionProgress_Progress pp)))
          <$> (sqle.partitionMapOf w (sqle.PartitionsProgress tp) !! pn)
    end.
Proof.
  unfold shownPartition, sqle.progressOf. rewrite lookup_fmap.
  destruct (_ !! tn); reflexivity.
Qed.

(** After the partition map of table [tn] of [p] has been replaced by
    [newmap]: the partitions of [tn] are those of [newmap], everything
    else that [p] shows is as before. *)
Lemma shown_after_partition_write w w' pid p tn tp r' newmap :
  consistent w ->
  sqle.processOfPid w pid = Some p ->
  sqle.tableMapOf w (sqle.Process_Progress p) !! tn = Some tp ->
  sqle.PartitionsProgress tp = Some r' ->
  sqle.tableMaps w' = sqle.tableMaps w ->
  sqle.partitionMaps w' = <[r' := newmap]> (sqle.partitionMaps w) ->
  (forall pn,
     shownPartition w' p tn pn
     = (fun pp => (sqle.Done (sqle.PartitionProgress_Progress pp),
                   sqle.Total (sqle.PartitionProgress_Progress pp)))
         <$> (newmap !! pn))
  /\ (forall tn' pn, tn' <> tn ->
        shownPartition w' p tn' pn = shownPartition w p tn' pn)
  /\ (forall tn', shownProgress w' p tn' = shownProgress w p tn').
Proof.
  intros Hw Hp Htp Hr' Htm Hpm.
  assert (Hmap : sqle.tableMapOf w' (sqle.Process_Progress p)
                 = sqle.tableMapOf w (sqle.Process_Progress p)).
  { unfold sqle.tableMapOf. rewrite Htm. reflexivity. }
  split; [|split].
  - intros pn. rewrite shownPartition_lookup, Hmap, Htp, Hr'. simpl.
    rewrite Hpm, lookup_insert_eq. reflexivity.
  - intros tn' pn Hne. rewrite !shownPartition_lookup, Hmap.
    destruct (sqle.tableMapOf w (sqle.Process_Progress p) !! tn')
      as [tp'|] eqn:Htp'; [|reflexivity].
    destruct (consistent_partition_map w pid p tn' tp' Hw Hp Htp')
      as (r'' & Hr'' & _).
    rewrite Hr''. simpl. rewrite Hpm, lookup_insert_ne; [reflexivity|].
    intros <-. apply Hne.
    destruct (sqle.Process_Progress p) as [r|] eqn:Hr;
      [|simpl in Htp; rewrite lookup_empty in Htp; discriminate].
    destruct (consistent_progress_map w pid p r Hw Hp Hr) as (m & Hm & Heq).
    rewrite Hr in Heq. rewrite Heq in Htp, Htp'.
    exact (proj2 (cons_partitions_separate w Hw r r m m tn' tn tp' tp r'
                    Hm Htp' Hm Htp Hr'' Hr')).
  - intros tn'. rewrite !shownProgress_lookup, Hmap. reflexivity.
Qed.

(** X18.  In a state the operations lead to, for the process of a pid.
    On a table the process does not show, the partition operations
    change nothing.  On a table it shows, they act on its partitions as
    on a map from partition names to (done, total):
    [AddPartitionProgress] sets the total and keeps the done count (0
    for a new partition), [UpdatePartitionProgress] adds the delta to the
    done count as an int64 (from 0, with total -1, for a new partition),
    [RemovePartitionProgress] removes the partition.  The other
    partitions, the partitions of the other tables, and the done and
    total of every table are as before. *)
Theorem partition_progress_operations w pid p tn pn :
  reachable w ->
  sqle.processOfPid w pid = Some p ->
  (shownProgress w p tn = None ->
     (forall total, sqle.AddPartitionProgress w pid tn pn total = Ok w)
     /\ (forall delta, sqle.UpdatePartitionProgress w pid tn pn delta = Ok w)
     /\ sqle.RemovePartitionProgress w pid tn pn = Ok w)
  /\ (is_Some (shownProgress w p tn) ->
      (forall total, exists w',
          sqle.AddPartitionProgress w pid tn pn total = Ok w'
          /\ shownPartition w' p tn pn
             = Some (match shownPartition w p tn pn with
                     | Some (d, _) => d
                     | None => 0
                     end, total)
          /\ (forall tn' pn', (tn', pn') <> (tn, pn) ->
                shownPartition w' p tn' pn' = shownPartition w p tn' pn')
          /\ (forall tn', shownProgress w' p tn' = shownProgress w p tn'))
      /\ (forall delta, exists w',
            sqle.UpdatePartitionProgress w pid tn pn delta = Ok w'
            /\ shownPartition w' p tn pn
               = Some (match shownPartition w p tn pn with
                       | Some (d, t) => (sqle.wrapInt64 (d + delta), t)
                       | None => (sqle.wrapInt64 (0 + delta), -1)
                       end)
            /\ (forall tn' pn', (tn', pn') <> (tn, pn) ->
                  shownPartition w' p tn' pn' = shownPartition w p tn' pn')
            /\ (forall tn', shownProgress w' p tn' = shownProgress w p tn'))
      /\ (exists w',
            sqle.RemovePartitionProgress w pid tn pn = Ok w'
            /\ shownPartition w' p tn pn = None
            /\ (forall tn' pn', (tn', pn') <> (tn, pn) ->
                  shownPartition w' p tn' pn' = shownPartition w p tn' pn')
            /\ (forall tn', shownProgress w' p tn' = shownProgress w p tn'))).
Proof.
  intros Hw%reachable_consistent Hp.
  unfold sqle.AddPartitionProgress, sqle.UpdatePartitionProgress,
    sqle.RemovePartitionProgress.
  rewrite Hp, (shownProgress_lookup w p tn).
  destruct (sqle.tableMapOf w (sqle.Process_Progress p) !! tn)
    as [tp|] eqn:Htp; simpl.
  2:{ split; [auto|]. intros [? ?]. discriminate. }
  split; [discriminate|]. intros _.
  destruct (consistent_partition_map w pid p tn tp Hw Hp Htp)
    as (r' & Hr' & _).
  assert (Hold : forall pn',
            shownPartition w p tn pn'
            = (fun pp => (sqle.Done (sqle.PartitionProgress_Progress pp),
                          sqle.Total (sqle.PartitionProgress_Progress pp)))
                <$> (sqle.partitionMapOf w (Some r') !! pn')).
  { intros pn'. rewrite shownPartition_lookup, Htp, Hr'. reflexivity. }
  assert (Hafter : forall w' newmap,
            sqle.tableMaps w' = sqle.tableMaps w ->
            sqle.partitionMaps w' = <[r' := newmap]> (sqle.partitionMaps w) ->
            (forall pn', pn' <> pn ->
               newmap !! pn' = sqle.partitionMapOf w (Some r') !! pn') ->
            shownPartition w' p tn pn
            = (fun pp => (sqle.Done (sqle.PartitionProgress_Progress pp),
                          sqle.Total (sqle.PartitionProgress_Progress pp)))
                <$> (newmap !! pn)
            /\ (forall tn' pn', (tn', pn') <> (tn, pn) ->
                  shownPartition w' p tn' pn' = shownPartition w p tn' pn')
            /\ (forall tn', shownProgress w' p tn' = shownProgress w p tn')).
  { intros w' newmap Htm Hpm Hrest.
    destruct (shown_after_partition_write w w' pid p tn tp r' newmap
                Hw Hp Htp Hr' Htm Hpm) as (Hs1 & Hs2 & Hs3).
    split; [apply Hs1|]. split; [|exact Hs3].
    intros tn' pn' Hne. destruct (decide (tn' = tn)) as [->|Htn];
      [|apply Hs2, Htn].
    rewrite Hs1, Hold, Hrest; [reflexivity|]. congruence. }
  rewrite Hr', (Hold pn). split; [|split].
  - intros total.
    destruct (sqle.partitionMapOf w (Some r') !! pn) as [pp|] eqn:Hpp;
      simpl; (eexists; split; [reflexivity|]);
      (match goal with
       | |- shownPartition ?w' _ _ _ = _ /\ _ =>
           edestruct (Hafter w') as (Ha1 & Ha2 & Ha3);
             [reflexivity|reflexivity| |]
       end);
      try (intros pn' Hne; apply lookup_insert_ne; congruence);
      (split; [|split; [exact Ha2|exact Ha3]]);
      rewrite Ha1, lookup_insert_eq; reflexivity.
  - intros delta.
    destruct (sqle.partitionMapOf w (Some r') !! pn) as [pp|] eqn:Hpp;
      simpl; (eexists; split; [reflexivity|]);
      (match goal with
       | |- shownPartition ?w' _ _ _ = _ /\ _ =>
           edestruct (Hafter w') as (Ha1 & Ha2 & Ha3);
             [reflexivity|reflexivity| |]
       end);
      try (intros pn' Hne; apply lookup_insert_ne; congruence);
      (split; [|split; [exact Ha2|exact Ha3]]);
      rewrite Ha1, lookup_insert_eq; reflexivity.
  - eexists. split; [reflexivity|].
    match goal with
    | |- shownPartition ?w' _ _ _ = _ /\ _ =>
        edestruct (Hafter w') as (Ha1 & Ha2 & Ha3);
          [reflexivity|reflexivity| |]
    end.
    + intros pn' Hne. apply lookup_delete_ne. congruence.
    + split; [|split; [exact Ha2|exact Ha3]].
      rewrite Ha1, lookup_delete_eq. reflexivity.
Qed.

(** A process of another connection shows the same when the store has
    changed only at the progress map [r] of this connection, at the
    partition maps of the entries of [r], and at new addresses. *)
Lemma progressOf_other_connection w w' r id id' p p' :
  consistent w ->
  sqle.procs w !! id = Some p ->
  sqle.Process_Progress p = Some r ->
  sqle.procs w !! id' = Some p' ->
  id' <> id ->
  (forall r2, r2 <> r -> sqle.tableMaps w' !! r2 = sqle.tableMaps w !! r2) ->
  (forall r'',
     is_Some (sqle.partitionMaps w !! r'') ->
     (forall m n tp,
        sqle.tableMaps w !! r = Some m -> m !! n = Some tp ->
        sqle.PartitionsProgress tp <> Some r'') ->
     sqle.partitionMaps w' !! r'' = sqle.partitionMaps w !! r'') ->
  sqle.progressOf w' p' = sqle.progressOf w p'.
Proof.
  intros Hw Hp Hr Hp' Hne Htm Hpm. unfold sqle.progressOf.
  destruct (sqle.Process_Progress p') as [r2|] eqn:Hr2; [|reflexivity].
  destruct (cons_tables w Hw id' p' r2 Hp' Hr2) as [m2 Hm2].
  assert (Hrr : r2 <> r).
  { intros ->. apply Hne.
    exact (cons_separate w Hw id' id p' p r Hp' Hp Hr2 Hr). }
  simpl. rewrite (Htm r2 Hrr), Hm2. simpl.
  apply map_fmap_ext. intros n tp Htp. f_equal.
  destruct (cons_partitions w Hw r2 m2 n tp Hm2 Htp) as (r'' & Hr'' & Hs).
  rewrite Hr''. simpl. rewrite Hpm; [reflexivity|exact Hs|].
  intros m n0 tp0 Hm Hn0 Hr0. apply Hrr.
  exact (proj1 (cons_partitions_separate w Hw r2 r m2 m n n0 tp tp0 r''
                  Hm2 Htp Hm Hn0 Hr'' Hr0)).
Qed.

(** X19.  In a state the operations lead to, a progress operation under
    a pid of one connection, if it returns, leaves the process of every
    other connection in place, showing the progress it showed, tables
    and partitions. *)
Theorem progress_of_other_connections_untouched w pid id id' p' w' :
  reachable w ->
  sqle.byQueryPid w !! pid = Some id ->
  sqle.procs w !! id' = Some p' ->
  id' <> id ->
  (exists name delta, sqle.UpdateTableProgress w pid name delta = Ok w')
  \/ (exists name total, sqle.AddTableProgress w pid name total = Ok w')
  \/ (exists name, sqle.RemoveTableProgress w pid name = Ok w')
  \/ (exists tn pn delta,
        sqle.UpdatePartitionProgress w pid tn pn delta = Ok w')
  \/ (exists tn pn total,
        sqle.AddPartitionProgress w pid tn pn total = Ok w')
  \/ (exists tn pn, sqle.RemovePartitionProgress w pid tn pn = Ok w') ->
  sqle.procs w' !! id' = Some p'
  /\ sqle.progressOf w' p' = sqle.progressOf w p'.
Proof.
  intros Hw%reachable_consistent Hpid Hp' Hne.
  unfold sqle.UpdateTableProgress, sqle.AddTableProgress,
    sqle.RemoveTableProgress, sqle.UpdatePartitionProgress,
    sqle.AddPartitionProgress, sqle.RemovePartitionProgress,
    sqle.processOfPid.
  rewrite Hpid.
  destruct (sqle.procs w !! id) as [p|] eqn:Hp.
  2:{ intros [(? & ? & [= <-])|[(? & ? & [= <-])|[(? & [= <-])
        |[(? & ? & ? & [= <-])|[(? & ? & ? & [= <-])|(? & ? & [= <-])]]]]];
        auto. }
  destruct (sqle.Process_Progress p) as [r|] eqn:Hr.
  2:{ simpl.
      intros [(n & ? & H)|[(n & ? & H)|[(? & [= <-])
        |[(n & ? & ? & H)|[(n & ? & ? & H)|(n & ? & H)]]]]];
        auto; rewrite lookup_empty in H; try discriminate;
        injection H as <-; auto. }
  assert (Hfresh : forall r'' (x : gmap string sqle.PartitionProgress),
            is_Some (sqle.partitionMaps w !! r'') ->
            <[sqle.nextRef w := x]> (sqle.partitionMaps w) !! r''
            = sqle.partitionMaps w !! r'').
  { intros r'' x Hs. apply lookup_insert_ne.
    pose proof (cons_fresh_partitions w Hw r'' Hs). lia. }
  assert (Hentry : forall tn tp r' r'' (x : gmap string sqle.PartitionProgress),
            sqle.tableMapOf w (Some r) !! tn = Some tp ->
            sqle.PartitionsProgress tp = Some r' ->
            (forall m n tp0,
               sqle.tableMaps w !! r = Some m -> m !! n = Some tp0 ->
               sqle.PartitionsProgress tp0 <> Some r'') ->
            <[r' := x]> (sqle.partitionMaps w) !! r''
            = sqle.partitionMaps w !! r'').
  { intros tn tp r' r'' x Htp Hr' Hnot. apply lookup_insert_ne. intros <-.
    destruct (cons_tables w Hw id p r Hp Hr) as [m Hm].
    simpl in Htp. rewrite Hm in Htp. exact (Hnot m tn tp Hm Htp Hr'). }
  assert (Hcore : forall w0,
            sqle.procs w0 = sqle.procs w ->
            (forall r2, r2 <> r ->
               sqle.tableMaps w0 !! r2 = sqle.tableMaps w !! r2) ->
            (forall r'',
               is_Some (sqle.partitionMaps w !! r'') ->
               (forall m n tp,
                  sqle.tableMaps w !! r = Some m -> m !! n = Some tp ->
                  sqle.PartitionsProgress tp <> Some r'') ->
               sqle.partitionMaps w0 !! r'' = sqle.partitionMaps w !! r'') ->
            sqle.procs w0 !! id' = Some p'
            /\ sqle.progressOf w0 p' = sqle.progressOf w p').
  { intros w0 Hprocs Htm Hpm. split; [rewrite Hprocs; exact Hp'|].
    exact (progressOf_other_connection w w0 r id id' p p'
             Hw Hp Hr Hp' Hne Htm Hpm). }
  intros [(name & delta & H)|[(name & total & H)|[(name & H)
    |[(tn & pn & delta & H)|[(tn & pn & total & H)|(tn & pn & H)]]]]];
    revert H.
  - destruct (sqle.tableMapOf w (Some r) !! name); simpl; intros [= <-];
      apply Hcore; simpl; auto; intros; apply lookup_insert_ne; congruence.
  - destruct (sqle.tableMapOf w (Some r) !! name); simpl; intros [= <-];
      apply Hcore; simpl; auto; intros; apply lookup_insert_ne; congruence.
  - simpl. intros [= <-].
    apply Hcore; simpl; auto; intros; apply lookup_insert_ne; congruence.
  - destruct (sqle.tableMapOf w (Some r) !! tn) as [tp|] eqn:Htp;
      [|intros [= <-]; auto].
    destruct (sqle.PartitionsProgress tp) as [r'|] eqn:Hr'; [|discriminate].
    simpl. intros [= <-]. apply Hcore; simpl; eauto.
  - destruct (sqle.tableMapOf w (Some r) !! tn) as [tp|] eqn:Htp;
      [|intros [= <-]; auto].
    destruct (sqle.PartitionsProgress tp) as [r'|] eqn:Hr';
      [|destruct (sqle.partitionMapOf w None !! pn); discriminate].
    destruct (sqle.partitionMapOf w (Some r') !! pn);
      simpl; intros [= <-]; apply Hcore; simpl; eauto.
  - destruct (sqle.tableMapOf w (Some r) !! tn) as [tp|] eqn:Htp;
      [|intros [= <-]; auto].
    destruct (sqle.PartitionsProgress tp) as [r'|] eqn:Hr';
      [|intros [= <-]; auto].
    simpl. intros [= <-]. apply Hcore; simpl; eauto.
Qed.

End ProcessListProgress.

Lemma table_progress_operations_witness :
  exists w p w',
    worldQuerying = Ok w
    /\ sqle.processOfPid w 1%N = Some p
    /\ sqle.UpdateTableProgress w 1%N "a" 3 = Ok w'
    /\ shownProgress w' p "a" = Some (3, 5).
Proof.
  assert (H0 : exists w p,
            worldQuerying = Ok w
            /\ sqle.processOfPid w 1%N = Some p
            /\ is_Some (sqle.Process_Progress p)
            /\ shownProgress w p "a" = Some (0, 5)).
  { eexists _, _. split; [vm_compute; reflexivity|].
    split; [vm_compute; reflexivity|].
    split; [vm_compute; eauto|vm_compute; reflexivity]. }
  destruct H0 as (w & p & Hw & Hp & Hm & Hs).
  destruct (table_progress_operations w 1%N p "a" Hp Hm) as (_ & Hu & _).
  destruct (Hu 3) as (w' & Hu' & Hs' & _).
  exists w, p, w'. split; [exact Hw|]. split; [exact Hp|].
  split; [exact Hu'|]. rewrite Hs', Hs. reflexivity.
Defined.

Lemma partition_progress_operations_witness :
  exists w p w',
    worldQuerying = Ok w
    /\ sqle.processOfPid w 1%N = Some p
    /\ sqle.AddPartitionProgress w 1%N "a" "a-1" 100 = Ok w'
    /\ shownPartition w' p "a" "a-1" = Some (0, 100)
    /\ shownProgress w' p "a" = Some (0, 5).
Proof.
  assert (H0 : exists w p,
            worldQuerying = Ok w
            /\ sqle.processOfPid w 1%N = Some p
            /\ shownProgress w p "a" = Some (0, 5)
            /\ shownPartition w p "a" "a-1" = None).
  { eexists _, _. split; [vm_compute; reflexivity|].
    split; [vm_compute; reflexivity|].
    split; vm_compute; reflexivity. }
  destruct H0 as (w & p & Hw & Hp & Hs & Hn).
  destruct (partition_progress_operations w 1%N p "a" "a-1"
              (reachable_worldQuerying w Hw) Hp) as (_ & Htracked).
  destruct Htracked as (Ha & _ & _); [rewrite Hs; eauto|].
  destruct (Ha 100) as (w' & Ha' & Hs' & _ & Ht).
  exists w, p, w'. split; [exact Hw|]. split; [exact Hp|].
  split; [exact Ha'|]. split; [rewrite Hs', Hn; reflexivity|].
  rewrite Ht. exact Hs.
Defined.

Lemma progress_of_other_connections_untouched_witness :
  exists w p2 w',
    worldTwoQueries = Ok w
    /\ sqle.procs w !! 2%N = Some p2
    /\ shownProgress w p2 "b" = Some (0, 7)
    /\ sqle.UpdateTableProgress w 1%N "a" 3 = Ok w'
    /\ sqle.progressOf w' p2 = sqle.progressOf w p2.
Proof.
  assert (H0 : exists w p2 w',
            worldTwoQueries = Ok w
            /\ sqle.byQueryPid w !! 1%N = Some 1%N
            /\ sqle.procs w !! 2%N = Some p2
            /\ shownProgress w p2 "b" = Some (0, 7)
            /\ sqle.UpdateTableProgress w 1%N "a" 3 = Ok w').
  { eexists _, _, _. split; [vm_compute; reflexivity|].
    split; [vm_compute; reflexivity|].
    split; [vm_compute; reflexivity|].
    split; vm_compute; reflexivity. }
  destruct H0 as (w & p2 & w' & Hw & Hpid & Hp2 & Hs & Hu).
  destruct (progress_of_other_connections_untouched w 1%N 1%N 2%N p2 w'
              (reachable_worldTwoQueries w Hw) Hpid Hp2) as (_ & Hsame).
  - discriminate.
  - left. eauto.
  - exists w, p2, w'. split; [exact Hw|]. split; [exact Hp2|].
    split; [exact Hs|]. split; [exact Hu|exact Hsame].
Defined.

Lemma date_WithChildren_of_Children_witness :
  sampleDateEval (function.UnixTimestamp 42 None) [] = Ok (Some 42)
  /\ exists e',
       function.UnixTimestamp_WithChildren 0 sampleArityError 42 None
         (function.UnixTimestamp_Children None) = Ok e'
       /\ sampleDateEval e' [] = Ok (Some 0).
Proof.
  unfold sampleDateEval.
  destruct (date_WithChildren_of_Children
              (fun v : Z => Ok v) sampleValidateTime
              (fun z => Ok (Some z)) (fun t : Z => t)
              (fun delta t => t + delta) (fun delta t => t - delta)
              sampleEvalDelta (fun i row => Fail (ErrorString "interval"))
              (fun clock : Z => clock) 0 sampleArityError)
    as (_ & Hw & He).
  destruct (He 42 []) as [H1 H2]. split; [exact H1|].
  eexists. split; [apply Hw|]. apply H2. apply Hw.
Defined.
